(** * DiskSort: an external bucket sort over fixed-size records

    A shallow embedding of [include/chia/DiskSort.hpp].  The C++ class
    [DiskSort<T, Key>] spills records into [2^log_num_buckets] bucket
    files during ingestion ([add], [bucket_t::flush], [finish]), streams
    them back bucket by bucket ([read], [read_bucket], [sort_bucket],
    [sort_block]) and removes the files at the end ([clear]).

    Conventions of the embedding:
    - [size_t] values are [N] with the wrap-around modulo [2^64] written
      out where the source does arithmetic on them; [int] values are [Z];
    - a byte is [Byte.byte], a buffer is a [list byte];
    - a C++ exception is a [Throws] outcome that carries the state at the
      throw; undefined behaviour is the outcome [undefined_behaviour];
    - the C stdio streams and the file system are explicit state. *)

From Stdlib Require Import NArith ZArith Strings.Byte.
From stdpp Require Import base numbers option list strings gmap fin_maps sorting pretty.
From Equations Require Import Equations.

Local Open Scope N_scope.

(** ** Machine integers *)

Definition SIZE_MAX : N := 2 ^ 64 - 1.

(** Reduction of an arithmetic result to [size_t]. *)
Definition size_t (x : N) : N := x `mod` 2 ^ 64.

(** Largest length of a file: stdio addresses files with a signed 64-bit
    [off_t]. *)
Definition OFF_MAX : N := 2 ^ 63 - 1.

(** ** Exceptions and outcomes *)

Inductive exn : Type :=
  | runtime_error (what : string)          (* std::runtime_error *)
  | logic_error (what : string)            (* std::logic_error *)
  | length_error (what : string)           (* std::length_error *)
  | bad_alloc                              (* std::bad_alloc *)
  | undefined_behaviour (what : string).   (* no defined C++ behaviour *)

Inductive outcome (S A : Type) : Type :=
  | Returns (a : A) (s : S)
  | Throws (e : exn) (s : S).
Arguments Returns {S A} a s.
Arguments Throws {S A} e s.

(** A computation over a state [S]: it returns a value or throws, and in
    both cases leaves a state behind. *)
Definition io (S A : Type) : Type := S → outcome S A.

Definition io_ret {S A} (a : A) : io S A := λ s, Returns a s.
Definition io_bind {S A B} (m : io S A) (k : A → io S B) : io S B :=
  λ s, match m s with
       | Returns a s' => k a s'
       | Throws e s' => Throws e s'
       end.
Definition throw {S A} (e : exn) : io S A := λ s, Throws e s.
Definition get_state {S} : io S S := λ s, Returns s s.
Definition put_state {S} (s : S) : io S () := λ _, Returns () s.

Declare Scope io_scope.
Delimit Scope io_scope with io.
Notation "x <- m ;; k" := (io_bind m (λ x, k))
  (at level 100, m at next level, right associativity) : io_scope.
Notation "m ;;; k" := (io_bind m (λ _, k))
  (at level 100, right associativity) : io_scope.
Local Open Scope io_scope.

(** ** The file system and stdio streams

    The streams of the model do not buffer: the characters written to a
    stream are at once the characters of its file, and [fflush] finds
    nothing left to write.  A write is short when the device runs out of
    space or the file would grow beyond [OFF_MAX].

    A C library buffers its streams.  While the device takes every byte
    written to it, the library and the model leave the same files behind
    at each [fflush] and [fclose].  On a device that is full they differ:
    the library may accept a write that the model reports as short, and
    learn of the loss at [fflush] or [fclose] only.  The theorems
    therefore either assume that the device has room, or speak of runs in
    which every call returns and the records are read back in full. *)

Inductive fmode : Type := ModeWrite | ModeRead.   (* "wb" | "rb" *)

Record FILE : Type := {
  stream_path : string;
  stream_mode : fmode;
  stream_pos : N;        (* read position, in bytes *)
}.

Record filesystem : Type := {
  disk : gmap string (list byte);
  free_space : N;
}.

Definition file_length (fs : filesystem) (name : string) : N :=
  match disk fs !! name with
  | Some content => N.of_nat (length content)
  | None => 0
  end.

(** [fopen(name, "wb")]: creates the file or truncates it to length zero.
    The model's file system never refuses to create a file. *)
Definition fopen_wb (name : string) : io filesystem (option FILE) := λ fs,
  Returns (Some {| stream_path := name; stream_mode := ModeWrite; stream_pos := 0 |})
          {| disk := <[name := []]> (disk fs);
             free_space := free_space fs + file_length fs name |}.

(** [fopen(name, "rb")]: a null pointer when the file does not exist. *)
Definition fopen_rb (name : string) : io filesystem (option FILE) := λ fs,
  match disk fs !! name with
  | Some _ => Returns (Some {| stream_path := name; stream_mode := ModeRead; stream_pos := 0 |}) fs
  | None => Returns None fs
  end.

(** [fwrite(data, 1, length data, f)]: appends as many bytes of [data] as
    fit and returns their number. *)
Definition fwrite (data : list byte) (f : FILE) : io filesystem N := λ fs,
  match stream_mode f, disk fs !! stream_path f with
  | ModeWrite, Some content =>
      let room := N.min (free_space fs) (OFF_MAX - N.of_nat (length content)) in
      let n := N.min (N.of_nat (length data)) room in
      Returns n {| disk := <[stream_path f := content ++ take (N.to_nat n) data]> (disk fs);
                   free_space := free_space fs - n |}
  | _, _ => Returns 0 fs
  end.

(** [fread(buf, size, nmemb, f)]: reads up to [nmemb] items of [size]
    bytes; returns the bytes read, the number of complete items and the
    advanced stream. *)
Definition fread (size nmemb : N) (f : FILE) : io filesystem (list byte * N * FILE) := λ fs,
  match stream_mode f, disk fs !! stream_path f with
  | ModeRead, Some content =>
      if bool_decide (size = 0 ∨ nmemb = 0) then Returns ([], 0, f) fs else
      let avail := N.of_nat (length content) - stream_pos f in
      let want := size * nmemb in
      let got := N.min want avail in
      Returns (take (N.to_nat got) (drop (N.to_nat (stream_pos f)) content),
               got `div` size,
               {| stream_path := stream_path f; stream_mode := ModeRead;
                  stream_pos := stream_pos f + got |}) fs
  | _, _ => Returns ([], 0, f) fs
  end.

(** [std::remove(name)]: deletes the file; a missing file is an error
    that the caller may ignore. *)
Definition remove (name : string) : io filesystem bool := λ fs,
  match disk fs !! name with
  | Some content =>
      Returns true {| disk := delete name (disk fs);
                      free_space := free_space fs + N.of_nat (length content) |}
  | None => Returns false fs
  end.

(** ** The engine state *)

(** Modelled from the spec: [bucket_t] is declared in [chia/DiskSort.h],
    which is not among the sources.  Its members are the ones that
    [DiskSort.hpp] uses, "backing file path ..., open file handle, an
    in-memory write buffer of bounded byte capacity, the buffer's current
    fill offset, and a monotonically incremented count of records
    written". *)
Record bucket_t : Type := {
  file : option FILE;       (* FILE*: [None] is the null pointer *)
  file_name : string;
  offset : N;
  num_entries : N;
  buffer : list byte;       (* uint8_t buffer[buffer_capacity] *)
}.

(** Modelled from the spec: the data members of the class, declared in
    the same header; [is_finished] is the "read-only" mark that [finish]
    sets. *)
Record DiskSort : Type := {
  key_size : Z;
  log_num_buckets : Z;
  num_threads : Z;
  buckets : list bucket_t;
  is_finished : bool;
}.

(** The program state: the object and the file system it works on. *)
Record world : Type := {
  this : DiskSort;
  fs : filesystem;
}.

Definition on_fs {A} (m : io filesystem A) : io world A := λ w,
  match m (fs w) with
  | Returns a fs' => Returns a {| this := this w; fs := fs' |}
  | Throws e fs' => Throws e {| this := this w; fs := fs' |}
  end.

Definition with_buckets (d : DiskSort) (bs : list bucket_t) : DiskSort :=
  {| key_size := key_size d; log_num_buckets := log_num_buckets d;
     num_threads := num_threads d; buckets := bs; is_finished := is_finished d |}.

Definition set_buckets (bs : list bucket_t) : io world () := λ w,
  Returns () {| this := with_buckets (this w) bs; fs := fs w |}.

Definition set_bucket (index : N) (b : bucket_t) : io world () :=
  w <- get_state ;; set_buckets (<[N.to_nat index := b]> (buckets (this w))).

(** [buckets[index]]; indexing past the end of the vector is undefined. *)
Definition bucket_at (index : N) : io world bucket_t :=
  w <- get_state ;;
  match buckets (this w) !! N.to_nat index with
  | Some b => io_ret b
  | None => throw (undefined_behaviour "vector index out of bounds")
  end.

Definition set_finished (b : bool) : io world () := λ w,
  Returns () {| this := {| key_size := key_size (this w);
                           log_num_buckets := log_num_buckets (this w);
                           num_threads := num_threads (this w);
                           buckets := buckets (this w);
                           is_finished := b |};
                fs := fs w |}.

(** [fclose(f)]; closing a null pointer is undefined. *)
Definition fclose (f : option FILE) : io world () :=
  match f with
  | Some _ => io_ret ()
  | None => throw (undefined_behaviour "fclose(nullptr)")
  end.

(** [x >> s] on a 64-bit unsigned value; a negative count or a count of
    64 or more is undefined. *)
Definition shift_right {S} (x : N) (s : Z) : io S N :=
  if bool_decide (0 ≤ s < 64)%Z then io_ret (N.shiftr x (Z.to_N s))
  else throw (undefined_behaviour "shift count out of range").

(** [x << s] on [int]; a negative count, a count of 32 or more and a
    result that does not fit are undefined. *)
Definition INT_MAX : Z := 2 ^ 31 - 1.

Definition int_shift_left {S} (x s : Z) : io S Z :=
  if bool_decide (0 ≤ x ∧ 0 ≤ s < 32 ∧ Z.shiftl x s ≤ INT_MAX)%Z then io_ret (Z.shiftl x s)
  else throw (undefined_behaviour "shift out of range").

(** [for(size_t i = from; <count more iterations>; ++i) body(i)]. *)
Fixpoint for_range {S} (count : nat) (from : N) (body : N → io S ()) : io S () :=
  match count with
  | O => io_ret ()
  | S count' => body from ;;; for_range count' (from + 1) body
  end.

(** [for(auto& bucket : buckets) body(bucket)], by position. *)
Definition for_buckets (body : N → io world ()) : io world () :=
  w <- get_state ;; for_range (length (buckets (this w))) 0 body.

(** ** The template parameters

    [T] is the record type and [Key] the key extractor; both are supplied
    by the user of the class.  A record type "exposes a fixed [disk_size]
    in bytes, [write(buffer) -> bytes_written], [read(buffer) -> Self]";
    [write] is taken to return the number of bytes it stored. *)

Class Entry (T : Type) : Type := {
  disk_size : N;                   (* T::disk_size *)
  entry_write : T → list byte;     (* entry.write(p): the bytes stored at p *)
  entry_read : list byte → T;      (* entry.read(p): decodes the bytes at p *)
}.

Class KeyFn (T : Type) : Type := key : T → N.   (* Key{}(entry) *)

(** [std::sort(first, last, comp)]: the library fixes the result only up
    to the order of equivalent elements. *)
Class StdSort (T : Type) : Type := std_sort : (T → T → bool) → list T → list T.

(** [std::vector<T>] with its allocator: [vector_max_size] is
    [max_size()], a constant of the library and of [sizeof(T)], and
    [allocator_grants n] says whether the allocator obtains storage for
    [n] records.  How much the allocator grants is a given of the
    environment; the small allocations of the containers themselves (the
    nodes of the maps, a block that grows beyond what it reserved) are
    taken to succeed. *)
Class Vector (T : Type) : Type := {
  vector_max_size : N;
  allocator_grants : N → bool;
}.

(** [v.reserve(n)] on a vector of capacity zero, for [n] above zero. *)
Definition vector_reserve {S} (T : Type) `{Vector T} (n : N) : io S () :=
  if bool_decide (vector_max_size < n) then throw (length_error "vector::reserve")
  else if allocator_grants n then io_ret ()
  else throw bad_alloc.

(** Modelled from the spec: [output_t], declared in [chia/DiskSort.h], is
    "a sorted sub-block plus two boolean markers, [is_begin] / [is_end]". *)
Record output_t (T : Type) : Type := {
  is_begin : bool;
  is_end : bool;
  block : list T;
}.
Arguments is_begin {T} _.
Arguments is_end {T} _.
Arguments block {T} _.

(** The ordered map [std::map<size_t, V>]: its entries in key order. *)
Fixpoint map_emplace {V} (k : N) (v : V) (m : list (N * V)) : list (N * V) :=
  match m with
  | [] => [(k, v)]
  | (k', v') :: m' =>
      if bool_decide (k < k') then (k, v) :: m
      else if bool_decide (k = k') then m
      else (k', v') :: map_emplace k v m'
  end.

(** Number of records that [read_bucket] reads at a time (the constant
    [N] of the source). *)
Definition chunk_N : N := 65536.

Section DiskSort.

Context {T : Type} `{Entry T} `{KeyFn T} `{StdSort T} `{Vector T}.

(** [sizeof(bucket.buffer)], a constant of the class declaration. *)
Variable buffer_capacity : N.

(** *** Construction *)

Definition bucket_file_name (file_prefix : string) (i : N) : string :=
  file_prefix +:+ ".sort_bucket_" +:+ pretty i +:+ ".tmp".

(** The constructor's loop over the buckets.  A fresh bucket has a fill
    offset and a record count of zero; the contents of its buffer are
    indeterminate and never read before they are written. *)
Fixpoint open_buckets (count : nat) (i : N) (file_prefix : string)
    : io filesystem (list bucket_t) :=
  match count with
  | O => io_ret []
  | S count' =>
      let name := bucket_file_name file_prefix i in
      f <- fopen_wb name ;;
      match f with
      | None => throw (runtime_error "fopen() failed")
      | Some _ =>
          rest <- open_buckets count' (i + 1) file_prefix ;;
          io_ret ({| file := f; file_name := name; offset := 0; num_entries := 0;
                     buffer := replicate (N.to_nat buffer_capacity) x00 |} :: rest)
      end
  end.

Definition DiskSort_new (key_size log_num_buckets num_threads : Z) (file_prefix : string)
    : io filesystem DiskSort :=
  size <- int_shift_left 1 log_num_buckets ;;
  bs <- open_buckets (Z.to_nat size) 0 file_prefix ;;
  io_ret {| key_size := key_size; log_num_buckets := log_num_buckets;
            num_threads := num_threads; buckets := bs; is_finished := false |}.

(** *** Ingestion *)

(** [bucket_t::flush] on [buckets[index]]. *)
Definition flush (index : N) : io world () :=
  bucket <- bucket_at index ;;
  match file bucket with
  | None => throw (undefined_behaviour "fwrite(nullptr)")
  | Some f =>
      n <- on_fs (fwrite (take (N.to_nat (offset bucket)) (buffer bucket)) f) ;;
      if bool_decide (n ≠ offset bucket) then throw (runtime_error "fwrite() failed")
      else set_bucket index {| file := file bucket; file_name := file_name bucket;
                               offset := 0; num_entries := num_entries bucket;
                               buffer := buffer bucket |}
  end.

Definition add (entry : T) : io world () :=
  w <- get_state ;;
  if is_finished (this w) then throw (logic_error "read only") else
  k <- shift_right (key entry) (key_size (this w) - log_num_buckets (this w)) ;;
  let index := size_t k in
  if bool_decide (N.of_nat (length (buckets (this w))) ≤ index)
  then throw (logic_error "index out of range") else
  bucket <- bucket_at index ;;
  (if bool_decide (N.of_nat (length (buffer bucket)) < size_t (offset bucket + disk_size))
   then flush index else io_ret ()) ;;;
  bucket <- bucket_at index ;;
  let data := entry_write entry in
  if bool_decide (N.of_nat (length (buffer bucket)) < offset bucket + N.of_nat (length data))
  then throw (undefined_behaviour "write past the end of the buffer") else
  set_bucket index {| file := file bucket; file_name := file_name bucket;
                      offset := size_t (offset bucket + N.of_nat (length data));
                      num_entries := size_t (num_entries bucket + 1);
                      buffer := list_inserts (N.to_nat (offset bucket)) data (buffer bucket) |}.

(** A caller that ingests a sequence of records, one [add] each. *)
Fixpoint add_all (entries : list T) : io world () :=
  match entries with
  | [] => io_ret ()
  | entry :: rest => add entry ;;; add_all rest
  end.

(** *** Lifecycle *)

Definition finish : io world () :=
  for_buckets (λ i, flush i) ;;;     (* fflush(bucket.file): nothing is pending, and
                                        the source discards its result *)
  set_finished true.

Definition clear : io world () :=
  for_buckets (λ i,
    bucket <- bucket_at i ;;
    fclose (file bucket) ;;;
    set_bucket i {| file := None; file_name := file_name bucket;
                    offset := offset bucket; num_entries := num_entries bucket;
                    buffer := buffer bucket |} ;;;
    _ <- on_fs (remove (file_name bucket)) ;;
    io_ret ()).

(** *** Emission *)

(** [table[p].push_back(entry)] on the [std::unordered_map]. *)
Definition table_push (p : N) (entry : T) (table : gmap N (list T)) : gmap N (list T) :=
  <[p := table !!! p ++ [entry]]> table.

(** The loop over the records of one chunk that sits in [buf]; [k] stays
    below [chunk_N].  [table[p]] is an empty block when the table has
    none for [p], and a block that is empty reserves room for [M]
    records before the first is pushed. *)
Fixpoint group_chunk (count : nat) (k : N) (M : N) (buf : list byte)
    (table : gmap N (list T)) : io world (gmap N (list T)) :=
  match count with
  | O => io_ret table
  | S count' =>
      let entry := entry_read (take (N.to_nat disk_size) (drop (N.to_nat (k * disk_size)) buf)) in
      let p := size_t (key entry `div` M) in
      (match table !!! p with
       | [] => vector_reserve T M
       | _ :: _ => io_ret ()
       end) ;;;
      group_chunk count' (k + 1) M buf (table_push p entry table)
  end.

(** The chunk loop of [read_bucket], from record [i] of [num]; [i + n]
    never exceeds [num], so the addition does not wrap. *)
Equations read_chunks (index M num i : N) (table : gmap N (list T))
    : io world (gmap N (list T)) by wf (N.to_nat (num - i)) lt :=
  read_chunks index M num i table with decide (i < num) := {
    | right _ => io_ret table
    | left _ =>
        let n := N.min chunk_N (num - i) in
        bucket <- bucket_at index ;;
        match file bucket with
        | None => throw (undefined_behaviour "fread(nullptr)")
        | Some f =>
            r <- on_fs (fread disk_size n f) ;;
            set_bucket index {| file := Some r.2; file_name := file_name bucket;
                                offset := offset bucket; num_entries := num_entries bucket;
                                buffer := buffer bucket |} ;;;
            if bool_decide (r.1.2 ≠ n) then throw (runtime_error "fread() failed") else
            if bool_decide (M = 0) then throw (undefined_behaviour "division by zero") else
            table' <- group_chunk (N.to_nat n) 0 M r.1.1 table ;;
            read_chunks index M num (i + n) table'
        end }.
Next Obligation. unfold chunk_N. lia. Qed.

(** [read_bucket(index, out, M)]: the pool hands in an empty [out]; the
    result is what [out] holds at the end. *)
Definition read_bucket (index M : N) : io world (list (list T)) :=
  bucket <- bucket_at index ;;
  (match file bucket with
   | Some _ => fclose (file bucket)
   | None => io_ret ()
   end) ;;;
  f <- on_fs (fopen_rb (file_name bucket)) ;;
  set_bucket index {| file := f; file_name := file_name bucket;
                      offset := offset bucket; num_entries := num_entries bucket;
                      buffer := buffer bucket |} ;;;
  match f with
  | None => throw (runtime_error "fopen() failed")
  | Some _ =>
      table <- read_chunks index M (num_entries bucket) 0 ∅ ;;
      let sorted := foldl (λ m e, map_emplace e.1 e.2 m) [] (map_to_list table) in
      io_ret (sorted.*2)
  end.

Definition sort_block (input : output_t T) : output_t T :=
  {| is_begin := is_begin input; is_end := is_end input;
     block := std_sort (λ lhs rhs, bool_decide (key lhs < key rhs)) (block input) |}.

(** Modelled from the spec: the worker-pool primitive ([ThreadPool],
    [Thread]) is declared elsewhere.  It "supports submit work item,
    worker computes result, forward result to next stage preserving
    submission order": what reaches the next stage is the results of the
    submitted items, in the order of submission. *)
Definition pool_take {A B} (work : A → B) (item : A) (forwarded : list B) : list B :=
  forwarded ++ [work item].

(** The loop of [sort_bucket] from position [i], over the blocks that are
    left; [forwarded] is what the consumer has received so far. *)
Fixpoint sort_bucket_loop (size i : N) (rest : list (list T))
    (forwarded : list (output_t T)) : list (output_t T) :=
  match rest with
  | [] => forwarded
  | blk :: rest' =>
      let out := {| is_begin := bool_decide (i = 0);
                    is_end := bool_decide (size_t (i + 1) = size);
                    block := blk |} in
      sort_bucket_loop size (size_t (i + 1)) rest' (pool_take sort_block out forwarded)
  end.

Definition sort_bucket (input : list (list T)) (forwarded : list (output_t T))
    : list (output_t T) :=
  sort_bucket_loop (N.of_nat (length input)) 0 input forwarded.

(** Modelled from the spec: a pool with a downstream stage ([read_pool]
    in front of [sort_thread]) "submits every bucket index (0 through
    last) in ascending order to that single forwarding worker": the
    submitted item is worked on, and its result is what the next stage
    receives next.  The work on different buckets touches different
    buckets only, so one item at a time stands for every schedule. *)
Definition pool_take_copy {A B C} (work : A → io world B) (next : B → C → C)
    (item : A) (forwarded : C) : io world C :=
  out <- work item ;; io_ret (next out forwarded).

(** The loop of [read]: bucket [i] is read and grouped, then handed to
    [sort_bucket], which forwards to the consumer. *)
Fixpoint read_loop (count : nat) (i : N) (M : N) (forwarded : list (output_t T))
    : io world (list (output_t T)) :=
  match count with
  | O => io_ret forwarded
  | S count' =>
      forwarded' <- pool_take_copy (λ index, read_bucket index M) sort_bucket i forwarded ;;
      read_loop count' (i + 1) M forwarded'
  end.

(** [read(output, M)]: returns what the consumer [output] has received. *)
Definition read (M : N) : io world (list (output_t T)) :=
  w <- get_state ;;
  read_loop (length (buckets (this w))) 0 M [].

End DiskSort.

(** ** A concrete instance: one-byte records keyed by their value *)

Module ByteEntry.

#[global] Instance byte_entry : Entry byte :=
  {| disk_size := 1;
     entry_write := λ b, [b];
     entry_read := λ l, default x00 (head l) |}.

#[global] Instance byte_key : KeyFn byte := Byte.to_N.

(** Records of one byte in memory, and an allocator that grants up to
    [2^30] of them at a time. *)
#[global] Instance byte_vector : Vector byte :=
  {| vector_max_size := 2 ^ 63 - 1;
     allocator_grants := λ n, bool_decide (n ≤ 2 ^ 30) |}.

(** One admissible [std::sort]: a merge sort by "not greater". *)
#[global] Instance byte_sort : StdSort byte :=
  λ comp, @merge_sort _ (λ a b, comp b a = false) (λ a b, decide (comp b a = false)).

Definition of_keys (ks : list N) : list byte :=
  (λ k, default x00 (Byte.of_N k)) <$> ks.

Definition empty_fs (free : N) : filesystem := {| disk := ∅; free_space := free |}.

(** The engine that the constructor returns, with its file system. *)
Definition start (cap : N) (key_size log_num_buckets : Z) (fs0 : filesystem) : world :=
  match DiskSort_new cap key_size log_num_buckets 1 "plot" fs0 with
  | Returns d fs1 => {| this := d; fs := fs1 |}
  | Throws _ fs1 =>
      {| this := {| key_size := key_size; log_num_buckets := log_num_buckets;
                    num_threads := 1; buckets := []; is_finished := false |};
         fs := fs1 |}
  end.

(** The state that a computation leaves behind. *)
Definition after {A} (m : io world A) (w : world) : world :=
  match m w with
  | Returns _ w' => w'
  | Throws _ w' => w'
  end.

(** The value that a computation returns, [dflt] when it throws. *)
Definition value {A} (dflt : A) (m : io world A) (w : world) : A :=
  match m w with
  | Returns a _ => a
  | Throws _ _ => dflt
  end.

(** Four buckets over 8-bit keys, buffers of four bytes: bucket 0
    receives six records and flushes once before [finish]. *)
Definition demo_entries : list byte := of_keys [5; 130; 200; 6; 199; 1; 2; 3; 4].
Definition demo_new : world := start 4 8 2 (empty_fs 1000).
Definition demo_ingested : world := after (add_all demo_entries) demo_new.
Definition demo_finished : world := after finish demo_ingested.
Definition demo_read : world := after (read 64) demo_finished.
Definition demo_cleared : world := after clear demo_finished.

(** The same run stopped before the record that overflows the buffer
    of bucket 0. *)
Definition demo_full : world :=
  after (add_all (of_keys [5; 130; 200; 6; 199; 1; 2])) demo_new.

(** Two buckets over keys declared 7 bits wide, finished at once: the
    key 255 is too wide for it. *)
Definition narrow_finished : world := after finish (start 4 7 1 (empty_fs 1000)).

End ByteEntry.

(** ** Vocabulary of the specification *)

(** Largest size of an object, hence of [sizeof(bucket.buffer)]. *)
Definition PTRDIFF_MAX : N := 2 ^ 63 - 1.

(** What the class expects of its record type: a positive fixed size,
    [write] producing exactly [disk_size] bytes, and [read] decoding what
    [write] encoded. *)
Class EntryLaws (T : Type) `{Entry T} : Prop := {
  disk_size_pos : 0 < disk_size;
  write_length (e : T) : N.of_nat (length (entry_write e)) = disk_size;
  read_write (e : T) : entry_read (entry_write e) = e;
}.

(** The key is a 64-bit unsigned value. *)
Class KeyLaws (T : Type) `{KeyFn T} : Prop :=
  key_fits : ∀ e : T, key e ≤ SIZE_MAX.

(** The comparators [std::sort] accepts. *)
Record StrictWeakOrder {T} (comp : T → T → bool) : Prop := {
  swo_irrefl a : comp a a = false;
  swo_trans a b c : comp a b = true → comp b c = true → comp a c = true;
  swo_cotrans a b c : comp a c = true → comp a b = true ∨ comp b c = true;
}.

(** The contract of [std::sort]: the result is a rearrangement of the
    input in which no element is less than one before it. *)
Class StdSortLaws (T : Type) `{StdSort T} : Prop := {
  std_sort_perm comp (l : list T) : std_sort comp l ≡ₚ l;
  std_sort_sorted comp (l : list T) :
    StrictWeakOrder comp → StronglySorted (λ a b, comp b a = false) (std_sort comp l);
}.

Section Specification.

Context {T : Type} `{Entry T} `{KeyFn T}.

(** The bucket index that [add] computes for a record. *)
Definition bucket_index (key_size log_num_buckets : Z) (entry : T) : N :=
  size_t (N.shiftr (key entry) (Z.to_N (key_size - log_num_buckets))).

(** The records of [entries] that belong to bucket [i], in the order of
    ingestion. *)
Definition bucket_entries (d : DiskSort) (i : nat) (entries : list T) : list T :=
  filter (λ e, bucket_index (key_size d) (log_num_buckets d) e = N.of_nat i) entries.

(** A bucket during ingestion: its stream writes to its own file, and
    the file followed by the filled part of the buffer is the encoding of
    the bucket's records. *)
Record bucket_inv (fs : filesystem) (b : bucket_t) (mine : list T) : Prop := {
  inv_stream :
    file b = Some {| stream_path := file_name b; stream_mode := ModeWrite; stream_pos := 0 |};
  inv_content :
    ∃ content, disk fs !! file_name b = Some content
      ∧ content ++ take (N.to_nat (offset b)) (buffer b) = concat (entry_write <$> mine)
      ∧ N.of_nat (length content) ≤ OFF_MAX;
  inv_count : num_entries b = N.of_nat (length mine);
  inv_offset : offset b ≤ N.of_nat (length (buffer b));
  inv_capacity : N.of_nat (length (buffer b)) ≤ PTRDIFF_MAX;
}.

Definition ingest_inv (entries : list T) (w : world) : Prop :=
  NoDup (file_name <$> buckets (this w))
  ∧ ∀ (i : nat) b, buckets (this w) !! i = Some b →
      bucket_inv (fs w) b (bucket_entries (this w) i entries).

(** The fields of the object that ingestion never changes. *)
Definition same_config (w w' : world) : Prop :=
  key_size (this w') = key_size (this w)
  ∧ log_num_buckets (this w') = log_num_buckets (this w)
  ∧ num_threads (this w') = num_threads (this w)
  ∧ length (buckets (this w')) = length (buckets (this w))
  ∧ file_name <$> buckets (this w') = file_name <$> buckets (this w).

(** The state after [buckets[index]], which was [b], has become [b']. *)
Definition update_bucket (w : world) (index : nat) (b' : bucket_t) (fs' : filesystem) : world :=
  {| this := with_buckets (this w) (<[index:=b']> (buckets (this w))); fs := fs' |}.

(** The bucket after a successful [flush]. *)
Definition flushed (b : bucket_t) : bucket_t :=
  {| file := file b; file_name := file_name b; offset := 0;
     num_entries := num_entries b; buffer := buffer b |}.

(** The file system after the filled part of the buffer of [b] has been
    appended to the file of [b], whose content was [content]. *)
Definition flushed_fs (fs : filesystem) (b : bucket_t) (content : list byte) : filesystem :=
  {| disk := <[file_name b := content ++ take (N.to_nat (offset b)) (buffer b)]> (disk fs);
     free_space := free_space fs - offset b |}.

(** The bucket after [entry] has been serialized at the fill offset. *)
Definition stored (b : bucket_t) (entry : T) : bucket_t :=
  {| file := file b; file_name := file_name b;
     offset := offset b + disk_size;
     num_entries := num_entries b + 1;
     buffer := list_inserts (N.to_nat (offset b)) (entry_write entry) (buffer b) |}.

(** The encoding of a sequence of records in a bucket file. *)
Definition encode (recs : list T) : list byte := concat (entry_write <$> recs).

(** A finalized bucket: its file is the encoding of [recs] and its
    counter their number. *)
Definition bucket_holds (fs : filesystem) (b : bucket_t) (recs : list T) : Prop :=
  num_entries b = N.of_nat (length recs)
  ∧ disk fs !! file_name b = Some (encode recs).

Definition set_file (b : bucket_t) (f : option FILE) : bucket_t :=
  {| file := f; file_name := file_name b; offset := offset b;
     num_entries := num_entries b; buffer := buffer b |}.

(** The read stream of bucket [b] after [n] records have been read. *)
Definition read_stream (b : bucket_t) (n : N) : option FILE :=
  Some {| stream_path := file_name b; stream_mode := ModeRead; stream_pos := n * disk_size |}.

(** The coarse partition of a record for the target size [M]. *)
Definition partition_of (M : N) (entry : T) : N := size_t (key entry `div` M).

(** The records that the inner loop of [read_bucket] decodes from the
    chunk in [buf], from record [k] on. *)
Fixpoint chunk_records (count : nat) (k : N) (buf : list byte) : list T :=
  match count with
  | O => []
  | S count' =>
      entry_read (take (N.to_nat disk_size) (drop (N.to_nat (k * disk_size)) buf))
      :: chunk_records count' (k + 1) buf
  end.

(** The table of [read_bucket] after the records [recs]. *)
Definition group_table (M : N) (table : gmap N (list T)) (recs : list T) : gmap N (list T) :=
  foldl (λ t e, table_push (partition_of M e) e t) table recs.

(** The ordered map built from a table. *)
Definition ordered {V} (table : gmap N V) : list (N * V) :=
  foldl (λ m e, map_emplace e.1 e.2 m) [] (map_to_list table).

(** The sub-blocks that [read_bucket] makes of the records [recs]. *)
Definition grouped (M : N) (recs : list T) : list (list T) :=
  (ordered (group_table M ∅ recs)).*2.

(** Two buckets that differ at most in their stream. *)
Definition same_bucket_data (b b' : bucket_t) : Prop :=
  file_name b = file_name b' ∧ offset b = offset b'
  ∧ num_entries b = num_entries b' ∧ buffer b = buffer b'.

(** Two states with the same files and the same object, up to the
    streams of the buckets. *)
Definition same_data (w w' : world) : Prop :=
  fs w = fs w'
  ∧ key_size (this w) = key_size (this w')
  ∧ log_num_buckets (this w) = log_num_buckets (this w')
  ∧ num_threads (this w) = num_threads (this w')
  ∧ is_finished (this w) = is_finished (this w')
  ∧ Forall2 same_bucket_data (buckets (this w)) (buckets (this w')).

(** [same_data], and the very same bucket at [index]. *)
Definition agree (index : N) (w w' : world) : Prop :=
  same_data w w'
  ∧ buckets (this w) !! N.to_nat index = buckets (this w') !! N.to_nat index.

(** Two outcomes with the same result and states related by [R]. *)
Definition outcome_rel {A} (R : world → world → Prop) (o o' : outcome world A) : Prop :=
  match o, o' with
  | Returns a s, Returns a' s' => a = a' ∧ R s s'
  | Throws e s, Throws e' s' => e = e' ∧ R s s'
  | _, _ => False
  end.

Definition final_state {S A} (o : outcome S A) : S :=
  match o with
  | Returns _ s => s
  | Throws _ s => s
  end.

(** The indices [from], [from + 1], ... that a counted loop visits. *)
Fixpoint N_range (from : N) (count : nat) : list N :=
  match count with
  | O => []
  | S count' => from :: N_range (from + 1) count'
  end.

(** The output units that bucket [i] contributes when it is read in the
    state [w]: what [sort_bucket] forwards of the result of
    [read_bucket]. *)
Definition bucket_units `{StdSort T} `{Vector T} (M : N) (w : world) (i : N) : list (output_t T) :=
  match read_bucket i M w with
  | Returns blocks _ => sort_bucket blocks []
  | Throws _ _ => []
  end.

(** Every block of a table holds records of the partition it is filed
    under, and at least one. *)
Definition table_inv (M : N) (table : gmap N (list T)) : Prop :=
  ∀ p blk, table !! p = Some blk → blk ≠ [] ∧ Forall (λ e, partition_of M e = p) blk.

(** The records that the units of a list carry, in order. *)
Definition records_of (outs : list (output_t T)) : list T := concat (block <$> outs).

(** The number of records that the buckets have counted together. *)
Definition total_entries (d : DiskSort) : N :=
  foldr (λ b acc, num_entries b + acc) 0 (buckets d).

(** The number of bytes that wait in the buffers of the buckets. *)
Definition buffered (d : DiskSort) : N :=
  foldr (λ b acc, offset b + acc) 0 (buckets d).

(** The bucket that the constructor makes for index [i]. *)
Definition fresh_bucket (cap : N) (file_prefix : string) (i : N) : bucket_t :=
  {| file := Some {| stream_path := bucket_file_name file_prefix i;
                     stream_mode := ModeWrite; stream_pos := 0 |};
     file_name := bucket_file_name file_prefix i;
     offset := 0; num_entries := 0;
     buffer := replicate (N.to_nat cap) x00 |}.

End Specification.

(** * Properties *)

(** Unfolds the plumbing of [io]. *)
Ltac io_unfold :=
  cbv beta iota zeta delta [io_bind io_ret throw get_state put_state on_fs set_bucket
    set_buckets set_finished bucket_at shift_right fclose] in *.

Section Lifecycle_facts.

Context {T : Type} `{Entry T} `{KeyFn T}.

Lemma add_read_only (entry : T) (w : world) :
  is_finished (this w) = true → add entry w = Throws (logic_error "read only") w.
Proof. intros Hfin. unfold add. io_unfold. by rewrite Hfin. Qed.

Lemma finish_is_finished (w w' : world) :
  finish w = Returns () w' → is_finished (this w') = true.
Proof.
  unfold finish, io_bind. destruct (for_buckets _ w) as [[] w1|e w1]; [|done].
  unfold set_finished. by intros [= <-].
Qed.

(** C6: once [finish] has returned, [add] throws the logic error "read
    only" for every record, and the state at the throw is the state before
    the call: no buffer, record count or file has changed. *)
Theorem add_after_finish (entry : T) (w w' : world) :
  finish w = Returns () w' →
  add entry w' = Throws (logic_error "read only") w'.
Proof. intros Hfin. apply add_read_only. by eapply finish_is_finished. Qed.

(** C7, amended: while the engine is not finished, a record whose bucket
    index is outside the range of the buckets makes [add] throw the logic
    error "index out of range", and the state at the throw is the state
    before the call. *)
Theorem add_index_out_of_range (entry : T) (w : world) :
  is_finished (this w) = false →
  (0 ≤ key_size (this w) - log_num_buckets (this w) < 64)%Z →
  N.of_nat (length (buckets (this w)))
    ≤ bucket_index (key_size (this w)) (log_num_buckets (this w)) entry →
  add entry w = Throws (logic_error "index out of range") w.
Proof.
  intros Hfin Hshift Hidx. unfold bucket_index in Hidx. unfold add. io_unfold. rewrite Hfin.
  rewrite bool_decide_true by done. unfold io_ret. by rewrite bool_decide_true.
Qed.

End Lifecycle_facts.

Section Loop_rules.

Context {St : Type}.

(** Partial correctness of a counted loop. *)
Lemma for_range_returns (I : N → St → Prop) count from (body : N → io St ()) s s' :
  for_range count from body s = Returns () s' →
  I from s →
  (∀ i t t', from ≤ i < from + N.of_nat count → I i t → body i t = Returns () t' → I (i + 1) t') →
  I (from + N.of_nat count) s'.
Proof.
  revert from s. induction count as [|count IH]; intros from s Hrun Hinit Hstep; simpl in Hrun.
  - unfold io_ret in Hrun. injection Hrun as <-. by replace (from + N.of_nat 0) with from by lia.
  - unfold io_bind in Hrun. destruct (body from s) as [[] t|e t] eqn:Hbody; [|done].
    replace (from + N.of_nat (S count)) with (from + 1 + N.of_nat count) by lia.
    apply (IH _ t Hrun).
    + apply (Hstep from s t); [lia|done..].
    + intros i u u' Hi. apply Hstep. lia.
Qed.

(** Total correctness of a counted loop. *)
Lemma for_range_total (I : N → St → Prop) count from (body : N → io St ()) s :
  I from s →
  (∀ i t, from ≤ i < from + N.of_nat count → I i t →
     ∃ t', body i t = Returns () t' ∧ I (i + 1) t') →
  ∃ s', for_range count from body s = Returns () s' ∧ I (from + N.of_nat count) s'.
Proof.
  revert from s. induction count as [|count IH]; intros from s Hinit Hstep; simpl.
  - exists s. split; [done|]. by replace (from + N.of_nat 0) with from by lia.
  - destruct (Hstep from s) as (t & Hbody & Ht); [lia|done|].
    unfold io_bind. rewrite Hbody.
    replace (from + N.of_nat (S count)) with (from + 1 + N.of_nat count) by lia.
    apply IH; [done|]. intros i u Hi. apply Hstep. lia.
Qed.

End Loop_rules.

(** ** Ingestion *)

Lemma size_t_small (x : N) : x ≤ SIZE_MAX → size_t x = x.
Proof. unfold SIZE_MAX, size_t. intros ?. apply N.mod_small. lia. Qed.

Lemma take_list_inserts {A} (off : nat) (data buf : list A) :
  (off + length data ≤ length buf)%nat →
  take (off + length data) (list_inserts off data buf) = take off buf ++ data.
Proof.
  intros Hlen.
  rewrite <-(take_drop off buf) at 1.
  rewrite <-(take_drop (length data) (drop off buf)).
  assert (length (take off buf) = off) as Hoff by (rewrite length_take; lia).
  assert (length (take (length data) (drop off buf)) = length data) as Hdata
    by (rewrite length_take, length_drop; lia).
  rewrite <-(Nat.add_0_r off) at 2. rewrite <-Hoff at 2.
  rewrite list_inserts_app_r, list_inserts_0_r by done.
  rewrite take_app_add' by done. by rewrite take_app_length.
Qed.

Section Ingestion_facts.

Context {T : Type} `{Entry T} `{KeyFn T} `{!EntryLaws T}.

Lemma encoding_length (l : list T) :
  N.of_nat (length (concat (entry_write <$> l))) = N.of_nat (length l) * disk_size.
Proof.
  induction l as [|e l IH]; [done|].
  rewrite fmap_cons. cbn [concat length].
  rewrite length_app. pose proof (write_length e). lia.
Qed.

Lemma bucket_entries_snoc_eq (d : DiskSort) (i : nat) (entries : list T) (e : T) :
  bucket_index (key_size d) (log_num_buckets d) e = N.of_nat i →
  bucket_entries d i (entries ++ [e]) = bucket_entries d i entries ++ [e].
Proof.
  intros Hi. unfold bucket_entries. rewrite filter_app. f_equal.
  rewrite filter_cons_True by done. done.
Qed.

Lemma bucket_entries_snoc_ne (d : DiskSort) (i : nat) (entries : list T) (e : T) :
  bucket_index (key_size d) (log_num_buckets d) e ≠ N.of_nat i →
  bucket_entries d i (entries ++ [e]) = bucket_entries d i entries.
Proof.
  intros Hi. unfold bucket_entries. rewrite filter_app.
  rewrite filter_cons_False by done. by rewrite filter_nil, app_nil_r.
Qed.

(** The number of records of a bucket is bounded by the bytes that hold
    them, so the counter cannot wrap. *)
Lemma bucket_inv_count_bound (fs : filesystem) (b : bucket_t) (mine : list T) :
  bucket_inv fs b mine → num_entries b + 1 ≤ SIZE_MAX.
Proof.
  intros [_ (content & _ & Henc & Hlen) Hcount Hoff Hcap].
  apply (f_equal (λ l, N.of_nat (length l))) in Henc.
  rewrite length_app, length_take, encoding_length in Henc.
  pose proof disk_size_pos.
  assert (N.of_nat (length mine) ≤ N.of_nat (length mine) * disk_size) by nia.
  unfold OFF_MAX, PTRDIFF_MAX, SIZE_MAX in *. lia.
Qed.

Lemma bucket_inv_frame (fs fs' : filesystem) (b : bucket_t) (mine : list T) :
  disk fs' !! file_name b = disk fs !! file_name b →
  bucket_inv fs b mine → bucket_inv fs' b mine.
Proof. intros Hsame [? ? ? ? ?]. split; try done. by rewrite Hsame. Qed.

Lemma names_insert (l : list bucket_t) (i : nat) (b b' : bucket_t) :
  l !! i = Some b → file_name b' = file_name b →
  file_name <$> <[i:=b']> l = file_name <$> l.
Proof.
  intros Hb Hname. rewrite list_fmap_insert, Hname.
  apply list_insert_id. by rewrite list_lookup_fmap, Hb.
Qed.

Lemma distinct_names (l : list bucket_t) (i j : nat) (b b' : bucket_t) :
  NoDup (file_name <$> l) → l !! i = Some b → l !! j = Some b' →
  file_name b = file_name b' → i = j.
Proof.
  intros Hnodup Hi Hj Hname.
  apply (NoDup_lookup _ i j (file_name b) Hnodup); rewrite list_lookup_fmap.
  - by rewrite Hi.
  - by rewrite Hj, Hname.
Qed.

(** Replacing one bucket, and touching only its file, keeps the invariant
    as long as that bucket satisfies its own. *)
Lemma ingest_inv_update (entries entries' : list T) (index : nat) (b b' : bucket_t)
    (w : world) (fs' : filesystem) :
  ingest_inv entries w →
  buckets (this w) !! index = Some b →
  file_name b' = file_name b →
  (∀ name, name ≠ file_name b → disk fs' !! name = disk (fs w) !! name) →
  bucket_inv fs' b' (bucket_entries (this w) index entries') →
  (∀ j, j ≠ index → bucket_entries (this w) j entries' = bucket_entries (this w) j entries) →
  ingest_inv entries' {| this := with_buckets (this w) (<[index:=b']> (buckets (this w)));
                         fs := fs' |}.
Proof.
  intros [Hnodup Hinv] Hb Hname Hdisk Hmine Hothers. split; simpl.
  - by rewrite (names_insert _ _ b).
  - intros j bj Hj. unfold bucket_entries in *. simpl.
    destruct (decide (j = index)) as [->|Hne].
    + rewrite list_lookup_insert_eq in Hj by (by eapply lookup_lt_Some).
      by injection Hj as <-.
    + rewrite list_lookup_insert_ne in Hj by done.
      rewrite Hothers by done. eapply bucket_inv_frame; [|by apply Hinv].
      apply Hdisk. intros Heq. apply Hne.
      by eapply (distinct_names _ _ _ bj b).
Qed.

Lemma same_config_update (index : nat) (b b' : bucket_t) (w : world) (fs' : filesystem) :
  buckets (this w) !! index = Some b → file_name b' = file_name b →
  same_config w {| this := with_buckets (this w) (<[index:=b']> (buckets (this w)));
                   fs := fs' |}.
Proof.
  intros Hb Hname. unfold same_config. simpl.
  rewrite length_insert. by rewrite (names_insert _ _ b).
Qed.

Lemma same_config_refl (w : world) : same_config w w.
Proof. by unfold same_config. Qed.

Lemma same_config_trans (w1 w2 w3 : world) :
  same_config w1 w2 → same_config w2 w3 → same_config w1 w3.
Proof. unfold same_config. intros (?&?&?&?&?) (?&?&?&?&?). repeat split; congruence. Qed.

Lemma flush_exact (entries : list T) (index : N) (w w' : world) :
  ingest_inv entries w →
  flush index w = Returns () w' →
  ∃ b content,
    buckets (this w) !! N.to_nat index = Some b
    ∧ disk (fs w) !! file_name b = Some content
    ∧ N.of_nat (length content) + offset b ≤ OFF_MAX
    ∧ w' = update_bucket w (N.to_nat index) (flushed b) (flushed_fs (fs w) b content).
Proof.
  intros [Hnodup Hinv]. unfold flush. io_unfold.
  destruct (buckets (this w) !! N.to_nat index) as [b|] eqn:Hb; [|done].
  destruct (Hinv _ _ Hb) as [Hstream (content & Hdisk & Henc & Hlen) Hcount Hoff Hcap].
  rewrite Hstream. unfold fwrite. simpl. rewrite Hdisk.
  case_bool_decide as Hn; [done|]. intros [= <-]. simpl.
  assert (length (take (N.to_nat (offset b)) (buffer b)) = N.to_nat (offset b)) as Hdata
    by (rewrite length_take; lia).
  exists b, content. split; [done|]. split; [done|].
  rewrite Hn. rewrite Hdata in Hn. split; [lia|].
  rewrite <-Hdata at 1. rewrite firstn_all.
  unfold update_bucket, flushed, flushed_fs. by rewrite Hstream.
Qed.

Lemma flush_inv (entries : list T) (index : N) (w w' : world) :
  ingest_inv entries w →
  flush index w = Returns () w' →
  ingest_inv entries w' ∧ same_config w w'
  ∧ is_finished (this w') = is_finished (this w)
  ∧ (∃ b, buckets (this w') !! N.to_nat index = Some b ∧ offset b = 0)
  ∧ (∀ j, j ≠ N.to_nat index → buckets (this w') !! j = buckets (this w) !! j).
Proof.
  intros [Hnodup Hinv]. unfold flush. io_unfold.
  destruct (buckets (this w) !! N.to_nat index) as [b|] eqn:Hb; [|done].
  destruct (Hinv _ _ Hb) as [Hstream (content & Hdisk & Henc & Hlen) Hcount Hoff Hcap].
  rewrite Hstream. unfold fwrite. simpl. rewrite Hdisk.
  case_bool_decide as Hn; [done|]. intros [= <-]. simpl.
  assert (length (take (N.to_nat (offset b)) (buffer b)) = N.to_nat (offset b)) as Hdata
    by (rewrite length_take; lia).
  rewrite Hn. rewrite Hdata in Hn. rewrite <-Hdata at 1. rewrite firstn_all.
  split; [|split; [|split; [|split]]].
  - apply (ingest_inv_update entries entries (N.to_nat index) b); try done.
    + simpl. intros name Hname. by rewrite lookup_insert_ne.
    + split; simpl; try done; [|lia].
      exists (content ++ take (N.to_nat (offset b)) (buffer b)).
      rewrite lookup_insert_eq, take_0, app_nil_r, length_app.
      split; [done|]. split; [done|]. lia.
  - by apply (same_config_update _ b).
  - done.
  - eexists. simpl. rewrite list_lookup_insert_eq by (by eapply lookup_lt_Some). done.
  - intros j Hj. simpl. by rewrite list_lookup_insert_ne.
Qed.

(** The second half of [add]: the record goes into the buffer of its
    bucket. *)
Lemma add_store_inv (entries : list T) (entry : T) (index : N) (w w' : world) :
  ingest_inv entries w →
  index = bucket_index (key_size (this w)) (log_num_buckets (this w)) entry →
  (bucket <- bucket_at index ;;
   let data := entry_write entry in
   if bool_decide (N.of_nat (length (buffer bucket)) < offset bucket + N.of_nat (length data))
   then throw (undefined_behaviour "write past the end of the buffer") else
   set_bucket index {| file := file bucket; file_name := file_name bucket;
                       offset := size_t (offset bucket + N.of_nat (length data));
                       num_entries := size_t (num_entries bucket + 1);
                       buffer := list_inserts (N.to_nat (offset bucket)) data (buffer bucket) |})
    w = Returns () w' →
  ingest_inv (entries ++ [entry]) w' ∧ same_config w w'
  ∧ is_finished (this w') = is_finished (this w).
Proof.
  intros Hinv Hindex. io_unfold.
  destruct (buckets (this w) !! N.to_nat index) as [b|] eqn:Hb; [|done].
  case_bool_decide as Hfit; [done|]. intros [= <-].
  destruct (proj2 Hinv _ _ Hb) as [Hstream (content & Hdisk & Henc & Hlen) Hcount Hoff Hcap].
  pose proof (bucket_inv_count_bound _ _ _ (proj2 Hinv _ _ Hb)) as Hbound.
  rewrite !size_t_small by (unfold PTRDIFF_MAX, SIZE_MAX in *; lia).
  split; [|split; [|done]].
  - apply (ingest_inv_update entries _ (N.to_nat index) b); try done.
    + rewrite bucket_entries_snoc_eq by lia. split; simpl; try done.
      * exists content. split; [done|]. split; [|done].
        rewrite fmap_app, concat_app. simpl. rewrite app_nil_r, <-Henc, <-(assoc_L (++)).
        f_equal. rewrite N2Nat.inj_add, Nat2N.id. apply take_list_inserts. lia.
      * rewrite Hcount, length_app. simpl. lia.
      * rewrite length_inserts. lia.
      * by rewrite length_inserts.
    + intros j Hj. apply bucket_entries_snoc_ne. lia.
  - by apply (same_config_update _ b).
Qed.

Lemma add_inv (entries : list T) (entry : T) (w w' : world) :
  ingest_inv entries w →
  add entry w = Returns () w' →
  ingest_inv (entries ++ [entry]) w' ∧ same_config w w'
  ∧ is_finished (this w') = is_finished (this w).
Proof.
  intros Hinv. unfold add.
  cbv beta iota zeta delta [io_bind get_state throw shift_right io_ret].
  destruct (is_finished (this w)) eqn:Hfin0; [done|].
  case_bool_decide as Hshift; [|done].
  case_bool_decide as Hrange; [done|].
  destruct (bucket_at _ w) as [b w0|] eqn:Hb; [|done].
  assert (w0 = w) as ->.
  { revert Hb. io_unfold. by destruct (_ !! _); intros [= ]. }
  case_bool_decide as Hflush.
  - destruct (flush _ w) as [[] w1|] eqn:Hfl; [|done].
    destruct (flush_inv _ _ _ _ Hinv Hfl) as (Hinv1 & Hcfg & Hfin & _).
    intros Hstore. apply (add_store_inv entries) in Hstore as (? & ? & ?); [|done|].
    + split; [done|]. split; [by eapply same_config_trans|congruence].
    + destruct Hcfg as (-> & -> & _). done.
  - intros Hstore. apply (add_store_inv entries) in Hstore as (? & ? & ?); [|done..].
    split; [done|]. split; [done|congruence].
Qed.

Lemma add_store_exact (entries : list T) (entry : T) (index : N) (w w' : world) :
  ingest_inv entries w →
  (bucket <- bucket_at index ;;
   let data := entry_write entry in
   if bool_decide (N.of_nat (length (buffer bucket)) < offset bucket + N.of_nat (length data))
   then throw (undefined_behaviour "write past the end of the buffer") else
   set_bucket index {| file := file bucket; file_name := file_name bucket;
                       offset := size_t (offset bucket + N.of_nat (length data));
                       num_entries := size_t (num_entries bucket + 1);
                       buffer := list_inserts (N.to_nat (offset bucket)) data (buffer bucket) |})
    w = Returns () w' →
  ∃ b, buckets (this w) !! N.to_nat index = Some b
    ∧ offset b + disk_size ≤ N.of_nat (length (buffer b))
    ∧ w' = update_bucket w (N.to_nat index) (stored b entry) (fs w).
Proof.
  intros Hinv. io_unfold.
  destruct (buckets (this w) !! N.to_nat index) as [b|] eqn:Hb; [|done].
  case_bool_decide as Hfit; [done|]. intros [= <-].
  destruct (proj2 Hinv _ _ Hb) as [_ _ _ Hoff Hcap].
  pose proof (bucket_inv_count_bound _ _ _ (proj2 Hinv _ _ Hb)) as Hbound.
  rewrite !size_t_small by (unfold PTRDIFF_MAX, SIZE_MAX in *; lia).
  rewrite write_length in *.
  exists b. split; [done|]. split; [lia|]. done.
Qed.

(** What a successful [add] does, exactly. *)
Lemma add_exact (entries : list T) (entry : T) (w w' : world) :
  ingest_inv entries w →
  add entry w = Returns () w' →
  ∃ (index : nat) b content,
    N.of_nat index = bucket_index (key_size (this w)) (log_num_buckets (this w)) entry
    ∧ buckets (this w) !! index = Some b
    ∧ disk (fs w) !! file_name b = Some content
    ∧ if decide (offset b + disk_size ≤ N.of_nat (length (buffer b)))
      then w' = update_bucket w index (stored b entry) (fs w)
      else disk_size ≤ N.of_nat (length (buffer b))
           ∧ N.of_nat (length content) + offset b ≤ OFF_MAX
           ∧ w' = update_bucket w index (stored (flushed b) entry)
                    (flushed_fs (fs w) b content).
Proof.
  intros Hinv. unfold add.
  cbv beta iota zeta delta [io_bind get_state throw shift_right io_ret].
  destruct (is_finished (this w)) eqn:Hfin0; [done|].
  case_bool_decide as Hshift; [|done].
  case_bool_decide as Hrange; [done|].
  destruct (bucket_at _ w) as [b w0|] eqn:Hb; [|done].
  assert (w0 = w ∧ buckets (this w) !! N.to_nat
            (bucket_index (key_size (this w)) (log_num_buckets (this w)) entry) = Some b)
    as [-> Hb'].
  { revert Hb. io_unfold. unfold bucket_index. by destruct (_ !! _); intros [= -> ->]. }
  destruct (proj2 Hinv _ _ Hb') as [_ (content & Hdisk & _ & _) _ Hoff Hcap].
  intros Hrun.
  exists (N.to_nat (bucket_index (key_size (this w)) (log_num_buckets (this w)) entry)), b, content.
  split; [lia|]. split; [done|]. split; [done|].
  revert Hrun. case_bool_decide as Hflush.
  - destruct (flush _ w) as [[] w1|] eqn:Hfl; [|done].
    destruct (flush_inv _ _ _ _ Hinv Hfl) as (Hinv1 & _).
    destruct (flush_exact _ _ _ _ Hinv Hfl) as (b0 & content0 & Hb0 & Hdisk0 & Hroom & ->).
    fold (bucket_index (key_size (this w)) (log_num_buckets (this w)) entry) in Hb0.
    assert (b0 = b) as -> by congruence. assert (content0 = content) as -> by congruence.
    intros Hstore. apply (add_store_exact entries) in Hstore as (b1 & Hb1 & Hfit & ->); [|done].
    simpl in Hb1. rewrite list_lookup_insert_eq in Hb1 by (by eapply lookup_lt_Some).
    injection Hb1 as <-. simpl in Hfit.
    rewrite size_t_small in Hflush by (unfold PTRDIFF_MAX, SIZE_MAX in *; lia).
    rewrite decide_False by lia. split; [lia|]. split; [done|].
    unfold update_bucket. simpl. by rewrite list_insert_insert_eq.
  - intros Hstore. apply (add_store_exact entries) in Hstore as (b1 & Hb1 & Hfit & ->); [|done].
    fold (bucket_index (key_size (this w)) (log_num_buckets (this w)) entry) in Hb1.
    assert (b1 = b) as -> by congruence. by rewrite decide_True.
Qed.

Lemma add_all_inv (entries pre : list T) (w w' : world) :
  ingest_inv pre w →
  add_all entries w = Returns () w' →
  ingest_inv (pre ++ entries) w' ∧ same_config w w'
  ∧ is_finished (this w') = is_finished (this w).
Proof.
  revert pre w. induction entries as [|e entries IH]; intros pre w Hinv; simpl.
  - intros [= <-]. rewrite app_nil_r. by split; [|split; [apply same_config_refl|]].
  - unfold io_bind. destruct (add e w) as [[] w1|] eqn:Hadd; [|done].
    destruct (add_inv _ _ _ _ Hinv Hadd) as (Hinv1 & Hcfg1 & Hfin1).
    intros Hrest. destruct (IH _ _ Hinv1 Hrest) as (Hinv' & Hcfg' & Hfin').
    rewrite <-(assoc_L (++)) in Hinv'. split; [done|].
    split; [by eapply same_config_trans|congruence].
Qed.

Lemma finish_inv (entries : list T) (w w' : world) :
  ingest_inv entries w →
  finish w = Returns () w' →
  ingest_inv entries w' ∧ same_config w w' ∧ is_finished (this w') = true
  ∧ Forall (λ b, offset b = 0) (buckets (this w')).
Proof.
  intros Hinv. unfold finish, for_buckets.
  cbv beta iota zeta delta [io_bind get_state set_finished].
  destruct (for_range _ _ _ w) as [[] w1|] eqn:Hloop; [|done]. intros [= <-].
  apply (for_range_returns (λ i s,
    ingest_inv entries s ∧ same_config w s
    ∧ ∀ j b, N.of_nat j < i → buckets (this s) !! j = Some b → offset b = 0)) in Hloop.
  - destruct Hloop as (Hinv1 & Hcfg1 & Hzero). simpl.
    split; [done|]. split; [done|]. split; [done|].
    apply Forall_lookup. intros j b Hj. apply (Hzero j b); [|done].
    apply lookup_lt_Some in Hj. destruct Hcfg1 as (_ & _ & _ & Hlen & _). lia.
  - split; [done|]. split; [apply same_config_refl|]. intros j b Hj. lia.
  - intros i t t' Hi (Hinvt & Hcfgt & Hzero) Hflush.
    destruct (flush_inv _ _ _ _ Hinvt Hflush) as (Hinv' & Hcfg' & _ & (b0 & Hb0 & Hoff0) & Hothers).
    split; [done|]. split; [by eapply same_config_trans|].
    intros j b Hj Hb. destruct (decide (j = N.to_nat i)) as [->|Hne].
    + congruence.
    + rewrite Hothers in Hb by done. apply (Hzero j b); [lia|done].
Qed.

(** *** The constructor *)

Lemma string_length_app (s1 s2 : string) :
  String.length (s1 +:+ s2) = (String.length s1 + String.length s2)%nat.
Proof. induction s1 as [|a s1 IH]; simpl; [done|]. by rewrite IH. Qed.

Lemma string_app_inv_tail (s1 s2 t : string) : s1 +:+ t = s2 +:+ t → s1 = s2.
Proof.
  revert s2. induction s1 as [|a s1 IH]; intros [|a2 s2] Heq; simpl in Heq.
  - done.
  - apply (f_equal String.length) in Heq. simpl in Heq.
    rewrite !string_length_app in Heq. simpl in Heq. lia.
  - apply (f_equal String.length) in Heq. simpl in Heq.
    rewrite !string_length_app in Heq. simpl in Heq. lia.
  - injection Heq as -> Heq. f_equal. by apply IH.
Qed.

Lemma bucket_file_name_inj (file_prefix : string) (i j : N) :
  bucket_file_name file_prefix i = bucket_file_name file_prefix j → i = j.
Proof.
  unfold bucket_file_name. intros Heq.
  apply (inj (String.app _)) in Heq. apply (inj (String.app _)) in Heq.
  apply string_app_inv_tail in Heq. by apply (inj pretty).
Qed.

Lemma open_buckets_spec (cap : N) (count : nat) (i : N) (file_prefix : string)
    (fs fs' : filesystem) (bs : list bucket_t) :
  cap ≤ PTRDIFF_MAX →
  open_buckets cap count i file_prefix fs = Returns bs fs' →
  length bs = count
  ∧ (∀ j b, bs !! j = Some b →
       file_name b = bucket_file_name file_prefix (i + N.of_nat j)
       ∧ bucket_inv fs' b (@nil T))
  ∧ (∀ name, (∀ j, j < N.of_nat count → name ≠ bucket_file_name file_prefix (i + j)) →
       disk fs' !! name = disk fs !! name).
Proof.
  intros Hcap. revert i fs fs' bs.
  induction count as [|count IH]; intros i fs fs' bs; simpl.
  - intros [= <- <-]. split; [done|]. split; [|done]. intros j b Hj. by destruct j.
  - cbv beta iota zeta delta [io_bind io_ret fopen_wb].
    destruct (open_buckets _ _ _ _ _) as [rest fs2|] eqn:Hrest; [|done].
    intros [= <- <-]. destruct (IH _ _ _ _ Hrest) as (Hlen & Hbs & Hframe).
    split; [simpl; by rewrite Hlen|]. split.
    + intros [|j] b Hj; simpl in Hj.
      * injection Hj as <-. simpl. split; [f_equal; lia|].
        split; simpl; try done.
        -- exists []. rewrite Hframe; simpl.
           ++ rewrite lookup_insert_eq. split; [done|]. split; [done|]. unfold OFF_MAX. lia.
           ++ intros j Hj Heq. apply bucket_file_name_inj in Heq. lia.
        -- lia.
        -- rewrite length_replicate. lia.
      * destruct (Hbs _ _ Hj) as (Hname & Hinv). split; [|done].
        rewrite Hname. f_equal. lia.
    + intros name Hname. rewrite Hframe; simpl.
      * apply lookup_insert_ne. intros Heq. apply (Hname 0); [lia|].
        rewrite <-Heq. f_equal. lia.
      * intros j Hj. specialize (Hname (1 + j)). rewrite N.add_assoc in Hname.
        apply Hname. lia.
Qed.

Lemma DiskSort_new_inv (cap : N) (ks lg nt : Z) (file_prefix : string)
    (fs0 fs1 : filesystem) (d : DiskSort) :
  cap ≤ PTRDIFF_MAX →
  DiskSort_new cap ks lg nt file_prefix fs0 = Returns d fs1 →
  ingest_inv (@nil T) {| this := d; fs := fs1 |}
  ∧ key_size d = ks ∧ log_num_buckets d = lg ∧ is_finished d = false
  ∧ length (buckets d) = Z.to_nat (Z.shiftl 1 lg).
Proof.
  intros Hcap. unfold DiskSort_new.
  cbv beta iota zeta delta [io_bind io_ret throw int_shift_left].
  case_bool_decide; [|done].
  destruct (open_buckets _ _ _ _ _) as [bs fs'|] eqn:Hopen; [|done].
  intros [= <- <-]. simpl.
  destruct (open_buckets_spec _ _ _ _ _ _ _ Hcap Hopen) as (Hlen & Hbs & _).
  split; [|done]. split; simpl.
  - apply NoDup_alt. intros j k name. rewrite !list_lookup_fmap.
    destruct (bs !! j) as [bj|] eqn:Hj; [|done].
    destruct (bs !! k) as [bk|] eqn:Hk; [|done]. simpl. intros [= Hnj] [= Hnk].
    destruct (Hbs _ _ Hj) as (Hj' & _). destruct (Hbs _ _ Hk) as (Hk' & _).
    rewrite Hj' in Hnj. rewrite Hk' in Hnk. rewrite <-Hnk in Hnj.
    apply bucket_file_name_inj in Hnj. lia.
  - intros j b Hj. unfold bucket_entries. rewrite filter_nil. by apply (Hbs j b).
Qed.

(** Every state that the constructor and a run of [add] calls lead to
    satisfies the invariant of ingestion. *)
Lemma ingested_inv (cap : N) (ks lg nt : Z) (file_prefix : string) (fs0 fs1 : filesystem)
    (d : DiskSort) (entries : list T) (w : world) :
  cap ≤ PTRDIFF_MAX →
  DiskSort_new cap ks lg nt file_prefix fs0 = Returns d fs1 →
  add_all entries {| this := d; fs := fs1 |} = Returns () w →
  ingest_inv entries w ∧ key_size (this w) = ks ∧ log_num_buckets (this w) = lg
  ∧ is_finished (this w) = false
  ∧ length (buckets (this w)) = Z.to_nat (Z.shiftl 1 lg).
Proof.
  intros Hcap Hnew Hadd.
  destruct (DiskSort_new_inv _ _ _ _ _ _ _ _ Hcap Hnew) as (Hinv0 & Hks & Hlg & Hfin & Hlen).
  destruct (add_all_inv _ _ _ _ Hinv0 Hadd) as (Hinv & (Hks' & Hlg' & _ & Hlen' & _) & Hfin').
  simpl in *. split; [done|]. repeat split; congruence.
Qed.

(** The buffers keep the size that the constructor gave them. *)
Lemma open_buckets_capacity (cap : N) (count : nat) (i : N) (file_prefix : string)
    (fs fs' : filesystem) (bs : list bucket_t) :
  open_buckets cap count i file_prefix fs = Returns bs fs' →
  Forall (λ b, N.of_nat (length (buffer b)) = cap) bs.
Proof.
  revert i fs fs' bs. induction count as [|count IH]; intros i fs fs' bs; simpl.
  - by intros [= <- <-].
  - cbv beta iota zeta delta [io_bind io_ret fopen_wb].
    destruct (open_buckets _ _ _ _ _) as [rest fs2|] eqn:Hrest; [|done].
    intros [= <- <-]. constructor; [|by eapply IH].
    simpl. rewrite length_replicate. lia.
Qed.

Lemma add_capacity (cap : N) (entries : list T) (entry : T) (w w' : world) :
  ingest_inv entries w →
  add entry w = Returns () w' →
  Forall (λ b, N.of_nat (length (buffer b)) = cap) (buckets (this w)) →
  Forall (λ b, N.of_nat (length (buffer b)) = cap) (buckets (this w')).
Proof.
  intros Hinv Hadd Hcap.
  destruct (add_exact _ _ _ _ Hinv Hadd) as (index & b & content & _ & Hb & _ & Hw').
  pose proof (proj1 (Forall_lookup _ _) Hcap _ _ Hb) as Hlen.
  destruct (decide _); [|destruct Hw' as (_ & _ & Hw')]; subst w'; simpl;
    apply Forall_insert; try done; simpl; by rewrite length_inserts.
Qed.

Lemma add_all_capacity (cap : N) (entries pre : list T) (w w' : world) :
  ingest_inv pre w →
  add_all entries w = Returns () w' →
  Forall (λ b, N.of_nat (length (buffer b)) = cap) (buckets (this w)) →
  Forall (λ b, N.of_nat (length (buffer b)) = cap) (buckets (this w')).
Proof.
  revert pre w. induction entries as [|e entries IH]; intros pre w Hinv; simpl.
  - by intros [= <-].
  - unfold io_bind. destruct (add e w) as [[] w1|] eqn:Hadd; [|done]. intros Hrest Hcap.
    destruct (add_inv _ _ _ _ Hinv Hadd) as (Hinv1 & _).
    apply (IH _ _ Hinv1 Hrest). by apply (add_capacity cap pre e w).
Qed.

Lemma ingested_capacity (cap : N) (ks lg nt : Z) (file_prefix : string)
    (fs0 fs1 : filesystem) (d : DiskSort) (entries : list T) (w : world) :
  cap ≤ PTRDIFF_MAX →
  DiskSort_new cap ks lg nt file_prefix fs0 = Returns d fs1 →
  add_all entries {| this := d; fs := fs1 |} = Returns () w →
  Forall (λ b, N.of_nat (length (buffer b)) = cap) (buckets (this w)).
Proof.
  intros Hcap Hnew Hall.
  destruct (DiskSort_new_inv _ _ _ _ _ _ _ _ Hcap Hnew) as (Hinv0 & _).
  apply (add_all_capacity cap _ _ _ _ Hinv0 Hall). simpl.
  revert Hnew. unfold DiskSort_new.
  cbv beta iota zeta delta [io_bind io_ret throw int_shift_left].
  case_bool_decide; [|done].
  destruct (open_buckets _ _ _ _ _) as [bs fs'|] eqn:Hopen; [|done].
  intros [= <- <-]. simpl. by eapply open_buckets_capacity.
Qed.

(** C4: in every state reached from the constructor by successful calls
    of [add], a further successful [add] finds the fill offset of the
    record's bucket within the buffer capacity [cap]; when the record fits
    behind the offset it is serialized there and nothing is written to
    disk, and when it does not, the filled part of the buffer is first
    appended to the bucket file and the offset reset to zero, and the
    record is serialized at offset zero.  Afterwards every fill offset is
    again within the capacity. *)
Theorem add_flushes_before_overflow (cap : N) (ks lg nt : Z) (file_prefix : string)
    (fs0 fs1 : filesystem) (d : DiskSort) (entries : list T) (entry : T) (w w' : world) :
  cap ≤ PTRDIFF_MAX →
  DiskSort_new cap ks lg nt file_prefix fs0 = Returns d fs1 →
  add_all entries {| this := d; fs := fs1 |} = Returns () w →
  add entry w = Returns () w' →
  ∃ (index : nat) b content,
    N.of_nat index = bucket_index ks lg entry
    ∧ buckets (this w) !! index = Some b
    ∧ disk (fs w) !! file_name b = Some content
    ∧ N.of_nat (length (buffer b)) = cap
    ∧ offset b ≤ cap
    ∧ (if decide (offset b + disk_size ≤ cap)
       then w' = update_bucket w index (stored b entry) (fs w)
       else disk_size ≤ cap
            ∧ w' = update_bucket w index (stored (flushed b) entry)
                     (flushed_fs (fs w) b content))
    ∧ Forall (λ b', N.of_nat (length (buffer b')) = cap ∧ offset b' ≤ cap)
        (buckets (this w')).
Proof.
  intros Hcap Hnew Hall Hadd.
  destruct (ingested_inv _ _ _ _ _ _ _ _ _ _ Hcap Hnew Hall) as (Hinv & Hks & Hlg & _).
  pose proof (ingested_capacity _ _ _ _ _ _ _ _ _ _ Hcap Hnew Hall) as Hcaps.
  destruct (add_exact _ _ _ _ Hinv Hadd) as (index & b & content & Hindex & Hb & Hdisk & Hw').
  destruct (add_inv _ _ _ _ Hinv Hadd) as (Hinv' & _).
  pose proof (add_capacity cap _ _ _ _ Hinv Hadd Hcaps) as Hcaps'.
  pose proof (proj1 (Forall_lookup _ _) Hcaps _ _ Hb) as Hlen. simpl in Hlen.
  exists index, b, content. rewrite Hks, Hlg in Hindex. rewrite Hlen in Hw'.
  split; [done|]. split; [done|]. split; [done|]. split; [done|].
  split; [destruct (proj2 Hinv _ _ Hb); lia|]. split.
  - destruct (decide _); [done|]. by destruct Hw' as (? & _ & ?).
  - apply Forall_lookup. intros j bj Hj.
    pose proof (proj1 (Forall_lookup _ _) Hcaps' _ _ Hj) as Hlenj. simpl in Hlenj.
    split; [done|]. destruct (proj2 Hinv' _ _ Hj). lia.
Qed.

(** After [finish], every bucket file is the encoding of the records of
    its bucket. *)
Lemma finished_holds (cap : N) (ks lg nt : Z) (file_prefix : string)
    (fs0 fs1 : filesystem) (d : DiskSort) (entries : list T) (w w' : world) :
  cap ≤ PTRDIFF_MAX →
  DiskSort_new cap ks lg nt file_prefix fs0 = Returns d fs1 →
  add_all entries {| this := d; fs := fs1 |} = Returns () w →
  finish w = Returns () w' →
  ∀ (i : nat) b, buckets (this w') !! i = Some b →
    offset b = 0
    ∧ bucket_holds (fs w') b (filter (λ e, bucket_index ks lg e = N.of_nat i) entries).
Proof.
  intros Hcap Hnew Hall Hfinish i b Hb.
  destruct (ingested_inv _ _ _ _ _ _ _ _ _ _ Hcap Hnew Hall) as (Hinv & Hks & Hlg & _).
  destruct (finish_inv _ _ _ Hinv Hfinish) as (Hinv' & (Hks' & Hlg' & _) & _ & Hzero).
  destruct (proj2 Hinv' _ _ Hb) as [_ (content & Hdisk & Henc & _) Hcount _ _].
  assert (offset b = 0) as Hoff by (by eapply (proj1 (Forall_lookup _ _) Hzero)).
  unfold bucket_entries in *. rewrite Hks', Hlg', Hks, Hlg in *.
  rewrite Hoff in Henc. simpl in Henc. rewrite take_0, app_nil_r in Henc. subst content.
  by repeat split.
Qed.

(** Every record that [add] accepted has a bucket. *)
Lemma add_all_indices (entries pre : list T) (w w' : world) :
  ingest_inv pre w →
  add_all entries w = Returns () w' →
  Forall (λ e, bucket_index (key_size (this w)) (log_num_buckets (this w)) e
               < N.of_nat (length (buckets (this w)))) entries.
Proof.
  revert pre w. induction entries as [|e entries IH]; intros pre w Hinv; simpl; [done|].
  unfold io_bind. destruct (add e w) as [[] w1|] eqn:Hadd; [|done]. intros Hrest.
  destruct (add_inv _ _ _ _ Hinv Hadd) as (Hinv1 & (Hks & Hlg & _ & Hlen & _) & _).
  destruct (add_exact _ _ _ _ Hinv Hadd) as (index & b & _ & Hindex & Hb & _).
  constructor.
  - apply lookup_lt_Some in Hb. lia.
  - specialize (IH _ _ Hinv1 Hrest). by rewrite Hks, Hlg, Hlen in IH.
Qed.

End Ingestion_facts.

(** ** The inner loop of [read_bucket] *)

Section Chunk_facts.

Context {T : Type} `{Entry T} `{KeyFn T} `{Vector T}.

Lemma vector_reserve_cases {St} (n : N) (s : St) :
  vector_reserve T n s = Returns () s
  ∨ vector_reserve T n s = Throws (length_error "vector::reserve") s
  ∨ vector_reserve T n s = Throws bad_alloc s.
Proof.
  unfold vector_reserve. case_bool_decide; [by right; left|].
  destruct (allocator_grants n); [by left|by right; right].
Qed.

(** The loop leaves the state alone; when it returns, the table is the
    grouping of the records of the chunk. *)
Lemma group_chunk_returns (count : nat) (k M : N) (buf : list byte)
    (table table' : gmap N (list T)) (w w' : world) :
  group_chunk count k M buf table w = Returns table' w' →
  table' = group_table M table (chunk_records count k buf) ∧ w' = w.
Proof.
  revert k table. induction count as [|count IH]; intros k table; simpl.
  - by intros [= <- <-].
  - unfold io_bind.
    destruct (table !!! size_t (key (entry_read _) `div` M)); simpl.
    + destruct (vector_reserve_cases M w) as [->|[->| ->]]; [|done..]. apply IH.
    + apply IH.
Qed.

Lemma group_chunk_throws (count : nat) (k M : N) (buf : list byte)
    (table : gmap N (list T)) (w w' : world) (e : exn) :
  group_chunk count k M buf table w = Throws e w' →
  w' = w ∧ (e = length_error "vector::reserve" ∨ e = bad_alloc).
Proof.
  revert k table. induction count as [|count IH]; intros k table; simpl; [done|].
  unfold io_bind.
  destruct (table !!! size_t (key (entry_read _) `div` M)); simpl.
  - destruct (vector_reserve_cases M w) as [->|[->| ->]]; [apply IH|..];
      intros [= <- <-]; auto.
  - apply IH.
Qed.

(** The outcome of the loop does not depend on the state. *)
Lemma group_chunk_indep (count : nat) (k M : N) (buf : list byte)
    (table : gmap N (list T)) (w w' : world) :
  group_chunk count k M buf table w'
  = match group_chunk count k M buf table w with
    | Returns t _ => Returns t w'
    | Throws e _ => Throws e w'
    end.
Proof.
  revert k table. induction count as [|count IH]; intros k table; simpl; [done|].
  unfold io_bind.
  destruct (table !!! size_t (key (entry_read _) `div` M)); simpl; [|apply IH].
  destruct (vector_reserve_cases M w) as [Hw|[Hw|Hw]];
    destruct (vector_reserve_cases M w') as [Hw'|[Hw'|Hw']];
    rewrite Hw, Hw'; try done; try apply IH;
    unfold vector_reserve in *; repeat case_bool_decide;
    destruct (allocator_grants M); done.
Qed.

Lemma chunk_records_length (count : nat) (k : N) (buf : list byte) :
  length (chunk_records count k buf) = count.
Proof. revert k. induction count as [|count IH]; intros k; simpl; [done|]. by rewrite IH. Qed.

End Chunk_facts.

(** ** Reading a bucket back *)

Section Read_facts.

Context {T : Type} `{Entry T} `{KeyFn T} `{Vector T} `{!EntryLaws T}.

Lemma encode_app (l1 l2 : list T) : encode (l1 ++ l2) = encode l1 ++ encode l2.
Proof. unfold encode. by rewrite fmap_app, concat_app. Qed.

Lemma encode_cons (e : T) (l : list T) : encode (e :: l) = entry_write e ++ encode l.
Proof. done. Qed.

Lemma write_length_nat (e : T) : length (entry_write e) = N.to_nat disk_size.
Proof. pose proof (write_length e). lia. Qed.

Lemma encode_length (l : list T) : length (encode l) = (length l * N.to_nat disk_size)%nat.
Proof.
  induction l as [|e l IH]; [done|].
  rewrite encode_cons, length_app, write_length_nat, IH. simpl. lia.
Qed.

Lemma encode_drop (n : nat) (l : list T) :
  drop (n * N.to_nat disk_size) (encode l) = encode (drop n l).
Proof.
  revert l. induction n as [|n IH]; intros l; [done|].
  destruct l as [|e l]; [by rewrite drop_nil; unfold encode; simpl; rewrite drop_nil|].
  rewrite encode_cons. simpl drop at 2. rewrite <-IH.
  replace (S n * N.to_nat disk_size)%nat
    with (length (entry_write e) + n * N.to_nat disk_size)%nat
    by (rewrite write_length_nat; lia).
  by rewrite drop_app_add.
Qed.

Lemma encode_take (n : nat) (l : list T) :
  take (n * N.to_nat disk_size) (encode l) = encode (take n l).
Proof.
  revert l. induction n as [|n IH]; intros l; [done|].
  destruct l as [|e l]; [by rewrite take_nil; unfold encode; simpl; rewrite take_nil|].
  rewrite encode_cons. simpl take at 2. rewrite encode_cons, <-IH.
  replace (S n * N.to_nat disk_size)%nat
    with (length (entry_write e) + n * N.to_nat disk_size)%nat
    by (rewrite write_length_nat; lia).
  by rewrite take_app_add.
Qed.

(** The inner loop decodes the records of the chunk one by one. *)
Lemma chunk_records_encode (rs pre : list T) (suffix : list byte) :
  chunk_records (length rs) (N.of_nat (length pre)) (encode (pre ++ rs) ++ suffix) = rs.
Proof.
  revert pre. induction rs as [|r rs IH]; intros pre; [done|].
  cbn [length chunk_records].
  replace (N.to_nat (N.of_nat (length pre) * disk_size))
    with (length (encode pre)) by (rewrite encode_length; lia).
  rewrite encode_app, encode_cons, <-!(assoc_L (++)), drop_app_length.
  rewrite <-write_length_nat with (e := r), take_app_length, read_write.
  replace (N.of_nat (length pre) + 1) with (N.of_nat (length (pre ++ [r])))
    by (rewrite length_app; simpl; lia).
  specialize (IH (pre ++ [r])).
  rewrite <-(assoc_L (++)) in IH. simpl in IH.
  rewrite encode_app, encode_cons, <-!(assoc_L (++)) in IH. by rewrite IH.
Qed.

Lemma update_bucket_id (w : world) (index : nat) (b : bucket_t) :
  buckets (this w) !! index = Some b → update_bucket w index b (fs w) = w.
Proof.
  intros Hb. destruct w as [[] ?]. unfold update_bucket, with_buckets. simpl in *.
  by rewrite list_insert_id.
Qed.

Lemma update_bucket_twice (w : world) (index : nat) (b1 b2 : bucket_t) (fs1 fs2 : filesystem) :
  update_bucket (update_bucket w index b1 fs1) index b2 fs2 = update_bucket w index b2 fs2.
Proof. unfold update_bucket, with_buckets. simpl. by rewrite list_insert_insert_eq. Qed.

Lemma group_table_app (M : N) (table : gmap N (list T)) (l1 l2 : list T) :
  group_table M table (l1 ++ l2) = group_table M (group_table M table l1) l2.
Proof. unfold group_table. by rewrite foldl_app. Qed.

(** One [fread] of [n] records from record [i] of a well-formed file. *)
Lemma fread_chunk (recs : list T) (name : string) (fs : filesystem) (i n : N) :
  disk fs !! name = Some (encode recs) →
  0 < n → i + n ≤ N.of_nat (length recs) →
  fread disk_size n {| stream_path := name; stream_mode := ModeRead;
                       stream_pos := i * disk_size |} fs
  = Returns (encode (take (N.to_nat n) (drop (N.to_nat i) recs)), n,
             {| stream_path := name; stream_mode := ModeRead;
                stream_pos := (i + n) * disk_size |}) fs.
Proof.
  intros Hdisk Hn Hin. unfold fread. simpl. rewrite Hdisk.
  pose proof disk_size_pos as Hds.
  rewrite bool_decide_false by lia.
  assert (N.of_nat (length (encode recs)) = N.of_nat (length recs) * disk_size) as Hlen
    by (rewrite encode_length; lia).
  rewrite Hlen.
  assert (N.min (disk_size * n) (N.of_nat (length recs) * disk_size - i * disk_size)
          = n * disk_size) as -> by nia.
  rewrite N.div_mul by lia.
  do 2 f_equal; [|f_equal; lia]. f_equal.
  rewrite !N2Nat.inj_mul, encode_drop. apply encode_take.
Qed.

(** The chunk loop on a well-formed file: when it returns, the table is
    the grouping of the records that were left to read, and the stream
    is at the end of the file. *)
Lemma read_chunks_spec (M index : N) (recs : list T) (b : bucket_t) (k : nat) :
  ∀ (i : N) (table table' : gmap N (list T)) (w w' : world),
    k = N.to_nat (N.of_nat (length recs) - i) →
    i ≤ N.of_nat (length recs) →
    buckets (this w) !! N.to_nat index = Some (set_file b (read_stream b i)) →
    disk (fs w) !! file_name b = Some (encode recs) →
    read_chunks index M (N.of_nat (length recs)) i table w = Returns table' w' →
    table' = group_table M table (drop (N.to_nat i) recs)
    ∧ w' = update_bucket w (N.to_nat index)
             (set_file b (read_stream b (N.of_nat (length recs)))) (fs w).
Proof.
  induction k as [k IH] using lt_wf_ind. intros i table table' w w' Hk Hi Hb Hdisk.
  rewrite read_chunks_equation_1. destruct (decide (i < N.of_nat (length recs))) as [Hlt|Hge].
  - simpl. io_unfold. rewrite Hb. simpl.
    set (n := chunk_N `min` (N.of_nat (length recs) - i)).
    assert (0 < n ∧ i + n ≤ N.of_nat (length recs)) as [Hn Hin] by (unfold chunk_N in *; lia).
    rewrite (fread_chunk recs) by done. simpl.
    rewrite bool_decide_false by (intros ?; done).
    case_bool_decide as HM; [done|].
    fold (read_stream b (i + n)). fold (set_file b (read_stream b (i + n))).
    fold (update_bucket w (N.to_nat index) (set_file b (read_stream b (i + n))) (fs w)).
    destruct (group_chunk _ _ _ _ _ _) as [table1 w1|] eqn:Hchunk; [|done].
    apply group_chunk_returns in Hchunk as [-> ->]. intros Hrest.
    apply (IH (N.to_nat (N.of_nat (length recs) - (i + n)))) in Hrest; [| lia | done | lia | | done].
    + destruct Hrest as [-> ->]. rewrite update_bucket_twice. split; [|done].
      pose proof (chunk_records_encode (take (N.to_nat n) (drop (N.to_nat i) recs)) [] [])
        as Hchunk.
      rewrite app_nil_r in Hchunk. change (N.of_nat (length (@nil T))) with 0 in Hchunk.
      simpl in Hchunk. rewrite length_take, length_drop, Nat.min_l in Hchunk by lia.
      rewrite Hchunk, <-group_table_app. f_equal.
      rewrite N2Nat.inj_add, <-drop_drop. apply take_drop.
    + simpl. rewrite list_lookup_insert_eq; [done|]. by eapply lookup_lt_Some.
  - simpl. unfold io_ret. intros [= <- <-]. assert (i = N.of_nat (length recs)) as -> by lia.
    rewrite Nat2N.id, drop_all. simpl. by rewrite update_bucket_id.
Qed.

(** What [read_bucket] does on a finalized bucket when it returns: it
    returns the grouping of the bucket's records and leaves a read stream
    at the end of the file. *)
Lemma read_bucket_spec (M index : N) (recs : list T) (b : bucket_t) (w w' : world)
    (blocks : list (list T)) :
  buckets (this w) !! N.to_nat index = Some b →
  bucket_holds (fs w) b recs →
  read_bucket index M w = Returns blocks w' →
  blocks = grouped M recs
  ∧ w' = update_bucket w (N.to_nat index)
           (set_file b (read_stream b (N.of_nat (length recs)))) (fs w).
Proof.
  intros Hb [Hnum Hdisk]. unfold read_bucket.
  cbv beta iota zeta delta [io_bind io_ret throw get_state put_state on_fs set_bucket
    set_buckets bucket_at fclose fopen_rb].
  rewrite Hb.
  assert (∀ w0 : world, match file b with
                        | Some _ => match file b with
                                    | Some _ => λ s : world, Returns () s
                                    | None => λ s, Throws (undefined_behaviour "fclose(nullptr)") s
                                    end
                        | None => λ s, Returns () s
                        end w0 = Returns () w0) as -> by (by destruct (file b)).
  rewrite Hdisk. simpl.
  change (Some {| stream_path := file_name b; stream_mode := ModeRead; stream_pos := 0 |})
    with (read_stream b 0).
  fold (set_file b (read_stream b 0)).
  fold (update_bucket w (N.to_nat index) (set_file b (read_stream b 0)) (fs w)).
  rewrite Hnum.
  destruct (read_chunks _ _ _ _ _ _) as [table w1|] eqn:Hchunks; [|done].
  apply (read_chunks_spec M index recs b _ _ _ _ _ _ eq_refl) in Hchunks; [|lia| |done].
  - destruct Hchunks as [-> ->]. intros [= <- <-]. by rewrite update_bucket_twice.
  - simpl. rewrite list_lookup_insert_eq; [done|]. by eapply lookup_lt_Some.
Qed.

End Read_facts.

(** ** What reading depends on, and what it changes *)

Section Frame_facts.

Context {T : Type} `{Entry T} `{KeyFn T} `{Vector T}.

Lemma same_bucket_data_refl (b : bucket_t) : same_bucket_data b b.
Proof. by unfold same_bucket_data. Qed.

Lemma same_data_refl (w : world) : same_data w w.
Proof.
  unfold same_data. repeat split; try done.
  apply Forall2_same_length_lookup. split; [done|].
  intros i b b' Hb Hb'. assert (b = b') as -> by congruence. apply same_bucket_data_refl.
Qed.

Lemma same_data_sym (w w' : world) : same_data w w' → same_data w' w.
Proof.
  unfold same_data. intros (?&?&?&?&?&Hbs). repeat split; try done.
  apply Forall2_flip. eapply Forall2_impl; [done|].
  unfold same_bucket_data, flip. intros b b' (?&?&?&?). by repeat split.
Qed.

Lemma same_data_trans (w1 w2 w3 : world) :
  same_data w1 w2 → same_data w2 w3 → same_data w1 w3.
Proof.
  unfold same_data. intros (?&?&?&?&?&Hbs) (?&?&?&?&?&Hbs').
  repeat split; try congruence.
  eapply Forall2_trans; [|done..].
  unfold same_bucket_data. intros b1 b2 b3 (?&?&?&?) (?&?&?&?). repeat split; congruence.
Qed.

Lemma same_data_set_file (w : world) (index : nat) (b : bucket_t) (f : option FILE) :
  buckets (this w) !! index = Some b →
  same_data w (update_bucket w index (set_file b f) (fs w)).
Proof.
  intros Hb. unfold same_data. simpl. repeat split; try done.
  rewrite <-(list_insert_id _ _ _ Hb) at 1.
  apply Forall2_insert; [|done].
  apply Forall2_same_length_lookup. split; [done|].
  intros i c c' Hc Hc'. assert (c = c') as -> by congruence. apply same_bucket_data_refl.
Qed.

Lemma agree_update (index : N) (w w' : world) (b : bucket_t) (fs' : filesystem) :
  same_data w w' →
  is_Some (buckets (this w) !! N.to_nat index) →
  agree index (update_bucket w (N.to_nat index) b fs') (update_bucket w' (N.to_nat index) b fs').
Proof.
  intros (Hfs & ? & ? & ? & ? & Hbs) [b0 Hb0]. split.
  - unfold same_data. simpl. repeat split; try done.
    apply Forall2_insert; [done|]. apply same_bucket_data_refl.
  - simpl. pose proof (Forall2_length _ _ _ Hbs) as Hlen.
    apply lookup_lt_Some in Hb0.
    rewrite !list_lookup_insert_eq by lia. done.
Qed.

Lemma fread_returns (size n : N) (f : FILE) (fs : filesystem) :
  ∃ r, fread size n f fs = Returns r fs.
Proof.
  unfold fread. destruct (stream_mode f), (disk fs !! stream_path f);
    try case_bool_decide; eauto.
Qed.

Lemma agree_same_data (index : N) (w w' : world) : agree index w w' → same_data w w'.
Proof. by intros [? _]. Qed.

(** The chunk loop depends on the state only through the file system and
    the bucket it reads. *)
Lemma read_chunks_cong (index M num : N) (k : nat) :
  ∀ (i : N) (table : gmap N (list T)) (w w' : world),
    k = N.to_nat (num - i) →
    agree index w w' →
    outcome_rel (agree index) (read_chunks index M num i table w)
                              (read_chunks index M num i table w').
Proof.
  induction k as [k IH] using lt_wf_ind. intros i table w w' Hk Hagree.
  rewrite !read_chunks_equation_1. destruct (decide (i < num)) as [Hlt|Hge]; simpl.
  - io_unfold. pose proof Hagree as [Hsd Hidx]. rewrite <-Hidx.
    destruct (buckets (this w) !! N.to_nat index) as [b|] eqn:Hb; [|by split].
    destruct (file b) as [f|]; [|by split].
    destruct Hsd as (Hfs & Hsd). rewrite <-Hfs.
    destruct (fread_returns disk_size (chunk_N `min` (num - i)) f (fs w)) as [r ->].
    assert (Hupd : ∀ nb, agree index
              {| this := with_buckets (this w) (<[N.to_nat index:=nb]> (buckets (this w)));
                 fs := fs w |}
              {| this := with_buckets (this w') (<[N.to_nat index:=nb]> (buckets (this w')));
                 fs := fs w |}).
    { intros nb. by apply (agree_update index w w' nb (fs w)). }
    case_bool_decide; [by split|]. case_bool_decide; [by split|].
    match goal with
    | |- outcome_rel _ (match group_chunk ?c ?j M ?buf table ?w1 with _ => _ end)
           (match group_chunk _ _ _ _ _ ?w2 with _ => _ end) =>
        rewrite (group_chunk_indep c j M buf table w1 w2);
        destruct (group_chunk c j M buf table w1) as [table1 w3|e w3] eqn:Hchunk
    end.
    + apply group_chunk_returns in Hchunk as [_ ->].
      apply (IH (N.to_nat (num - (i + chunk_N `min` (num - i))))); [unfold chunk_N; lia|done|].
      apply Hupd.
    + apply group_chunk_throws in Hchunk as [-> _]. split; [done|]. apply Hupd.
  - by split.
Qed.

Lemma read_chunks_frame (index M num : N) (k : nat) :
  ∀ (i : N) (table : gmap N (list T)) (w : world),
    k = N.to_nat (num - i) →
    same_data w (final_state (read_chunks index M num i table w)).
Proof.
  induction k as [k IH] using lt_wf_ind. intros i table w Hk.
  rewrite !read_chunks_equation_1. destruct (decide (i < num)) as [Hlt|Hge]; simpl.
  - io_unfold.
    destruct (buckets (this w) !! N.to_nat index) as [b|] eqn:Hb; [|apply same_data_refl].
    destruct (file b) as [f|]; [|apply same_data_refl].
    destruct (fread_returns disk_size (chunk_N `min` (num - i)) f (fs w)) as [r ->].
    pose proof (same_data_set_file w (N.to_nat index) b (Some r.2) Hb) as Hstep.
    case_bool_decide; [done|]. case_bool_decide; [done|].
    destruct (group_chunk _ _ _ _ _ _) as [table1 w3|e w3] eqn:Hchunk.
    + apply group_chunk_returns in Hchunk as [_ ->].
      eapply same_data_trans; [exact Hstep|].
      apply (IH (N.to_nat (num - (i + chunk_N `min` (num - i))))); [unfold chunk_N; lia|done].
    + by apply group_chunk_throws in Hchunk as [-> _].
  - apply same_data_refl.
Qed.

Lemma read_bucket_cong (index M : N) (w w' : world) :
  same_data w w' →
  outcome_rel same_data (read_bucket index M w) (read_bucket index M w').
Proof.
  intros Hsd. unfold read_bucket.
  cbv beta iota zeta delta [io_bind io_ret throw get_state put_state on_fs set_bucket
    set_buckets bucket_at fclose fopen_rb].
  pose proof Hsd as (Hfs & _ & _ & _ & _ & Hbs).
  destruct (buckets (this w) !! N.to_nat index) as [b|] eqn:Hb.
  - destruct (Forall2_lookup_l _ _ _ _ _ Hbs Hb) as (b' & Hb' & Hname & Hoff & Hnum & Hbuf).
    rewrite Hb'.
    assert (Hclose : ∀ (c : bucket_t) (w0 : world),
              match file c with
              | Some _ => match file c with
                          | Some _ => λ s : world, Returns () s
                          | None => λ s, Throws (undefined_behaviour "fclose(nullptr)") s
                          end
              | None => λ s, Returns () s
              end w0 = Returns () w0) by (by intros c w0; destruct (file c)).
    rewrite !Hclose. rewrite <-Hfs, <-Hname, <-Hoff, <-Hnum, <-Hbuf.
    assert (Hupd : ∀ nb, agree index
              {| this := with_buckets (this w) (<[N.to_nat index:=nb]> (buckets (this w)));
                 fs := fs w |}
              {| this := with_buckets (this w') (<[N.to_nat index:=nb]> (buckets (this w')));
                 fs := fs w |}).
    { intros nb. by apply (agree_update index w w' nb (fs w)). }
    destruct (disk (fs w) !! file_name b); simpl.
    + match goal with
      | |- outcome_rel _ (match ?o1 with _ => _ end) (match ?o2 with _ => _ end) =>
          assert (outcome_rel (agree index) o1 o2) as Hrel
            by (by eapply read_chunks_cong; [|apply Hupd]);
          destruct o1, o2; simpl in *; try done
      end.
      * destruct Hrel as [-> Hag]. split; [done|]. by eapply agree_same_data.
      * destruct Hrel as [-> Hag]. split; [done|]. by eapply agree_same_data.
    + split; [done|]. eapply agree_same_data. apply Hupd.
  - assert (buckets (this w') !! N.to_nat index = None) as ->.
    { apply lookup_ge_None. apply lookup_ge_None in Hb.
      by rewrite <-(Forall2_length _ _ _ Hbs). }
    by split.
Qed.

Lemma read_bucket_frame (index M : N) (w : world) :
  same_data w (final_state (read_bucket index M w)).
Proof.
  unfold read_bucket.
  cbv beta iota zeta delta [io_bind io_ret throw get_state put_state on_fs set_bucket
    set_buckets bucket_at fclose fopen_rb].
  destruct (buckets (this w) !! N.to_nat index) as [b|] eqn:Hb; [|apply same_data_refl].
  assert (∀ w0 : world,
            match file b with
            | Some _ => match file b with
                        | Some _ => λ s : world, Returns () s
                        | None => λ s, Throws (undefined_behaviour "fclose(nullptr)") s
                        end
            | None => λ s, Returns () s
            end w0 = Returns () w0) as -> by (by intros w0; destruct (file b)).
  destruct (disk (fs w) !! file_name b); simpl.
  - match goal with
    | |- same_data _ (final_state (match read_chunks ?a ?b ?c ?d ?e ?w1 with _ => _ end)) =>
        pose proof (read_chunks_frame a b c _ d e w1 eq_refl) as Hfr;
        destruct (read_chunks a b c d e w1); simpl in *
    end;
    (eapply same_data_trans; [|exact Hfr]);
    apply (same_data_set_file w (N.to_nat index) b _ Hb).
  - apply (same_data_set_file w (N.to_nat index) b None Hb).
Qed.

End Frame_facts.

(** ** The sort stage and the loop over the buckets *)

Section Pipeline_facts.

Context {T : Type} `{Entry T} `{KeyFn T} `{StdSort T} `{Vector T}.

Lemma sort_bucket_loop_app (size i : N) (rest : list (list T)) (forwarded : list (output_t T)) :
  sort_bucket_loop size i rest forwarded = forwarded ++ sort_bucket_loop size i rest [].
Proof.
  revert i forwarded. induction rest as [|blk rest IH]; intros i forwarded; simpl.
  - by rewrite app_nil_r.
  - unfold pool_take. rewrite IH. rewrite (IH _ ([] ++ _)). simpl.
    by rewrite <-(assoc_L (++)).
Qed.

Lemma sort_bucket_app (input : list (list T)) (forwarded : list (output_t T)) :
  sort_bucket input forwarded = forwarded ++ sort_bucket input [].
Proof. apply sort_bucket_loop_app. Qed.

Lemma sort_bucket_loop_lookup (size i : N) (rest : list (list T)) (j : nat) (u : output_t T) :
  i + N.of_nat (length rest) ≤ SIZE_MAX →
  sort_bucket_loop size i rest [] !! j = Some u →
  ∃ blk, rest !! j = Some blk
    ∧ u = sort_block {| is_begin := bool_decide (i + N.of_nat j = 0);
                        is_end := bool_decide (i + N.of_nat j + 1 = size);
                        block := blk |}.
Proof.
  revert i j. induction rest as [|blk rest IH]; intros i j Hbound; [done|].
  cbn [sort_bucket_loop length] in *. unfold pool_take.
  rewrite sort_bucket_loop_app. simpl.
  rewrite size_t_small by lia.
  destruct j as [|j]; simpl.
  - intros [= <-]. exists blk. split; [done|]. by rewrite N.add_0_r.
  - intros Hj. destruct (IH (i + 1) j) as (blk' & Hblk & ->); [lia|done|].
    exists blk'. split; [done|].
    by replace (i + N.of_nat (S j)) with (i + 1 + N.of_nat j) by lia.
Qed.

Lemma sort_bucket_loop_length (size i : N) (rest : list (list T)) :
  length (sort_bucket_loop size i rest []) = length rest.
Proof.
  revert i. induction rest as [|blk rest IH]; intros i; [done|].
  cbn [sort_bucket_loop]. unfold pool_take. rewrite sort_bucket_loop_app.
  simpl. by rewrite IH.
Qed.

Lemma sort_bucket_loop_blocks (size i : N) (rest : list (list T)) :
  block <$> sort_bucket_loop size i rest []
  = std_sort (λ lhs rhs, bool_decide (key lhs < key rhs)) <$> rest.
Proof.
  revert i. induction rest as [|blk rest IH]; intros i; [done|].
  cbn [sort_bucket_loop]. unfold pool_take. rewrite sort_bucket_loop_app.
  simpl. by rewrite IH.
Qed.

(** C3: [sort_bucket] forwards one unit per sub-block; [is_begin] is set
    on the unit at position 0 and on no other, [is_end] on the unit at the
    last position and on no other, so that the unit of a single sub-block
    carries both. *)
Theorem sort_bucket_flags (input : list (list T)) :
  N.of_nat (length input) ≤ SIZE_MAX →
  length (sort_bucket input []) = length input
  ∧ ∀ (i : nat) (u : output_t T), sort_bucket input [] !! i = Some u →
      is_begin u = bool_decide (i = 0%nat)
      ∧ is_end u = bool_decide (i = (length input - 1)%nat).
Proof.
  intros Hsize. split; [apply sort_bucket_loop_length|].
  intros i u Hu. unfold sort_bucket in Hu.
  pose proof (lookup_lt_Some _ _ _ Hu) as Hi. rewrite sort_bucket_loop_length in Hi.
  apply sort_bucket_loop_lookup in Hu as (blk & _ & ->); [|lia]. simpl.
  split; apply bool_decide_ext; lia.
Qed.

Lemma read_loop_cong (count : nat) (i M : N) (forwarded : list (output_t T)) (w w' : world) :
  same_data w w' →
  outcome_rel same_data (read_loop count i M forwarded w) (read_loop count i M forwarded w').
Proof.
  revert i forwarded w w'. induction count as [|count IH]; intros i forwarded w w' Hsd; simpl.
  - by split.
  - unfold pool_take_copy, io_bind, io_ret. pose proof (read_bucket_cong i M w w' Hsd) as Hrel.
    destruct (read_bucket i M w), (read_bucket i M w'); simpl in Hrel; try done.
    destruct Hrel as [-> Hsd']. by apply IH.
Qed.

Lemma read_loop_frame (count : nat) (i M : N) (forwarded : list (output_t T)) (w : world) :
  same_data w (final_state (read_loop count i M forwarded w)).
Proof.
  revert i forwarded w. induction count as [|count IH]; intros i forwarded w; simpl.
  - apply same_data_refl.
  - unfold pool_take_copy, io_bind, io_ret. pose proof (read_bucket_frame i M w) as Hfr.
    destruct (read_bucket i M w); simpl in *; [|done].
    eapply same_data_trans; [exact Hfr|]. apply IH.
Qed.

(** The units that [read] forwards are those of bucket 0, then those of
    bucket 1, and so on, each bucket read as if it were the only one. *)
Lemma read_loop_decompose (count : nat) (i M : N) (forwarded outs : list (output_t T))
    (w0 w w' : world) :
  same_data w0 w →
  read_loop count i M forwarded w = Returns outs w' →
  outs = forwarded ++ concat (bucket_units M w0 <$> N_range i count)
  ∧ Forall (λ j, ∃ blocks w1, read_bucket j M w0 = Returns blocks w1) (N_range i count).
Proof.
  revert i forwarded w. induction count as [|count IH]; intros i forwarded w Hsd; simpl.
  - intros [= <- <-]. by rewrite app_nil_r.
  - unfold pool_take_copy, io_bind, io_ret.
    pose proof (read_bucket_cong i M w0 w Hsd) as Hrel.
    pose proof (read_bucket_frame i M w) as Hfr.
    destruct (read_bucket i M w) as [blocks w1|] eqn:Hrb; [|done].
    destruct (read_bucket i M w0) as [blocks0 w1'|] eqn:Hrb0; [|done].
    destruct Hrel as [-> _]. simpl in Hfr. intros Hrest.
    apply IH in Hrest as [-> Hall]; [|by eapply same_data_trans].
    split.
    + unfold bucket_units at 2. rewrite Hrb0.
      by rewrite (sort_bucket_app blocks forwarded), <-(assoc_L (++)).
    + constructor; [by eauto|done].
Qed.

Lemma read_loop_total (count : nat) (i M : N) (forwarded : list (output_t T)) (w0 w : world) :
  same_data w0 w →
  Forall (λ j, ∃ blocks w1, read_bucket j M w0 = Returns blocks w1) (N_range i count) →
  ∃ outs w', read_loop count i M forwarded w = Returns outs w'.
Proof.
  revert i forwarded w. induction count as [|count IH]; intros i forwarded w Hsd Hall; simpl.
  - by eexists _, _.
  - apply Forall_cons in Hall as [(blocks & w1 & Hrb0) Hall].
    unfold pool_take_copy, io_bind, io_ret.
    pose proof (read_bucket_cong i M w0 w Hsd) as Hrel.
    pose proof (read_bucket_frame i M w) as Hfr.
    rewrite Hrb0 in Hrel. destruct (read_bucket i M w) as [blocks' w1'|]; [|done].
    simpl in Hfr. apply IH; [by eapply same_data_trans|done].
Qed.

Lemma N_range_lookup (from : N) (count j : nat) :
  (j < count)%nat → N_range from count !! j = Some (from + N.of_nat j).
Proof.
  revert from j. induction count as [|count IH]; intros from j Hj; [lia|].
  destruct j as [|j]; simpl.
  - f_equal. lia.
  - rewrite IH by lia. f_equal. lia.
Qed.

Lemma N_range_length (from : N) (count : nat) : length (N_range from count) = count.
Proof. revert from. induction count as [|count IH]; intros from; simpl; [done|]. by rewrite IH. Qed.

(** A bucket without records yields no sub-block, provided its file can
    be opened. *)
Lemma read_bucket_empty (index M : N) (w : world) (b : bucket_t) :
  buckets (this w) !! N.to_nat index = Some b →
  num_entries b = 0 →
  (∃ w1, read_bucket index M w = Returns [] w1)
  ∨ (∃ w1, read_bucket index M w = Throws (runtime_error "fopen() failed") w1).
Proof.
  intros Hb Hnum. unfold read_bucket.
  cbv beta iota zeta delta [io_bind io_ret throw get_state put_state on_fs set_bucket
    set_buckets bucket_at fclose fopen_rb].
  rewrite Hb, Hnum.
  assert (∀ w0 : world,
            match file b with
            | Some _ => match file b with
                        | Some _ => λ s : world, Returns () s
                        | None => λ s, Throws (undefined_behaviour "fclose(nullptr)") s
                        end
            | None => λ s, Returns () s
            end w0 = Returns () w0) as -> by (by intros w0; destruct (file b)).
  destruct (disk (fs w) !! file_name b); simpl.
  - left. rewrite read_chunks_equation_1. simpl. unfold io_ret.
    rewrite map_to_list_empty. by eexists.
  - right. by eexists.
Qed.

Lemma read_decompose (M : N) (w w' : world) (outs : list (output_t T)) :
  read M w = Returns outs w' →
  outs = concat (bucket_units M w <$> N_range 0 (length (buckets (this w))))
  ∧ Forall (λ j, ∃ blocks w1, read_bucket j M w = Returns blocks w1)
      (N_range 0 (length (buckets (this w)))).
Proof.
  unfold read. cbv beta iota zeta delta [io_bind get_state]. intros Hloop.
  by apply (read_loop_decompose _ _ _ _ _ w) in Hloop; [|apply same_data_refl].
Qed.

(** C9: the units that [read] forwards are the units of the buckets in
    turn, and a bucket whose record count is zero contributes none:
    [read_bucket] returns no sub-block for it and [sort_bucket] forwards
    nothing, so no unit with [is_begin] or [is_end] stands for it. *)
Theorem empty_bucket_emits_nothing (M : N) (w w' : world) (outs : list (output_t T)) :
  read M w = Returns outs w' →
  outs = concat (bucket_units M w <$> N_range 0 (length (buckets (this w))))
  ∧ ∀ (i : nat) b, buckets (this w) !! i = Some b → num_entries b = 0 →
      (∃ w1, read_bucket (N.of_nat i) M w = Returns [] w1)
      ∧ sort_bucket (@nil (list T)) [] = []
      ∧ bucket_units M w (N.of_nat i) = [].
Proof.
  intros Hread. destruct (read_decompose _ _ _ _ Hread) as [Houts Hall].
  split; [done|]. intros i b Hb Hnum.
  pose proof (lookup_lt_Some _ _ _ Hb) as Hi.
  pose proof (N_range_lookup 0 _ _ Hi) as Hrange. rewrite N.add_0_l in Hrange.
  destruct (proj1 (Forall_lookup _ _) Hall _ _ Hrange) as (blocks & w1 & Hrb).
  destruct (read_bucket_empty (N.of_nat i) M w b) as [[w2 Hrb']|[w2 Hrb']];
    [by rewrite Nat2N.id|done| |congruence].
  split; [by eexists|]. split; [done|].
  unfold bucket_units. by rewrite Hrb'.
Qed.

(** C10: [read] changes nothing but the streams of the buckets: the file
    system, and the name, record count, fill offset and buffer of every
    bucket are the same afterwards.  Reading again with the same [M]
    therefore forwards the same units. *)
Theorem read_twice (M : N) (w w' : world) (outs : list (output_t T)) :
  read M w = Returns outs w' →
  same_data w w'
  ∧ ∃ w'', read M w' = Returns outs w'' ∧ same_data w' w''.
Proof.
  unfold read. cbv beta iota zeta delta [io_bind get_state]. intros Hloop.
  pose proof (read_loop_frame (length (buckets (this w))) 0 M [] w) as Hfr.
  rewrite Hloop in Hfr. simpl in Hfr. split; [done|].
  pose proof Hfr as (_ & _ & _ & _ & _ & Hbs). rewrite <-(Forall2_length _ _ _ Hbs).
  pose proof (read_loop_cong (length (buckets (this w))) 0 M [] w w' Hfr) as Hrel.
  pose proof (read_loop_frame (length (buckets (this w))) 0 M [] w') as Hfr'.
  rewrite Hloop in Hrel.
  destruct (read_loop _ _ _ _ w') as [outs' w''|]; [|done].
  destruct Hrel as [-> _]. by exists w''.
Qed.

(** The same holds when [read] throws: the state at the throw differs
    from the state before the call in the streams only. *)
Lemma read_frame (M : N) (w : world) : same_data w (final_state (read M w)).
Proof.
  unfold read. cbv beta iota zeta delta [io_bind get_state]. apply read_loop_frame.
Qed.

End Pipeline_facts.

(** ** Grouping into sub-blocks *)

Section Ordered_map_facts.

Context {V : Type}.

Implicit Types m : list (N * V).

Lemma map_emplace_elem k v m x : x ∈ map_emplace k v m → x = (k, v) ∨ x ∈ m.
Proof.
  induction m as [|[k' v'] m IH]; simpl.
  - rewrite list_elem_of_singleton. auto.
  - case_bool_decide; [by rewrite elem_of_cons|]. case_bool_decide; [auto|].
    rewrite !elem_of_cons. intros [->|Hx]; [auto|]. destruct (IH Hx); auto.
Qed.

Lemma map_emplace_sorted k v m :
  StronglySorted (λ x y, x.1 < y.1) m →
  StronglySorted (λ x y, x.1 < y.1) (map_emplace k v m).
Proof.
  induction m as [|[k' v'] m IH]; simpl; intros Hm.
  - repeat constructor.
  - apply StronglySorted_cons in Hm as [Hall Hm].
    repeat case_bool_decide.
    + apply StronglySorted_cons. split.
      * constructor; [done|]. eapply Forall_impl; [done|]. simpl. intros. lia.
      * by apply StronglySorted_cons.
    + by apply StronglySorted_cons.
    + apply StronglySorted_cons. split; [|by apply IH].
      apply Forall_forall. intros x [->|Hx]%map_emplace_elem; simpl; [lia|].
      by apply (proj1 (Forall_forall _ _) Hall).
Qed.

Lemma map_emplace_perm k v m : k ∉ m.*1 → map_emplace k v m ≡ₚ (k, v) :: m.
Proof.
  induction m as [|[k' v'] m IH]; simpl; intros Hk; [done|].
  apply not_elem_of_cons in Hk as [Hne Hk].
  repeat case_bool_decide; [done|done|].
  rewrite IH by done. apply Permutation_swap.
Qed.

Lemma foldl_emplace_spec (l acc : list (N * V)) :
  NoDup ((l ++ acc).*1) →
  StronglySorted (λ x y, x.1 < y.1) acc →
  StronglySorted (λ x y, x.1 < y.1) (foldl (λ m e, map_emplace e.1 e.2 m) acc l)
  ∧ foldl (λ m e, map_emplace e.1 e.2 m) acc l ≡ₚ l ++ acc.
Proof.
  revert acc. induction l as [|[k v] l IH]; intros acc Hnodup Hacc; simpl; [done|].
  simpl in Hnodup. apply NoDup_cons in Hnodup as [Hk Hnodup].
  rewrite fmap_app in Hk, Hnodup.
  assert (map_emplace k v acc ≡ₚ (k, v) :: acc) as Hperm.
  { apply map_emplace_perm. intros Hin. apply Hk. apply elem_of_app. by right. }
  destruct (IH (map_emplace k v acc)) as [Hsorted Hres].
  - rewrite fmap_app, Hperm. simpl.
    rewrite <-Permutation_middle. apply NoDup_cons. by rewrite elem_of_app in *.
  - by apply map_emplace_sorted.
  - split; [done|]. rewrite Hres, Hperm. by rewrite <-Permutation_middle.
Qed.

Lemma ordered_spec (table : gmap N V) :
  StronglySorted (λ x y, x.1 < y.1) (ordered table)
  ∧ ordered table ≡ₚ map_to_list table.
Proof.
  unfold ordered.
  destruct (foldl_emplace_spec (map_to_list table) []) as [Hsorted Hperm].
  - rewrite app_nil_r. apply NoDup_fst_map_to_list.
  - constructor.
  - by rewrite app_nil_r in Hperm.
Qed.

End Ordered_map_facts.

Section Grouping_facts.

Context {T : Type} `{Entry T} `{KeyFn T} `{Vector T}.

Lemma table_inv_empty (M : N) : table_inv M ∅.
Proof. intros p blk. by rewrite lookup_empty. Qed.

Lemma table_inv_push (M : N) (e : T) (table : gmap N (list T)) :
  table_inv M table → table_inv M (table_push (partition_of M e) e table).
Proof.
  intros Hinv p blk. unfold table_push. rewrite lookup_insert.
  case_decide as Hp; [|by apply Hinv]. intros [= <-]. subst p.
  split; [by destruct (table !!! _)|].
  apply Forall_app. split; [|by constructor].
  rewrite lookup_total_alt. destruct (table !! partition_of M e) as [blk|] eqn:Hblk; simpl.
  - by apply (Hinv _ _ Hblk).
  - constructor.
Qed.

Lemma table_inv_group_chunk (M : N) (count : nat) (k : N) (buf : list byte)
    (table table' : gmap N (list T)) (w w' : world) :
  table_inv M table →
  group_chunk count k M buf table w = Returns table' w' →
  table_inv M table'.
Proof.
  intros Hinv Hchunk. apply group_chunk_returns in Hchunk as [-> _].
  revert table Hinv. induction (chunk_records count k buf) as [|e l IH]; intros table Hinv;
    [done|].
  apply IH. by apply table_inv_push.
Qed.

Lemma table_inv_read_chunks (index M num : N) (k : nat) :
  ∀ (i : N) (table table' : gmap N (list T)) (w w' : world),
    k = N.to_nat (num - i) →
    table_inv M table →
    read_chunks index M num i table w = Returns table' w' →
    table_inv M table'.
Proof.
  induction k as [k IH] using lt_wf_ind. intros i table table' w w' Hk Hinv.
  rewrite read_chunks_equation_1. destruct (decide (i < num)) as [Hlt|Hge]; simpl.
  - io_unfold.
    destruct (buckets (this w) !! N.to_nat index) as [b|]; [|done].
    destruct (file b) as [f|]; [|done].
    destruct (fread_returns disk_size (chunk_N `min` (num - i)) f (fs w)) as [r ->].
    case_bool_decide; [done|]. case_bool_decide; [done|].
    destruct (group_chunk _ _ _ _ _ _) as [table1 w1|] eqn:Hchunk; [|done].
    apply (IH (N.to_nat (num - (i + chunk_N `min` (num - i))))); [unfold chunk_N; lia|done|].
    by eapply table_inv_group_chunk.
  - by intros [= <- <-].
Qed.

Lemma partition_of_div `{!KeyLaws T} (M : N) (e : T) : partition_of M e = key e `div` M.
Proof.
  unfold partition_of. apply size_t_small. pose proof (key_fits e).
  destruct (decide (M = 0)) as [->|HM].
  - rewrite N.div_0_r. lia.
  - pose proof (N.Div0.div_le_upper_bound (key e) M (key e)). nia.
Qed.

(** The sub-blocks made of a table: in ascending order of partition. *)
Lemma ordered_blocks (M : N) (table : gmap N (list T)) :
  table_inv M table →
  ∃ ps : list N,
    StronglySorted N.lt ps
    ∧ Forall2 (λ p blk, blk ≠ [] ∧ Forall (λ e, partition_of M e = p) blk)
        ps ((ordered table).*2).
Proof.
  intros Hinv. destruct (ordered_spec table) as [Hsorted Hperm].
  exists ((ordered table).*1). split.
  - clear Hperm. induction Hsorted as [|x l Hl IH Hx]; simpl; constructor; [done|].
    by apply Forall_fmap.
  - apply Forall2_fmap, Forall_Forall2_diag, Forall_forall.
    intros [p blk] Hin. simpl. apply Hinv.
    rewrite Hperm in Hin. by apply elem_of_map_to_list.
Qed.

(** C2: whatever state a bucket is read in and whatever [M] is, the
    sub-blocks that [read_bucket] returns are not empty, the records of
    each share one value of [key / M], and these values are strictly
    ascending from sub-block to sub-block. *)
Theorem sub_blocks_partitioned `{!KeyLaws T} (index M : N) (w w' : world)
    (blocks : list (list T)) :
  read_bucket index M w = Returns blocks w' →
  ∃ ps : list N,
    StronglySorted N.lt ps
    ∧ Forall2 (λ p blk, blk ≠ [] ∧ Forall (λ e, key e `div` M = p) blk) ps blocks.
Proof.
  unfold read_bucket.
  cbv beta iota zeta delta [io_bind io_ret throw get_state put_state on_fs set_bucket
    set_buckets bucket_at fclose fopen_rb].
  destruct (buckets (this w) !! N.to_nat index) as [b|]; [|done].
  assert (∀ w0 : world,
            match file b with
            | Some _ => match file b with
                        | Some _ => λ s : world, Returns () s
                        | None => λ s, Throws (undefined_behaviour "fclose(nullptr)") s
                        end
            | None => λ s, Returns () s
            end w0 = Returns () w0) as -> by (by intros w0; destruct (file b)).
  destruct (disk (fs w) !! file_name b); simpl; [|done].
  destruct (read_chunks _ _ _ _ _ _) as [table w1|] eqn:Hchunks; [|done].
  intros [= <- <-].
  apply table_inv_read_chunks with (k := N.to_nat (num_entries b - 0)) in Hchunks;
    [|done|apply table_inv_empty].
  destruct (ordered_blocks M table Hchunks) as (ps & Hps & Hblocks).
  exists ps. split; [done|].
  eapply Forall2_impl; [done|]. simpl. intros p blk [Hne Hall]. split; [done|].
  eapply Forall_impl; [done|]. simpl. intros e <-. by rewrite partition_of_div.
Qed.

End Grouping_facts.

(** ** Lists of lists *)

Section List_facts.

Context {A : Type}.

Lemma fmap_concat {B} (f : A → B) (ls : list (list A)) :
  f <$> concat ls = concat ((λ l : list A, f <$> l) <$> ls).
Proof. induction ls as [|l ls IH]; simpl; [done|]. by rewrite fmap_app, IH. Qed.

Lemma concat_concat (lss : list (list (list A))) :
  concat (concat lss) = concat ((λ ls : list (list A), concat ls) <$> lss).
Proof. induction lss as [|ls lss IH]; simpl; [done|]. by rewrite concat_app, IH. Qed.

Lemma concat_perm (ls ls' : list (list A)) :
  Forall2 (≡ₚ) ls ls' → concat ls ≡ₚ concat ls'.
Proof. induction 1 as [|l l' ls ls' Hl _ IH]; simpl; [done|]. by rewrite Hl, IH. Qed.

Lemma StronglySorted_mono (R R' : relation A) (l : list A) :
  (∀ x y, R x y → R' x y) → StronglySorted R l → StronglySorted R' l.
Proof.
  intros HR. induction 1 as [|x l _ IH Hx]; constructor; [done|].
  eapply Forall_impl; [done|]. auto.
Qed.

(** Prepending [x] to one of the lists that are concatenated. *)
Lemma concat_cons_at (g g' : nat → list A) (x : A) (i0 s n : nat) :
  (s ≤ i0 < s + n)%nat →
  g' i0 = x :: g i0 →
  (∀ i, i ≠ i0 → g' i = g i) →
  concat (g' <$> seq s n) ≡ₚ x :: concat (g <$> seq s n).
Proof.
  intros Hi0 Hat Hother. revert s Hi0.
  induction n as [|n IH]; intros s Hi0; [lia|].
  cbn [seq]. rewrite !fmap_cons. cbn [concat].
  destruct (decide (s = i0)) as [->|Hne].
  - rewrite Hat.
    assert (g' <$> seq (S i0) n = g <$> seq (S i0) n) as ->; [|done].
    apply list_fmap_ext. intros j i Hj.
    apply Hother. apply lookup_seq in Hj. lia.
  - rewrite Hother by done. rewrite IH by lia. by rewrite <-Permutation_middle.
Qed.

(** Splitting a list by a function into [n] classes loses nothing. *)
Lemma concat_filter_perm (f : A → N) (n : nat) (l : list A) :
  Forall (λ x, f x < N.of_nat n) l →
  concat ((λ i, filter (λ x, f x = N.of_nat i) l) <$> seq 0 n) ≡ₚ l.
Proof.
  induction 1 as [|x l Hx _ IH].
  - generalize 0%nat. induction n as [|n IHn]; intros s; simpl; [done|]. apply IHn.
  - etrans; [|apply Permutation_skip, IH].
    apply (concat_cons_at (λ i, filter (λ y, f y = N.of_nat i) l) _ x (N.to_nat (f x)));
      [lia|..].
    + rewrite filter_cons_True; [done|]. lia.
    + intros i Hi. rewrite filter_cons_False; [done|]. lia.
Qed.

(** Concatenating sorted lists of ascending rank gives a sorted list. *)
Lemma rank_lower_bound (rank : A → N) (p : N) (ps : list N) (ls : list (list A)) :
  Forall (N.lt p) ps →
  Forall2 (λ q l, Forall (λ x, rank x = q) l) ps ls →
  Forall (λ y, p < rank y) (concat ls).
Proof.
  intros Hp Hrank. induction Hrank as [|q l ps ls Hl _ IH]; simpl; [done|].
  apply Forall_cons in Hp as [Hq Hp]. apply Forall_app. split; [|by apply IH].
  eapply Forall_impl; [done|]. simpl. by intros y ->.
Qed.

Lemma sorted_concat_by_rank (R : relation A) (rank : A → N) (ps : list N)
    (ls : list (list A)) :
  (∀ x y, rank x < rank y → R x y) →
  StronglySorted N.lt ps →
  Forall2 (λ p l, Forall (λ x, rank x = p) l ∧ StronglySorted R l) ps ls →
  StronglySorted R (concat ls).
Proof.
  intros HR Hps Hls. induction Hls as [|p l ps ls [Hrank Hl] Hls IH]; simpl; [constructor|].
  apply StronglySorted_cons in Hps as [Hp Hps].
  apply StronglySorted_app. split; [|split; [done|by apply IH]].
  intros x1 x2 Hx1 Hx2. apply HR.
  rewrite (proj1 (Forall_forall _ _) Hrank x1 Hx1).
  assert (Forall (λ y, p < rank y) (concat ls)) as Hbound.
  { apply (rank_lower_bound rank p ps); [done|].
    eapply Forall2_impl; [done|]. by intros ?? [? _]. }
  by apply (proj1 (Forall_forall _ _) Hbound).
Qed.

Lemma N_range_seq (from : N) (count : nat) :
  N_range from count = (λ j, from + N.of_nat j) <$> seq 0 count.
Proof.
  revert from. induction count as [|count IH]; intros from; simpl; [done|].
  f_equal; [lia|]. rewrite IH, <-fmap_S_seq, <-list_fmap_compose.
  apply list_fmap_ext. intros ???. simpl. lia.
Qed.

Lemma N_range_sorted (from : N) (count : nat) : StronglySorted N.lt (N_range from count).
Proof.
  revert from. induction count as [|count IH]; intros from; simpl; constructor; [done|].
  rewrite N_range_seq. apply Forall_fmap, Forall_forall. intros j _. simpl. lia.
Qed.

End List_facts.

(** ** The output of [read] on a finalized engine *)

Section Grouped_facts.

Context {T : Type} `{Entry T} `{KeyFn T}.

Lemma table_push_concat (p : N) (e : T) (table : gmap N (list T)) :
  concat ((map_to_list (table_push p e table)).*2)
  ≡ₚ e :: concat ((map_to_list table).*2).
Proof.
  unfold table_push. rewrite lookup_total_alt.
  destruct (table !! p) as [blk|] eqn:Hp; simpl.
  - rewrite <-insert_delete_eq, map_to_list_insert by apply lookup_delete_eq.
    rewrite <-(map_to_list_delete table p blk Hp). simpl.
    rewrite <-(assoc_L (++)). simpl. by rewrite <-Permutation_middle.
  - by rewrite map_to_list_insert.
Qed.

Lemma group_table_concat (M : N) (recs : list T) (table : gmap N (list T)) :
  concat ((map_to_list (group_table M table recs)).*2)
  ≡ₚ concat ((map_to_list table).*2) ++ recs.
Proof.
  revert table. induction recs as [|e recs IH]; intros table; simpl.
  - by rewrite app_nil_r.
  - rewrite IH, table_push_concat. by rewrite <-Permutation_middle.
Qed.

(** The sub-blocks of a bucket hold the records of the bucket. *)
Lemma grouped_perm (M : N) (recs : list T) : concat (grouped M recs) ≡ₚ recs.
Proof.
  unfold grouped. destruct (ordered_spec (group_table M ∅ recs)) as [_ ->].
  rewrite group_table_concat. by rewrite map_to_list_empty.
Qed.

Lemma table_inv_group_table (M : N) (recs : list T) (table : gmap N (list T)) :
  table_inv M table → table_inv M (group_table M table recs).
Proof.
  revert table. induction recs as [|e recs IH]; intros table Hinv; simpl; [done|].
  apply IH. by apply table_inv_push.
Qed.

Lemma key_lt_strict_weak_order :
  StrictWeakOrder (λ lhs rhs : T, bool_decide (key lhs < key rhs)).
Proof.
  split.
  - intros a. apply bool_decide_false. lia.
  - intros a b c ?%bool_decide_eq_true ?%bool_decide_eq_true.
    apply bool_decide_eq_true. lia.
  - intros a b c ?%bool_decide_eq_true. rewrite !bool_decide_eq_true. lia.
Qed.

Lemma partition_of_mono `{!KeyLaws T} (M : N) (x y : T) :
  M ≠ 0 → partition_of M x < partition_of M y → key x ≤ key y.
Proof.
  intros HM. rewrite !partition_of_div. intros Hlt.
  destruct (decide (key x ≤ key y)) as [|Hgt]; [done|].
  assert (key y `div` M ≤ key x `div` M) by (apply N.Div0.div_le_mono; lia). lia.
Qed.

Lemma bucket_index_mono `{!KeyLaws T} (ks lg : Z) (x y : T) :
  bucket_index ks lg x < bucket_index ks lg y → key x ≤ key y.
Proof.
  unfold bucket_index.
  assert (∀ e : T, size_t (N.shiftr (key e) (Z.to_N (ks - lg)))
                   = key e `div` 2 ^ Z.to_N (ks - lg)) as Hidx.
  { intros e. rewrite N.shiftr_div_pow2. apply size_t_small.
    pose proof (key_fits e).
    pose proof (N.Div0.div_le_upper_bound (key e) (2 ^ Z.to_N (ks - lg)) (key e)).
    assert (0 < 2 ^ Z.to_N (ks - lg)) by (apply N.neq_0_lt_0, N.pow_nonzero; lia). nia. }
  rewrite !Hidx. intros Hlt.
  destruct (decide (key x ≤ key y)) as [|Hgt]; [done|].
  assert (key y `div` 2 ^ Z.to_N (ks - lg) ≤ key x `div` 2 ^ Z.to_N (ks - lg))
    by (apply N.Div0.div_le_mono; lia). lia.
Qed.

End Grouped_facts.

Section Sorted_output.

Context {T : Type} `{Entry T} `{KeyFn T} `{StdSort T} `{Vector T}.
Context `{!EntryLaws T} `{!KeyLaws T} `{!StdSortLaws T}.

Lemma sort_bucket_blocks (input : list (list T)) :
  block <$> sort_bucket input []
  = std_sort (λ lhs rhs, bool_decide (key lhs < key rhs)) <$> input.
Proof. apply sort_bucket_loop_blocks. Qed.

Lemma bucket_records_perm (M : N) (recs : list T) :
  records_of (sort_bucket (grouped M recs) []) ≡ₚ recs.
Proof.
  unfold records_of. rewrite sort_bucket_blocks.
  rewrite <-(grouped_perm M recs) at 2. apply concat_perm.
  apply Forall2_fmap_l, Forall_Forall2_diag, Forall_forall.
  intros blk _. apply std_sort_perm.
Qed.

Lemma bucket_records_sorted (M : N) (recs : list T) :
  M ≠ 0 →
  StronglySorted (λ a b, key a ≤ key b) (records_of (sort_bucket (grouped M recs) [])).
Proof.
  intros HM. unfold records_of. rewrite sort_bucket_blocks.
  destruct (ordered_blocks M (group_table M ∅ recs)) as (ps & Hps & Hblocks).
  { apply table_inv_group_table, table_inv_empty. }
  apply (sorted_concat_by_rank _ (partition_of M) ps); [|done|].
  - intros x y. by apply partition_of_mono.
  - apply Forall2_fmap_r. eapply Forall2_impl; [exact Hblocks|].
    simpl. intros p blk [_ Hall]. split.
    + by rewrite std_sort_perm.
    + eapply StronglySorted_mono; [|apply std_sort_sorted, key_lt_strict_weak_order].
      simpl. intros a b Hab. apply bool_decide_eq_false in Hab. lia.
Qed.

Lemma bucket_units_finalized (M : N) (w w' : world) (i : nat) (b : bucket_t)
    (recs : list T) (blocks : list (list T)) :
  buckets (this w) !! i = Some b →
  bucket_holds (fs w) b recs →
  read_bucket (N.of_nat i) M w = Returns blocks w' →
  bucket_units M w (N.of_nat i) = sort_bucket (grouped M recs) [].
Proof.
  intros Hb Hholds Hread. unfold bucket_units. rewrite Hread.
  apply (read_bucket_spec M (N.of_nat i) recs b) in Hread as [-> _];
    [done|by rewrite Nat2N.id|done].
Qed.

(** C1: take a run of the constructor, any successful [add] calls,
    [finish] and a [read] that returns.  The units forwarded are those of
    bucket 0, then those of bucket 1, and so on; their records, taken in
    order, are a rearrangement of the ingested records, and their keys
    never decrease. *)
Theorem read_sorted_permutation (cap : N) (ks lg nt : Z) (file_prefix : string)
    (fs0 fs1 : filesystem) (d : DiskSort) (entries : list T) (w1 w2 w3 : world) (M : N)
    (outs : list (output_t T)) :
  cap ≤ PTRDIFF_MAX →
  M ≠ 0 →
  DiskSort_new cap ks lg nt file_prefix fs0 = Returns d fs1 →
  add_all entries {| this := d; fs := fs1 |} = Returns () w1 →
  finish w1 = Returns () w2 →
  read M w2 = Returns outs w3 →
  outs = concat (bucket_units M w2 <$> N_range 0 (length (buckets (this w2))))
  ∧ records_of outs ≡ₚ entries
  ∧ StronglySorted (λ a b, key a ≤ key b) (records_of outs).
Proof.
  intros Hcap HM Hnew Hall Hfinish Hread.
  pose proof (finished_holds _ _ _ _ _ _ _ _ _ _ _ Hcap Hnew Hall Hfinish) as Hholds.
  destruct (ingested_inv _ _ _ _ _ _ _ _ _ _ Hcap Hnew Hall) as (Hinv1 & Hks & Hlg & _).
  destruct (DiskSort_new_inv _ _ _ _ _ _ _ _ Hcap Hnew) as (Hinv0 & Hks0 & Hlg0 & _).
  pose proof (add_all_indices _ _ _ _ Hinv0 Hall) as Hidx. simpl in Hidx.
  destruct (add_all_inv _ _ _ _ Hinv0 Hall) as (_ & (_ & _ & _ & Hlen1 & _) & _).
  destruct (finish_inv _ _ _ Hinv1 Hfinish) as (_ & (_ & _ & _ & Hlen2 & _) & _).
  simpl in Hlen1. rewrite Hks0, Hlg0, <-Hlen1, <-Hlen2 in Hidx.
  destruct (read_decompose _ _ _ _ Hread) as [Houts Hreads].
  set (n := length (buckets (this w2))) in *.
  set (mine := λ i : nat, filter (λ e, bucket_index ks lg e = N.of_nat i) entries).
  assert (Hunits : ∀ i, (i < n)%nat →
            bucket_units M w2 (N.of_nat i) = sort_bucket (grouped M (mine i)) []).
  { intros i Hi. destruct (lookup_lt_is_Some_2 (buckets (this w2)) i Hi) as [b Hb].
    assert (N.of_nat i ∈ N_range 0 n) as Hin.
    { rewrite N_range_seq. apply list_elem_of_fmap. exists i. split; [lia|].
      apply elem_of_seq. lia. }
    destruct (proj1 (Forall_forall _ _) Hreads _ Hin) as (blocks & w' & Hrb).
    apply (bucket_units_finalized M w2 w' i b _ blocks); [done| |done].
    by apply (Hholds i b). }
  split; [done|].
  assert (records_of outs
          = concat ((λ i, records_of (sort_bucket (grouped M (mine i)) [])) <$> seq 0 n))
    as ->.
  { unfold records_of at 1. rewrite Houts, fmap_concat, concat_concat.
    rewrite N_range_seq, <-!list_fmap_compose. f_equal.
    apply list_fmap_ext. intros j i Hj. apply lookup_seq in Hj as [-> Hi]. simpl.
    by rewrite N.add_0_l, Hunits. }
  split.
  - etrans; [|apply (concat_filter_perm (bucket_index ks lg) n entries Hidx)].
    apply concat_perm, Forall2_fmap, Forall_Forall2_diag, Forall_forall.
    intros i _. apply bucket_records_perm.
  - apply (sorted_concat_by_rank _ (bucket_index ks lg) (N_range 0 n)).
    + intros x y. apply bucket_index_mono.
    + apply N_range_sorted.
    + rewrite N_range_seq. apply Forall2_fmap, Forall_Forall2_diag, Forall_forall.
      intros i _. split; [|by apply bucket_records_sorted].
      rewrite bucket_records_perm. apply Forall_forall.
      intros e [He _]%list_elem_of_filter. by rewrite N.add_0_l.
Qed.

End Sorted_output.

(** ** Teardown *)

Section Clear_facts.

(** What a [clear] that returns has done: every stream is closed and
    every bucket file is gone. *)
Lemma clear_returns (w w' : world) :
  clear w = Returns () w' →
  length (buckets (this w')) = length (buckets (this w))
  ∧ Forall (λ b, file b = None) (buckets (this w'))
  ∧ Forall (λ b, disk (fs w') !! file_name b = None) (buckets (this w')).
Proof.
  unfold clear, for_buckets. cbv beta iota zeta delta [io_bind get_state]. intros Hloop.
  apply (for_range_returns (λ i s,
    length (buckets (this s)) = length (buckets (this w))
    ∧ ∀ j b, N.of_nat j < i → buckets (this s) !! j = Some b →
        file b = None ∧ disk (fs s) !! file_name b = None)) in Hloop.
  - destruct Hloop as [Hlen Hdone]. split; [done|].
    split; apply Forall_lookup; intros j b Hb;
      (apply (Hdone j b); [|done]); apply lookup_lt_Some in Hb; lia.
  - split; [done|]. intros j b Hj. lia.
  - intros i t t' Hi [Hlen Hdone]. io_unfold.
    destruct (buckets (this t) !! N.to_nat i) as [b|] eqn:Hb; [|done].
    destruct (file b) as [f|]; [|done]. unfold remove. simpl.
    assert (∀ name, (match disk (fs t) !! file_name b with
                     | Some content =>
                         {| disk := delete (file_name b) (disk (fs t));
                            free_space := free_space (fs t) + N.of_nat (length content) |}
                     | None => fs t
                     end = fs t' → disk (fs t) !! name = None ∨ name = file_name b →
                     disk (fs t') !! name = None)) as Hgone.
    { intros name <- Hname. destruct (disk (fs t) !! file_name b) eqn:Hdisk; simpl.
      - rewrite lookup_delete. case_decide; [done|]. by destruct Hname.
      - destruct Hname as [ | -> ]; done. }
    destruct (disk (fs t) !! file_name b) eqn:Hdisk; intros [= <-]; simpl in *;
      (split; [by rewrite length_insert|]);
      intros j bj Hj Hbj;
      (destruct (decide (j = N.to_nat i)) as [->|Hne];
       [rewrite list_lookup_insert_eq in Hbj by (by eapply lookup_lt_Some);
        injection Hbj as <-; simpl; split; [done|]; by apply Hgone; [|right]
       |rewrite list_lookup_insert_ne in Hbj by done;
        destruct (Hdone j bj) as [Hf Hd]; [lia|done|];
        split; [done|]; by apply Hgone; [|left]]).
Qed.

(** [clear] on an engine whose first stream is already closed. *)
Lemma clear_closed (w : world) (b : bucket_t) :
  buckets (this w) !! 0%nat = Some b → file b = None →
  clear w = Throws (undefined_behaviour "fclose(nullptr)") w.
Proof.
  intros Hb Hfile. unfold clear, for_buckets. cbv beta iota zeta delta [io_bind get_state].
  destruct (buckets (this w)) as [|b0 bs] eqn:Hbs; [done|]. simpl in Hb. injection Hb as ->.
  simpl. io_unfold. rewrite Hbs. simpl. by rewrite Hfile.
Qed.

(** [clear] returns when every stream is open. *)
Lemma clear_total (w : world) :
  Forall (λ b, file b ≠ None) (buckets (this w)) →
  ∃ w', clear w = Returns () w'.
Proof.
  intros Hopen. unfold clear, for_buckets. cbv beta iota zeta delta [io_bind get_state].
  destruct (for_range_total (λ i s,
    length (buckets (this s)) = length (buckets (this w))
    ∧ ∀ j b, i ≤ N.of_nat j → buckets (this s) !! j = Some b → file b ≠ None)
    (length (buckets (this w))) 0
    (λ i, bucket <- bucket_at i ;;
          fclose (file bucket) ;;;
          set_bucket i {| file := None; file_name := file_name bucket;
                          offset := offset bucket; num_entries := num_entries bucket;
                          buffer := buffer bucket |} ;;;
          _ <- on_fs (remove (file_name bucket)) ;;
          io_ret ()) w) as (w' & Hrun & _); [| |by exists w'].
  - split; [done|]. intros j b _ Hb. by apply (proj1 (Forall_lookup _ _) Hopen j b).
  - intros i t Hi [Hlen Hrest]. io_unfold.
    destruct (lookup_lt_is_Some_2 (buckets (this t)) (N.to_nat i)) as [b Hb]; [lia|].
    rewrite Hb. pose proof (Hrest (N.to_nat i) b ltac:(lia) Hb) as Hfile.
    destruct (file b) as [f|]; [|done]. unfold remove. simpl.
    destruct (disk (fs t) !! file_name b); simpl;
      (eexists; split; [done|]; simpl);
      (split; [by rewrite length_insert|]);
      intros j bj Hj Hbj; rewrite list_lookup_insert_ne in Hbj by lia;
      (apply (Hrest j bj); [lia|done]).
Qed.

End Clear_facts.

Section Clear_after_finish.

Context {T : Type} `{Entry T} `{KeyFn T} `{!EntryLaws T}.

(** C8, as the code behaves: after the constructor, any run of successful
    [add] calls and [finish], [clear] returns, having closed every stream
    and removed every bucket file; a second [clear] then passes the null
    pointer of the first bucket to [fclose]. *)
Theorem clear_twice_undefined (cap : N) (ks lg nt : Z) (file_prefix : string)
    (fs0 fs1 : filesystem) (d : DiskSort) (entries : list T) (w1 w2 : world) :
  cap ≤ PTRDIFF_MAX →
  DiskSort_new cap ks lg nt file_prefix fs0 = Returns d fs1 →
  add_all entries {| this := d; fs := fs1 |} = Returns () w1 →
  finish w1 = Returns () w2 →
  ∃ w3,
    clear w2 = Returns () w3
    ∧ Forall (λ b, file b = None ∧ disk (fs w3) !! file_name b = None) (buckets (this w3))
    ∧ clear w3 = Throws (undefined_behaviour "fclose(nullptr)") w3.
Proof.
  intros Hcap Hnew Hall Hfinish.
  destruct (ingested_inv _ _ _ _ _ _ _ _ _ _ Hcap Hnew Hall) as (Hinv1 & _ & Hlg & _ & Hsize).
  destruct (finish_inv _ _ _ Hinv1 Hfinish) as (Hinv2 & (_ & _ & _ & Hlen2 & _) & _).
  assert (buckets (this w2) ≠ []) as Hne.
  { revert Hnew. unfold DiskSort_new.
    cbv beta iota zeta delta [io_bind io_ret throw int_shift_left].
    case_bool_decide as Hshift; [|done]. intros _.
    assert (0 < Z.shiftl 1 lg)%Z by (rewrite Z.shiftl_1_l; apply Z.pow_pos_nonneg; lia).
    intros Hnil. rewrite Hnil in Hlen2. simpl in Hlen2. lia. }
  destruct (clear_total w2) as [w3 Hclear].
  { apply Forall_lookup. intros j b Hb. destruct (proj2 Hinv2 _ _ Hb) as [Hstream _ _ _ _].
    by rewrite Hstream. }
  exists w3. split; [done|].
  destruct (clear_returns _ _ Hclear) as (Hlen & Hfiles & Hgone).
  split.
  - apply Forall_lookup. intros j b Hb. split.
    + by apply (proj1 (Forall_lookup _ _) Hfiles j b).
    + by apply (proj1 (Forall_lookup _ _) Hgone j b).
  - destruct (buckets (this w3)) as [|b bs] eqn:Hbs.
    + destruct (buckets (this w2)); [done|]. simpl in Hlen. lia.
    + apply (clear_closed w3 b); [by rewrite Hbs|].
      by apply Forall_cons in Hfiles as [? _].
Qed.

End Clear_after_finish.


(** ** The one-byte instance *)

Module ByteEntryFacts.
Import ByteEntry.

Lemma byte_entry_laws : EntryLaws byte.
Proof. split; [done|done|done]. Qed.

Lemma byte_key_laws : KeyLaws byte.
Proof.
  intros b. unfold key, byte_key, SIZE_MAX. pose proof (Byte.to_N_bounded b). lia.
Qed.

Lemma byte_sort_laws : StdSortLaws byte.
Proof.
  split.
  - intros comp l. apply merge_sort_Permutation.
  - intros comp l [Hirr Htrans Hcotrans]. apply StronglySorted_merge_sort.
    + intros a b c Hab Hbc. destruct (comp c a) eqn:Hca; [|done].
      destruct (Hcotrans c b a Hca); congruence.
    + intros a b. destruct (comp b a) eqn:Hba; [|by left].
      right. destruct (comp a b) eqn:Hab; [|done].
      pose proof (Htrans a b a Hab Hba). pose proof (Hirr a). congruence.
Qed.

(** The scenario of four buckets over 8-bit keys: the keys
    5, 130, 200, 6, 199 come back as 5, 6, 130, 199, 200. *)
Example scenario_keys :
  match read 64 (after finish (after (add_all (of_keys [5; 130; 200; 6; 199]))
                                 (start 4 8 2 (empty_fs 1000)))) with
  | Returns outs _ => key <$> concat (block <$> outs) = [5; 6; 130; 199; 200]
  | Throws _ _ => False
  end.
Proof. vm_compute. reflexivity. Qed.

(** The same scenario with its markers: every bucket that holds records
    yields one sub-block here, which is both first and last. *)
Example scenario_units :
  value [] (read 64) (after finish (after (add_all (of_keys [5; 130; 200; 6; 199]))
                                      (start 4 8 2 (empty_fs 1000))))
  = [ {| is_begin := true; is_end := true; block := ["005"; "006"] |};
      {| is_begin := true; is_end := true; block := ["130"] |};
      {| is_begin := true; is_end := true; block := ["199"; "200"] |} ]%byte.
Proof. vm_compute. reflexivity. Qed.

End ByteEntryFacts.

(** ** The theorems at a concrete run *)

Lemma read_sorted_permutation_witness :
  let outs := ByteEntry.value [] (read 4) ByteEntry.demo_finished in
  outs = concat (bucket_units 4 ByteEntry.demo_finished
                   <$> N_range 0 (length (buckets (this ByteEntry.demo_finished))))
  ∧ records_of outs ≡ₚ ByteEntry.demo_entries
  ∧ StronglySorted (λ a b, key a ≤ key b) (records_of outs).
Proof.
  apply (read_sorted_permutation (EntryLaws0 := ByteEntryFacts.byte_entry_laws)
           (KeyLaws0 := ByteEntryFacts.byte_key_laws)
           (StdSortLaws0 := ByteEntryFacts.byte_sort_laws)
           4 8 2 1 "plot" (ByteEntry.empty_fs 1000) (fs ByteEntry.demo_new)
           (this ByteEntry.demo_new) ByteEntry.demo_entries ByteEntry.demo_ingested
           ByteEntry.demo_finished (ByteEntry.after (read 4) ByteEntry.demo_finished) 4).
  - vm_compute. discriminate.
  - discriminate.
  - vm_compute. reflexivity.
  - vm_compute. reflexivity.
  - vm_compute. reflexivity.
  - vm_compute. reflexivity.
Defined.

Lemma sub_blocks_partitioned_witness :
  ∃ ps : list N,
    StronglySorted N.lt ps
    ∧ Forall2 (λ p blk, blk ≠ [] ∧ Forall (λ e, key e `div` 4 = p) blk) ps
        (ByteEntry.value [] (read_bucket 0 4) ByteEntry.demo_finished).
Proof.
  apply (sub_blocks_partitioned (KeyLaws0 := ByteEntryFacts.byte_key_laws)
           0 4 ByteEntry.demo_finished
           (ByteEntry.after (read_bucket 0 4) ByteEntry.demo_finished)).
  vm_compute. reflexivity.
Defined.

Lemma sort_bucket_flags_witness :
  length (sort_bucket [["002"; "001"]; ["007"]; ["009"; "008"]]%byte []) = 3%nat
  ∧ ∀ (i : nat) (u : output_t byte),
      sort_bucket [["002"; "001"]; ["007"]; ["009"; "008"]]%byte [] !! i = Some u →
      is_begin u = bool_decide (i = 0%nat) ∧ is_end u = bool_decide (i = 2%nat).
Proof.
  apply (sort_bucket_flags [["002"; "001"]; ["007"]; ["009"; "008"]]%byte).
  vm_compute. discriminate.
Defined.

Lemma add_flushes_before_overflow_witness :
  ∃ (index : nat) b content,
    N.of_nat index = bucket_index 8 2 "003"%byte
    ∧ buckets (this ByteEntry.demo_full) !! index = Some b
    ∧ disk (fs ByteEntry.demo_full) !! file_name b = Some content
    ∧ N.of_nat (length (buffer b)) = 4
    ∧ offset b ≤ 4
    ∧ (if decide (offset b + disk_size ≤ 4)
       then ByteEntry.after (add "003"%byte) ByteEntry.demo_full
            = update_bucket ByteEntry.demo_full index (stored b "003"%byte)
                (fs ByteEntry.demo_full)
       else disk_size ≤ 4
            ∧ ByteEntry.after (add "003"%byte) ByteEntry.demo_full
              = update_bucket ByteEntry.demo_full index (stored (flushed b) "003"%byte)
                  (flushed_fs (fs ByteEntry.demo_full) b content))
    ∧ Forall (λ b', N.of_nat (length (buffer b')) = 4 ∧ offset b' ≤ 4)
        (buckets (this (ByteEntry.after (add "003"%byte) ByteEntry.demo_full))).
Proof.
  apply (add_flushes_before_overflow (EntryLaws0 := ByteEntryFacts.byte_entry_laws)
           4 8 2 1 "plot" (ByteEntry.empty_fs 1000) (fs ByteEntry.demo_new)
           (this ByteEntry.demo_new) (ByteEntry.of_keys [5; 130; 200; 6; 199; 1; 2])).
  - vm_compute. discriminate.
  - vm_compute. reflexivity.
  - vm_compute. reflexivity.
  - vm_compute. reflexivity.
Defined.

Lemma add_after_finish_witness :
  add "200"%byte ByteEntry.demo_finished
  = Throws (logic_error "read only") ByteEntry.demo_finished.
Proof.
  apply (add_after_finish "200"%byte ByteEntry.demo_ingested).
  vm_compute. reflexivity.
Defined.

Lemma add_index_out_of_range_witness :
  add "255"%byte (ByteEntry.start 4 7 1 (ByteEntry.empty_fs 1000))
  = Throws (logic_error "index out of range") (ByteEntry.start 4 7 1 (ByteEntry.empty_fs 1000)).
Proof.
  apply add_index_out_of_range.
  - vm_compute. reflexivity.
  - vm_compute. split; [discriminate|reflexivity].
  - vm_compute. discriminate.
Defined.

(** C7 as stated fails on a finished engine: the record with key 255 has
    bucket index 3 in an engine of two buckets, and [add] throws "read
    only", not "index out of range". *)
Lemma add_out_of_range_when_finished :
  N.of_nat (length (buckets (this ByteEntry.narrow_finished)))
    ≤ bucket_index (key_size (this ByteEntry.narrow_finished))
        (log_num_buckets (this ByteEntry.narrow_finished)) "255"%byte
  ∧ add "255"%byte ByteEntry.narrow_finished
    = Throws (logic_error "read only") ByteEntry.narrow_finished
  ∧ add "255"%byte ByteEntry.narrow_finished
    ≠ Throws (logic_error "index out of range") ByteEntry.narrow_finished.
Proof.
  split; [vm_compute; discriminate|].
  assert (add "255"%byte ByteEntry.narrow_finished
          = Throws (logic_error "read only") ByteEntry.narrow_finished) as Hadd
    by (vm_compute; reflexivity).
  split; [done|]. rewrite Hadd. discriminate.
Qed.

Lemma clear_twice_undefined_witness :
  ∃ w3,
    clear ByteEntry.demo_finished = Returns () w3
    ∧ Forall (λ b, file b = None ∧ disk (fs w3) !! file_name b = None) (buckets (this w3))
    ∧ clear w3 = Throws (undefined_behaviour "fclose(nullptr)") w3.
Proof.
  apply (clear_twice_undefined (EntryLaws0 := ByteEntryFacts.byte_entry_laws)
           4 8 2 1 "plot" (ByteEntry.empty_fs 1000) (fs ByteEntry.demo_new)
           (this ByteEntry.demo_new) ByteEntry.demo_entries ByteEntry.demo_ingested).
  - vm_compute. discriminate.
  - vm_compute. reflexivity.
  - vm_compute. reflexivity.
  - vm_compute. reflexivity.
Defined.

Lemma empty_bucket_emits_nothing_witness :
  ByteEntry.value [] (read 64) ByteEntry.demo_finished
  = concat (bucket_units 64 ByteEntry.demo_finished
              <$> N_range 0 (length (buckets (this ByteEntry.demo_finished))))
  ∧ ∀ (i : nat) b,
      buckets (this ByteEntry.demo_finished) !! i = Some b → num_entries b = 0 →
      (∃ w1, read_bucket (N.of_nat i) 64 ByteEntry.demo_finished = Returns [] w1)
      ∧ sort_bucket (@nil (list byte)) [] = []
      ∧ bucket_units 64 ByteEntry.demo_finished (N.of_nat i) = [].
Proof.
  apply (empty_bucket_emits_nothing 64 ByteEntry.demo_finished ByteEntry.demo_read).
  vm_compute. reflexivity.
Defined.

Lemma read_twice_witness :
  same_data ByteEntry.demo_finished ByteEntry.demo_read
  ∧ ∃ w'', read 64 ByteEntry.demo_read
           = Returns (ByteEntry.value [] (read 64) ByteEntry.demo_finished) w''
         ∧ same_data ByteEntry.demo_read w''.
Proof.
  apply (read_twice 64 ByteEntry.demo_finished ByteEntry.demo_read).
  vm_compute. reflexivity.
Defined.

(** ** Exceptions and the reach of [add] and [flush] *)

Section Exception_facts.

Context {T : Type} `{Entry T} `{KeyFn T}.

(** What a [flush] that returns has done, in any state. *)
Lemma flush_returns (index : N) (w w' : world) :
  flush index w = Returns () w' →
  ∃ b f, buckets (this w) !! N.to_nat index = Some b
    ∧ file b = Some f
    ∧ this w' = with_buckets (this w) (<[N.to_nat index:=flushed b]> (buckets (this w)))
    ∧ ∀ name, name ≠ stream_path f → disk (fs w') !! name = disk (fs w) !! name.
Proof.
  unfold flush. io_unfold.
  destruct (buckets (this w) !! N.to_nat index) as [b|] eqn:Hb; [|done].
  destruct (file b) as [f|] eqn:Hf; [|done]. unfold fwrite.
  destruct (stream_mode f), (disk (fs w) !! stream_path f); simpl;
    (case_bool_decide; [done|]); intros [= <-]; exists b, f; simpl;
    (split; [done|]); (split; [done|]); (split; [unfold flushed; by rewrite Hf|]);
    intros name Hname; by rewrite ?lookup_insert_ne.
Qed.

(** How [flush] throws: a short write leaves the object as it was, and
    everything else is undefined behaviour in an untouched state. *)
Lemma flush_throws (index : N) (w w' : world) (e : exn) :
  flush index w = Throws e w' →
  (e = runtime_error "fwrite() failed" ∧ this w' = this w)
  ∨ (∃ s, e = undefined_behaviour s ∧ w' = w).
Proof.
  unfold flush. io_unfold.
  destruct (buckets (this w) !! N.to_nat index) as [b|] eqn:Hb;
    [|intros [= <- <-]; right; by eexists].
  destruct (file b) as [f|] eqn:Hf; [|intros [= <- <-]; right; by eexists].
  unfold fwrite.
  destruct (stream_mode f), (disk (fs w) !! stream_path f); simpl;
    (case_bool_decide; [|done]); intros [= <- <-]; by left.
Qed.

(** Every way in which [add] throws. *)
Lemma add_throws_cases (entry : T) (w w' : world) (e : exn) :
  add entry w = Throws e w' →
  (e = logic_error "read only" ∧ w' = w ∧ is_finished (this w) = true)
  ∨ (e = logic_error "index out of range" ∧ w' = w
     ∧ N.of_nat (length (buckets (this w)))
       ≤ bucket_index (key_size (this w)) (log_num_buckets (this w)) entry)
  ∨ (e = runtime_error "fwrite() failed" ∧ this w' = this w)
  ∨ (∃ s, e = undefined_behaviour s).
Proof.
  unfold add, bucket_index.
  cbv beta iota zeta delta [io_bind get_state throw shift_right io_ret].
  destruct (is_finished (this w)); [intros [= <- <-]; auto|].
  case_bool_decide; [|intros [= <- <-]; do 3 right; by eexists].
  case_bool_decide; [intros [= <- <-]; auto|].
  destruct (bucket_at _ w) as [b w0|e0 w0] eqn:Hb.
  - assert (w0 = w) as ->.
    { revert Hb. io_unfold. by destruct (_ !! _); intros [= ]. }
    assert (Htail : ∀ w1 : world,
      (match bucket_at (size_t (N.shiftr (key entry)
                 (Z.to_N (key_size (this w) - log_num_buckets (this w))))) w1 with
       | Returns a s' =>
           (if bool_decide (N.of_nat (length (buffer a))
                            < offset a + N.of_nat (length (entry_write entry)))
            then λ s : world, Throws (undefined_behaviour "write past the end of the buffer") s
            else set_bucket (size_t (N.shiftr (key entry)
                    (Z.to_N (key_size (this w) - log_num_buckets (this w)))))
                   {| file := file a; file_name := file_name a;
                      offset := size_t (offset a + N.of_nat (length (entry_write entry)));
                      num_entries := size_t (num_entries a + 1);
                      buffer := list_inserts (N.to_nat (offset a)) (entry_write entry)
                                  (buffer a) |}) s'
       | Throws e1 s' => Throws e1 s'
       end) = Throws e w' → ∃ s, e = undefined_behaviour s).
    { intros w1. io_unfold.
      destruct (buckets (this w1) !! _); [|intros [= <- <-]; by eexists].
      case_bool_decide; [intros [= <- <-]; by eexists|done]. }
    case_bool_decide.
    + destruct (flush _ w) as [[] w1|e1 w1] eqn:Hflush.
      * intros Hrun. do 3 right. by eapply Htail.
      * intros [= <- <-].
        destruct (flush_throws _ _ _ _ Hflush) as [[-> Hthis]|(s & -> & _)]; [auto|].
        do 3 right. by eexists.
    + intros Hrun. do 3 right. by eapply Htail.
  - revert Hb. io_unfold. destruct (_ !! _); [done|].
    intros [= <- <-] [= <- <-]. do 3 right. by eexists.
Qed.

(** X3: when [add] throws a C++ exception, every bucket (buffer, fill
    offset, record count, stream) and the rest of the object are as they
    were before the call.  The exception is "read only", "index out of
    range" or "fwrite() failed"; only in the last case may the file system
    differ, by the part of the buffer that was written. *)
Theorem add_exception_keeps_object (entry : T) (w w' : world) (e : exn) :
  add entry w = Throws e w' →
  (∀ s, e ≠ undefined_behaviour s) →
  this w' = this w
  ∧ (e = logic_error "read only" ∧ w' = w
     ∨ e = logic_error "index out of range" ∧ w' = w
     ∨ e = runtime_error "fwrite() failed").
Proof.
  intros Hadd Hdefined.
  destruct (add_throws_cases _ _ _ _ Hadd)
    as [(-> & -> & _)|[(-> & -> & _)|[(-> & Hthis)|(s & ->)]]]; auto.
  exfalso. by eapply Hdefined.
Qed.

(** X12: a successful [add] changes the bucket of its record and no
    other: that bucket keeps its file name and stream and counts one
    record more, every other bucket is the same as before, and so are the
    number of buckets and the configuration. *)
Theorem add_changes_one_bucket (entry : T) (w w' : world) :
  add entry w = Returns () w' →
  ∃ b b',
    buckets (this w)
      !! N.to_nat (bucket_index (key_size (this w)) (log_num_buckets (this w)) entry) = Some b
    ∧ buckets (this w')
        !! N.to_nat (bucket_index (key_size (this w)) (log_num_buckets (this w)) entry) = Some b'
    ∧ file_name b' = file_name b ∧ file b' = file b
    ∧ num_entries b' = size_t (num_entries b + 1)
    ∧ (∀ j, j ≠ N.to_nat (bucket_index (key_size (this w)) (log_num_buckets (this w)) entry) →
         buckets (this w') !! j = buckets (this w) !! j)
    ∧ length (buckets (this w')) = length (buckets (this w))
    ∧ key_size (this w') = key_size (this w)
    ∧ log_num_buckets (this w') = log_num_buckets (this w)
    ∧ is_finished (this w') = false.
Proof.
  unfold add, bucket_index.
  cbv beta iota zeta delta [io_bind get_state throw shift_right io_ret].
  destruct (is_finished (this w)) eqn:Hfin; [done|].
  case_bool_decide; [|done]. case_bool_decide; [done|].
  set (index := size_t (N.shiftr (key entry)
                  (Z.to_N (key_size (this w) - log_num_buckets (this w))))).
  destruct (bucket_at index w) as [b w0|] eqn:Hb; [|done].
  assert (w0 = w ∧ buckets (this w) !! N.to_nat index = Some b) as [-> Hb'].
  { revert Hb. io_unfold. by destruct (_ !! _); intros [= -> ->]. }
  assert (Htail : ∀ (w1 : world) (b1 : bucket_t),
    buckets (this w1) !! N.to_nat index = Some b1 →
    (match bucket_at index w1 with
     | Returns a s' =>
         (if bool_decide (N.of_nat (length (buffer a))
                          < offset a + N.of_nat (length (entry_write entry)))
          then λ s : world, Throws (undefined_behaviour "write past the end of the buffer") s
          else set_bucket index
                 {| file := file a; file_name := file_name a;
                    offset := size_t (offset a + N.of_nat (length (entry_write entry)));
                    num_entries := size_t (num_entries a + 1);
                    buffer := list_inserts (N.to_nat (offset a)) (entry_write entry)
                                (buffer a) |}) s'
     | Throws e1 s' => Throws e1 s'
     end) = Returns () w' →
    ∃ b', this w' = with_buckets (this w1) (<[N.to_nat index:=b']> (buckets (this w1)))
      ∧ file_name b' = file_name b1 ∧ file b' = file b1
      ∧ num_entries b' = size_t (num_entries b1 + 1)).
  { intros w1 b1 Hb1. io_unfold. rewrite Hb1. case_bool_decide; [done|].
    intros [= <-]. by eexists. }
  assert (Hdone : ∀ (w1 : world) (b1 b' : bucket_t),
    buckets (this w1) !! N.to_nat index = Some b1 →
    this w' = with_buckets (this w1) (<[N.to_nat index:=b']> (buckets (this w1))) →
    buckets (this w') !! N.to_nat index = Some b'
    ∧ (∀ j, j ≠ N.to_nat index → buckets (this w') !! j = buckets (this w1) !! j)
    ∧ length (buckets (this w')) = length (buckets (this w1))
    ∧ key_size (this w') = key_size (this w1)
    ∧ log_num_buckets (this w') = log_num_buckets (this w1)
    ∧ is_finished (this w') = is_finished (this w1)).
  { intros w1 b1 b' Hb1 ->. simpl. rewrite length_insert.
    split; [apply list_lookup_insert_eq; by eapply lookup_lt_Some|].
    split; [|done]. intros j Hj. by apply list_lookup_insert_ne. }
  case_bool_decide.
  - destruct (flush index w) as [[] w1|] eqn:Hflush; [|done]. intros Hrun.
    destruct (flush_returns _ _ _ Hflush) as (b0 & f & Hb0 & Hf & Hthis & _).
    assert (b0 = b) as -> by congruence.
    assert (buckets (this w1) !! N.to_nat index = Some (flushed b)) as Hb1.
    { rewrite Hthis. simpl. apply list_lookup_insert_eq. by eapply lookup_lt_Some. }
    destruct (Htail _ _ Hb1 Hrun) as (b' & Hw' & Hname & Hfile & Hnum).
    destruct (Hdone _ _ _ Hb1 Hw') as (Hlook & Hother & Hlen & Hks & Hlg & Hfin').
    exists b, b'. rewrite Hthis in Hother, Hlen, Hks, Hlg, Hfin'. simpl in *.
    rewrite length_insert in Hlen.
    repeat split; try done; try congruence.
    intros j Hj. rewrite Hother by done. by apply list_lookup_insert_ne.
  - intros Hrun. destruct (Htail _ _ Hb' Hrun) as (b' & Hw' & Hname & Hfile & Hnum).
    destruct (Hdone _ _ _ Hb' Hw') as (Hlook & Hother & Hlen & Hks & Hlg & Hfin').
    exists b, b'. repeat split; try done; congruence.
Qed.

End Exception_facts.

(** ** Calling [finish] again *)

Section Finish_facts.

Context {T : Type} `{Entry T} `{KeyFn T}.

Lemma fwrite_nil (f : FILE) (fs : filesystem) : fwrite [] f fs = Returns 0 fs.
Proof.
  unfold fwrite. destruct (stream_mode f); [|done].
  destruct (disk fs !! stream_path f) as [content|] eqn:Hdisk; [|done].
  simpl. rewrite N.min_0_l. simpl. rewrite app_nil_r, N.sub_0_r.
  rewrite insert_id by done. by destruct fs.
Qed.

(** A loop whose body changes nothing changes nothing. *)
Lemma for_range_id {St} (count : nat) (from : N) (body : N → io St ()) (s : St) :
  (∀ i, from ≤ i < from + N.of_nat count → body i s = Returns () s) →
  for_range count from body s = Returns () s.
Proof.
  revert from. induction count as [|count IH]; intros from Hbody; simpl; [done|].
  unfold io_bind. rewrite Hbody by lia. apply IH. intros i Hi. apply Hbody. lia.
Qed.

(** [flush] on a bucket with an empty buffer and an open stream. *)
Lemma flush_clean (index : N) (w : world) (b : bucket_t) :
  buckets (this w) !! N.to_nat index = Some b →
  offset b = 0 → file b ≠ None →
  flush index w = Returns () w.
Proof.
  intros Hb Hoff Hfile. unfold flush. io_unfold. rewrite Hb.
  destruct (file b) as [f|] eqn:Hf; [|done].
  rewrite Hoff. simpl. rewrite fwrite_nil. simpl. f_equal. rewrite <-Hf.
  assert ({| file := file b; file_name := file_name b; offset := 0;
             num_entries := num_entries b; buffer := buffer b |} = b) as ->
    by (destruct b; simpl in *; by subst).
  rewrite list_insert_id by done. by destruct w as [[] ?].
Qed.

Lemma finish_returns_clean (w w' : world) :
  finish w = Returns () w' →
  is_finished (this w') = true
  ∧ Forall (λ b, offset b = 0 ∧ file b ≠ None) (buckets (this w')).
Proof.
  unfold finish, for_buckets. cbv beta iota zeta delta [io_bind get_state set_finished].
  destruct (for_range _ _ _ w) as [[] w1|] eqn:Hloop; [|done]. intros [= <-]. simpl.
  split; [done|].
  apply (for_range_returns (λ i s,
    length (buckets (this s)) = length (buckets (this w))
    ∧ ∀ j b, N.of_nat j < i → buckets (this s) !! j = Some b →
        offset b = 0 ∧ file b ≠ None)) in Hloop.
  - destruct Hloop as [Hlen Hdone]. apply Forall_lookup. intros j b Hb.
    apply (Hdone j b); [|done]. apply lookup_lt_Some in Hb. lia.
  - split; [done|]. intros j b Hj. lia.
  - intros i t t' Hi [Hlen Hdone] Hflush.
    destruct (flush_returns _ _ _ Hflush) as (b & f & Hb & Hf & Hthis & _).
    rewrite Hthis. simpl. rewrite length_insert. split; [done|].
    intros j bj Hj Hbj. destruct (decide (j = N.to_nat i)) as [->|Hne].
    + rewrite list_lookup_insert_eq in Hbj by (by eapply lookup_lt_Some).
      injection Hbj as <-. simpl. by rewrite Hf.
    + rewrite list_lookup_insert_ne in Hbj by done. apply (Hdone j bj); [lia|done].
Qed.

(** X7: a [finish] that has returned can be called again: the second call
    returns and leaves the object and the file system exactly as they
    are. *)
Theorem finish_twice (w w' : world) :
  finish w = Returns () w' → finish w' = Returns () w'.
Proof.
  intros Hfinish. destruct (finish_returns_clean _ _ Hfinish) as [Hfin Hclean].
  unfold finish, for_buckets. cbv beta iota zeta delta [io_bind get_state set_finished].
  rewrite for_range_id.
  - f_equal. destruct w' as [[] ?]. simpl in *. by subst.
  - intros i Hi.
    destruct (lookup_lt_is_Some_2 (buckets (this w')) (N.to_nat i)) as [b Hb]; [lia|].
    destruct (proj1 (Forall_lookup _ _) Hclean _ _ Hb) as [Hoff Hfile].
    by apply (flush_clean i w' b).
Qed.

End Finish_facts.

(** ** Reading and teardown, in either order *)

Section Read_clear_facts.

Context {T : Type} `{Entry T} `{KeyFn T} `{StdSort T} `{Vector T}.

Lemma read_bucket_missing (index M : N) (w : world) (b : bucket_t) :
  buckets (this w) !! N.to_nat index = Some b →
  disk (fs w) !! file_name b = None →
  ∃ w', read_bucket index M w = Throws (runtime_error "fopen() failed") w'.
Proof.
  intros Hb Hdisk. unfold read_bucket.
  cbv beta iota zeta delta [io_bind io_ret throw get_state put_state on_fs set_bucket
    set_buckets bucket_at fclose fopen_rb].
  rewrite Hb.
  assert (∀ w0 : world,
            match file b with
            | Some _ => match file b with
                        | Some _ => λ s : world, Returns () s
                        | None => λ s, Throws (undefined_behaviour "fclose(nullptr)") s
                        end
            | None => λ s, Returns () s
            end w0 = Returns () w0) as -> by (by intros w0; destruct (file b)).
  rewrite Hdisk. by eexists.
Qed.

(** X6: once [clear] has returned, [read] fails: it cannot open the file
    of the first bucket and throws "fopen() failed". *)
Theorem read_after_clear (M : N) (w w' : world) :
  buckets (this w) ≠ [] →
  clear w = Returns () w' →
  ∃ w'', read M w' = Throws (runtime_error "fopen() failed") w''.
Proof.
  intros Hne Hclear. destruct (clear_returns _ _ Hclear) as (Hlen & _ & Hgone).
  destruct (buckets (this w')) as [|b bs] eqn:Hbs.
  { destruct (buckets (this w)); [done|]. simpl in Hlen. lia. }
  apply Forall_cons in Hgone as [Hb _].
  destruct (read_bucket_missing 0 M w' b) as [w'' Hrb]; [by rewrite Hbs|done|].
  exists w''. unfold read. cbv beta iota zeta delta [io_bind get_state].
  rewrite Hbs. simpl. unfold pool_take_copy, io_bind. by rewrite Hrb.
Qed.

(** The chunk loop touches the stream of its own bucket only, and leaves
    it open. *)
Lemma read_chunks_streams (index M num : N) (k : nat) :
  ∀ (i : N) (table table' : gmap N (list T)) (w w' : world),
    k = N.to_nat (num - i) →
    read_chunks index M num i table w = Returns table' w' →
    (∀ j, j ≠ N.to_nat index → buckets (this w') !! j = buckets (this w) !! j)
    ∧ ((∃ b, buckets (this w) !! N.to_nat index = Some b ∧ file b ≠ None) →
       ∃ b, buckets (this w') !! N.to_nat index = Some b ∧ file b ≠ None).
Proof.
  induction k as [k IH] using lt_wf_ind. intros i table table' w w' Hk.
  rewrite read_chunks_equation_1. destruct (decide (i < num)) as [Hlt|Hge]; simpl.
  - io_unfold.
    destruct (buckets (this w) !! N.to_nat index) as [b|] eqn:Hb; [|done].
    destruct (file b) as [f|]; [|done].
    destruct (fread_returns disk_size (chunk_N `min` (num - i)) f (fs w)) as [r ->].
    case_bool_decide; [done|]. case_bool_decide; [done|].
    destruct (group_chunk _ _ _ _ _ _) as [table1 w1|] eqn:Hchunk; [|done].
    apply group_chunk_returns in Hchunk as [_ ->]. intros Hrec.
    apply (IH (N.to_nat (num - (i + chunk_N `min` (num - i))))) in Hrec as [Hother Hopen];
      [|unfold chunk_N; lia|done].
    simpl in *. split.
    + intros j Hj. rewrite Hother by done. by apply list_lookup_insert_ne.
    + intros _. apply Hopen. eexists. split.
      * apply list_lookup_insert_eq. by eapply lookup_lt_Some.
      * done.
  - by intros [= <- <-].
Qed.

Lemma read_bucket_streams (index M : N) (w w' : world) (blocks : list (list T)) :
  read_bucket index M w = Returns blocks w' →
  (∀ j, j ≠ N.to_nat index → buckets (this w') !! j = buckets (this w) !! j)
  ∧ ∃ b, buckets (this w') !! N.to_nat index = Some b ∧ file b ≠ None.
Proof.
  unfold read_bucket.
  cbv beta iota zeta delta [io_bind io_ret throw get_state put_state on_fs set_bucket
    set_buckets bucket_at fclose fopen_rb].
  destruct (buckets (this w) !! N.to_nat index) as [b|] eqn:Hb; [|done].
  assert (∀ w0 : world,
            match file b with
            | Some _ => match file b with
                        | Some _ => λ s : world, Returns () s
                        | None => λ s, Throws (undefined_behaviour "fclose(nullptr)") s
                        end
            | None => λ s, Returns () s
            end w0 = Returns () w0) as -> by (by intros w0; destruct (file b)).
  destruct (disk (fs w) !! file_name b); simpl; [|done].
  destruct (read_chunks _ _ _ _ _ _) as [table w1|] eqn:Hchunks; [|done].
  intros [= <- <-].
  apply read_chunks_streams with (k := N.to_nat (num_entries b - 0)) in Hchunks
    as [Hother Hopen]; [|done].
  simpl in *. split.
  - intros j Hj. rewrite Hother by done. by apply list_lookup_insert_ne.
  - apply Hopen. eexists. split.
    + apply list_lookup_insert_eq. by eapply lookup_lt_Some.
    + done.
Qed.

Lemma read_loop_streams (count : nat) (i M : N) (forwarded outs : list (output_t T))
    (w w' : world) :
  read_loop count i M forwarded w = Returns outs w' →
  (∀ j b, i ≤ N.of_nat j < i + N.of_nat count → buckets (this w') !! j = Some b →
     file b ≠ None)
  ∧ (∀ j, ¬ (i ≤ N.of_nat j < i + N.of_nat count) →
       buckets (this w') !! j = buckets (this w) !! j).
Proof.
  revert i forwarded w. induction count as [|count IH]; intros i forwarded w; simpl.
  - intros [= <- <-]. split; [intros j b Hj; lia|done].
  - unfold pool_take_copy, io_bind, io_ret.
    destruct (read_bucket i M w) as [blocks w1|] eqn:Hrb; [|done]. intros Hrest.
    destruct (read_bucket_streams _ _ _ _ _ Hrb) as [Hother (b0 & Hb0 & Hf0)].
    destruct (IH _ _ _ Hrest) as [Hopen Hframe]. split.
    + intros j b Hj Hb. destruct (decide (N.of_nat j = i)) as [Hji|Hji].
      * rewrite Hframe in Hb by lia. replace j with (N.to_nat i) in Hb by lia. congruence.
      * apply (Hopen j b); [lia|done].
    + intros j Hj. rewrite Hframe by lia. apply Hother. lia.
Qed.

(** X8: after a [read] that has returned, every bucket has an open
    stream, so [clear] returns, and it leaves no stream open and no bucket
    file behind. *)
Theorem clear_after_read (M : N) (w w' : world) (outs : list (output_t T)) :
  read M w = Returns outs w' →
  Forall (λ b, file b ≠ None) (buckets (this w'))
  ∧ ∃ w'', clear w' = Returns () w''
      ∧ Forall (λ b, file b = None ∧ disk (fs w'') !! file_name b = None)
          (buckets (this w'')).
Proof.
  intros Hread.
  pose proof (read_frame M w) as Hfr. rewrite Hread in Hfr. simpl in Hfr.
  destruct Hfr as (_ & _ & _ & _ & _ & Hbs). apply Forall2_length in Hbs.
  revert Hread. unfold read. cbv beta iota zeta delta [io_bind get_state]. intros Hloop.
  destruct (read_loop_streams _ _ _ _ _ _ _ Hloop) as [Hopen _].
  assert (Forall (λ b, file b ≠ None) (buckets (this w'))) as Hall.
  { apply Forall_lookup. intros j b Hb. apply (Hopen j b); [|done].
    apply lookup_lt_Some in Hb. lia. }
  split; [done|]. destruct (clear_total w' Hall) as [w'' Hclear].
  exists w''. split; [done|].
  destruct (clear_returns _ _ Hclear) as (_ & Hfiles & Hgone).
  apply Forall_lookup. intros j b Hb. split.
  - by apply (proj1 (Forall_lookup _ _) Hfiles j b).
  - by apply (proj1 (Forall_lookup _ _) Hgone j b).
Qed.

End Read_clear_facts.

(** ** The constructor, the range check and the record counts *)

Section Constructor_facts.

Lemma open_buckets_fresh (cap : N) (count : nat) (i : N) (file_prefix : string)
    (fs fs' : filesystem) (bs : list bucket_t) :
  open_buckets cap count i file_prefix fs = Returns bs fs' →
  length bs = count
  ∧ (∀ j b, bs !! j = Some b →
       b = fresh_bucket cap file_prefix (i + N.of_nat j)
       ∧ disk fs' !! bucket_file_name file_prefix (i + N.of_nat j) = Some [])
  ∧ (∀ name, (∀ j, j < N.of_nat count → name ≠ bucket_file_name file_prefix (i + j)) →
       disk fs' !! name = disk fs !! name).
Proof.
  revert i fs fs' bs. induction count as [|count IH]; intros i fs fs' bs; simpl.
  - intros [= <- <-]. split; [done|]. split; [|done]. intros j b Hj. by destruct j.
  - cbv beta iota zeta delta [io_bind io_ret fopen_wb].
    destruct (open_buckets _ _ _ _ _) as [rest fs2|] eqn:Hrest; [|done].
    intros [= <- <-]. destruct (IH _ _ _ _ Hrest) as (Hlen & Hbs & Hframe).
    split; [simpl; by rewrite Hlen|]. split.
    + intros [|j] b Hj; simpl in Hj.
      * injection Hj as <-. replace (i + N.of_nat 0) with i by lia. split; [done|].
        rewrite Hframe; simpl; [apply lookup_insert_eq|].
        intros j Hj Heq. apply bucket_file_name_inj in Heq. lia.
      * replace (i + N.of_nat (S j)) with (i + 1 + N.of_nat j) by lia. by apply Hbs.
    + intros name Hname. rewrite Hframe; simpl.
      * apply lookup_insert_ne. intros Heq. apply (Hname 0); [lia|].
        rewrite <-Heq. f_equal. lia.
      * intros j Hj. specialize (Hname (1 + j)). rewrite N.add_assoc in Hname.
        apply Hname. lia.
Qed.

(** The constructor, split into its shift and its loop. *)
Lemma DiskSort_new_open (cap : N) (ks lg nt : Z) (file_prefix : string)
    (fs0 fs1 : filesystem) (d : DiskSort) :
  DiskSort_new cap ks lg nt file_prefix fs0 = Returns d fs1 →
  (0 ≤ lg ≤ 30)%Z
  ∧ N.of_nat (length (buckets d)) = 2 ^ Z.to_N lg
  ∧ open_buckets cap (length (buckets d)) 0 file_prefix fs0 = Returns (buckets d) fs1
  ∧ key_size d = ks ∧ log_num_buckets d = lg ∧ num_threads d = nt
  ∧ is_finished d = false.
Proof.
  unfold DiskSort_new. cbv beta iota zeta delta [io_bind io_ret throw int_shift_left].
  case_bool_decide as Hshift; [|done].
  destruct (open_buckets _ _ _ _ _) as [bs fs'|] eqn:Hopen; [|done].
  intros [= <- <-]. simpl.
  destruct (open_buckets_fresh _ _ _ _ _ _ _ Hopen) as (Hlen & _).
  destruct Hshift as (_ & [Hlg0 Hlg32] & Hmax). rewrite Z.shiftl_1_l in Hmax, Hlen, Hopen.
  assert (lg ≤ 30)%Z as Hlg30.
  { destruct (decide (lg ≤ 30)%Z) as [|Hbig]; [done|].
    assert (2 ^ 31 ≤ 2 ^ lg)%Z by (apply Z.pow_le_mono_r; lia).
    unfold INT_MAX in Hmax. lia. }
  split; [lia|]. split.
  { rewrite Hlen, Z_nat_N, Z2N.inj_pow by lia. done. }
  by rewrite Hlen.
Qed.

(** The names of the buckets, and the files the constructor leaves alone. *)
Lemma DiskSort_new_names (cap : N) (ks lg nt : Z) (file_prefix : string)
    (fs0 fs1 : filesystem) (d : DiskSort) :
  DiskSort_new cap ks lg nt file_prefix fs0 = Returns d fs1 →
  N.of_nat (length (buckets d)) = 2 ^ Z.to_N lg
  ∧ (∀ (i : nat) b, buckets d !! i = Some b →
       file_name b = bucket_file_name file_prefix (N.of_nat i))
  ∧ (∀ name, (∀ i, i < 2 ^ Z.to_N lg → name ≠ bucket_file_name file_prefix i) →
       disk fs1 !! name = disk fs0 !! name).
Proof.
  intros Hnew. destruct (DiskSort_new_open _ _ _ _ _ _ _ _ Hnew) as (_ & Hsize & Hopen & _).
  destruct (open_buckets_fresh _ _ _ _ _ _ _ Hopen) as (_ & Hbs & Hframe).
  split; [done|]. split.
  - intros i b Hb. destruct (Hbs _ _ Hb) as (-> & _). by rewrite N.add_0_l.
  - intros name Hname. apply Hframe. intros j Hj. rewrite N.add_0_l. apply Hname. lia.
Qed.

(** X1: an engine that the constructor returns has [2^log_num_buckets]
    buckets, with [0 <= log_num_buckets <= 30]; bucket [i] has the file
    name [<prefix>.sort_bucket_<i>.tmp] and a write stream on that file,
    and the file exists and is empty, whatever it held before.  The names
    of the buckets differ from each other, and no file with another name
    is touched. *)
Theorem DiskSort_new_fresh (cap : N) (ks lg nt : Z) (file_prefix : string)
    (fs0 fs1 : filesystem) (d : DiskSort) :
  DiskSort_new cap ks lg nt file_prefix fs0 = Returns d fs1 →
  (0 ≤ lg ≤ 30)%Z
  ∧ N.of_nat (length (buckets d)) = 2 ^ Z.to_N lg
  ∧ key_size d = ks ∧ log_num_buckets d = lg ∧ num_threads d = nt
  ∧ is_finished d = false
  ∧ NoDup (file_name <$> buckets d)
  ∧ (∀ (i : nat) b, buckets d !! i = Some b →
       file_name b = bucket_file_name file_prefix (N.of_nat i)
       ∧ file b = Some {| stream_path := file_name b; stream_mode := ModeWrite;
                          stream_pos := 0 |}
       ∧ disk fs1 !! file_name b = Some [])
  ∧ (∀ name, (∀ i, i < 2 ^ Z.to_N lg → name ≠ bucket_file_name file_prefix i) →
       disk fs1 !! name = disk fs0 !! name).
Proof.
  intros Hnew.
  destruct (DiskSort_new_open _ _ _ _ _ _ _ _ Hnew)
    as (Hlg & Hsize & Hopen & Hks & Hlgd & Hnt & Hfin).
  destruct (open_buckets_fresh _ _ _ _ _ _ _ Hopen) as (_ & Hbs & Hframe).
  do 6 (split; [done|]). split; [|split].
  - apply NoDup_alt. intros j k name. rewrite !list_lookup_fmap.
    destruct (buckets d !! j) as [bj|] eqn:Hj; [|done].
    destruct (buckets d !! k) as [bk|] eqn:Hk; [|done]. simpl. intros [= Hnj] [= Hnk].
    destruct (Hbs _ _ Hj) as (-> & _). destruct (Hbs _ _ Hk) as (-> & _).
    simpl in *. rewrite <-Hnk in Hnj. apply bucket_file_name_inj in Hnj. lia.
  - intros i b Hb. destruct (Hbs _ _ Hb) as (-> & Hdisk).
    rewrite N.add_0_l in *. done.
  - intros name Hname. apply Hframe. intros j Hj. rewrite N.add_0_l. apply Hname. lia.
Qed.

End Constructor_facts.

Section Range_facts.

Context {T : Type} `{Entry T} `{KeyFn T} `{!KeyLaws T}.

(** The index is the key divided by [2^(key_size - log_num_buckets)]. *)
Lemma bucket_index_div (ks lg : Z) (entry : T) :
  bucket_index ks lg entry = key entry `div` 2 ^ Z.to_N (ks - lg).
Proof.
  unfold bucket_index. rewrite N.shiftr_div_pow2. apply size_t_small.
  pose proof (key_fits entry).
  pose proof (N.Div0.div_le_upper_bound (key entry) (2 ^ Z.to_N (ks - lg)) (key entry)).
  assert (0 < 2 ^ Z.to_N (ks - lg)) by (apply N.neq_0_lt_0, N.pow_nonzero; lia). nia.
Qed.

(** X2: on an engine that is not finished and has [2^log_num_buckets]
    buckets, with [0 <= log_num_buckets <= key_size] and a shift of less
    than 64, [add] throws "index out of range" exactly for the records
    whose key does not fit in [key_size] bits. *)
Theorem add_range_error_iff (entry : T) (w : world) :
  is_finished (this w) = false →
  (0 ≤ log_num_buckets (this w) ≤ key_size (this w))%Z →
  (key_size (this w) - log_num_buckets (this w) < 64)%Z →
  N.of_nat (length (buckets (this w))) = 2 ^ Z.to_N (log_num_buckets (this w)) →
  (∃ w', add entry w = Throws (logic_error "index out of range") w')
  ↔ 2 ^ Z.to_N (key_size (this w)) ≤ key entry.
Proof.
  intros Hfin Hlg Hshift Hsize.
  assert (Hpow : 2 ^ Z.to_N (key_size (this w))
                 = 2 ^ Z.to_N (key_size (this w) - log_num_buckets (this w))
                   * 2 ^ Z.to_N (log_num_buckets (this w))).
  { rewrite <-N.pow_add_r. f_equal. lia. }
  assert (0 < 2 ^ Z.to_N (key_size (this w) - log_num_buckets (this w))) as Hpos
    by (apply N.neq_0_lt_0, N.pow_nonzero; lia).
  assert (Hiff : N.of_nat (length (buckets (this w)))
                 ≤ bucket_index (key_size (this w)) (log_num_buckets (this w)) entry
                 ↔ 2 ^ Z.to_N (key_size (this w)) ≤ key entry).
  { rewrite bucket_index_div, Hsize, Hpow. split.
    - intros Hle.
      pose proof (N.Div0.mul_div_le (key entry)
                    (2 ^ Z.to_N (key_size (this w) - log_num_buckets (this w)))). nia.
    - intros Hle. apply N.div_le_lower_bound; lia. }
  split.
  - intros [w' Hadd].
    destruct (add_throws_cases _ _ _ _ Hadd)
      as [(_ & _ & Hf)|[(_ & _ & Hrange)|[(He & _)|(s & He)]]]; try congruence.
    by apply Hiff.
  - intros Hwide. exists w. apply Hiff in Hwide. unfold bucket_index in Hwide.
    unfold add. io_unfold. rewrite Hfin.
    rewrite bool_decide_true by lia. unfold io_ret. by rewrite bool_decide_true.
Qed.

End Range_facts.

Section Count_facts.

Context {T : Type} `{Entry T} `{KeyFn T} `{!EntryLaws T}.

Lemma sum_counts (bs : list bucket_t) (g : nat → list T) :
  (∀ i b, bs !! i = Some b → num_entries b = N.of_nat (length (g i))) →
  foldr (λ b acc, num_entries b + acc) 0 bs
  = N.of_nat (length (concat (g <$> seq 0 (length bs)))).
Proof.
  revert g. induction bs as [|b bs IH]; intros g Hg; [done|].
  cbn [foldr length seq]. rewrite fmap_cons. cbn [concat]. rewrite length_app.
  rewrite (Hg 0%nat b eq_refl), (IH (λ i, g (S i))).
  - rewrite <-fmap_S_seq, <-list_fmap_compose. unfold compose. lia.
  - intros i bi Hbi. by apply (Hg (S i)).
Qed.

(** X4: every record that [add] has accepted is counted once: after the
    constructor and a run of successful [add] calls the record counts of
    the buckets add up to the number of records ingested. *)
Theorem ingested_total (cap : N) (ks lg nt : Z) (file_prefix : string)
    (fs0 fs1 : filesystem) (d : DiskSort) (entries : list T) (w : world) :
  cap ≤ PTRDIFF_MAX →
  DiskSort_new cap ks lg nt file_prefix fs0 = Returns d fs1 →
  add_all entries {| this := d; fs := fs1 |} = Returns () w →
  total_entries (this w) = N.of_nat (length entries).
Proof.
  intros Hcap Hnew Hall.
  destruct (ingested_inv _ _ _ _ _ _ _ _ _ _ Hcap Hnew Hall) as (Hinv & Hks & Hlg & _).
  destruct (DiskSort_new_inv _ _ _ _ _ _ _ _ Hcap Hnew) as (Hinv0 & Hks0 & Hlg0 & _).
  pose proof (add_all_indices _ _ _ _ Hinv0 Hall) as Hidx. simpl in Hidx.
  destruct (add_all_inv _ _ _ _ Hinv0 Hall) as (_ & (_ & _ & _ & Hlen & _) & _).
  simpl in Hlen. rewrite Hks0, Hlg0, <-Hlen in Hidx.
  unfold total_entries.
  rewrite (sum_counts _ (λ i, filter (λ e, bucket_index ks lg e = N.of_nat i) entries)).
  - f_equal. apply Permutation_length. by apply concat_filter_perm.
  - intros i b Hb. destruct (proj2 Hinv _ _ Hb) as [_ _ Hcount _ _].
    unfold bucket_entries in Hcount. by rewrite Hks, Hlg in Hcount.
Qed.

End Count_facts.

(** ** Reading one bucket: what a return implies, a zero target size, the blocks *)

Section Bucket_read_facts.

Context {T : Type} `{Entry T} `{KeyFn T} `{Vector T}.

(** A chunk loop that returns has found every record it was to read on
    the file, and has filed as many records as were left. *)
Lemma read_chunks_complete (M index num : N) (b : bucket_t) (content : list byte) (k : nat) :
  ∀ (i : N) (table table' : gmap N (list T)) (w w' : world),
    k = N.to_nat (num - i) →
    i ≤ num →
    i * disk_size ≤ N.of_nat (length content) →
    buckets (this w) !! N.to_nat index = Some (set_file b (read_stream b i)) →
    disk (fs w) !! file_name b = Some content →
    read_chunks index M num i table w = Returns table' w' →
    num * disk_size ≤ N.of_nat (length content)
    ∧ ∃ recs : list T,
        N.of_nat (length recs) = num - i ∧ table' = group_table M table recs.
Proof.
  induction k as [k IH] using lt_wf_ind. intros i table table' w w' Hk Hle Hi Hb Hdisk.
  rewrite read_chunks_equation_1. destruct (decide (i < num)) as [Hlt|Hge].
  - simpl. io_unfold. rewrite Hb. simpl. unfold fread. simpl. rewrite Hdisk.
    set (n := chunk_N `min` (num - i)).
    assert (0 < n ∧ i + n ≤ num) as [Hn Hin] by (unfold chunk_N in *; lia).
    case_bool_decide as Hzero; simpl.
    { rewrite bool_decide_true by lia. done. }
    set (got := N.min (disk_size * n) (N.of_nat (length content) - i * disk_size)).
    case_bool_decide as Hcount; [done|].
    assert (got = n * disk_size) as Hgot.
    { assert (got `div` disk_size = n) as Hdiv
        by (by destruct (decide (got `div` disk_size = n))).
      pose proof (N.Div0.mul_div_le got disk_size) as Hmul. rewrite Hdiv in Hmul.
      pose proof (N.le_min_l (disk_size * n) (N.of_nat (length content) - i * disk_size))
        as Hmin.
      fold got in Hmin. lia. }
    case_bool_decide as HM; [done|].
    destruct (group_chunk _ _ _ _ _ _) as [table1 w1|] eqn:Hchunk; [|done].
    apply group_chunk_returns in Hchunk as [-> ->]. intros Hrest.
    apply (IH (N.to_nat (num - (i + n)))) in Hrest as (Hlen & recs & Hrecs & ->);
      [|lia|done|lia|subst got; nia| |done].
    + split; [done|]. eexists (_ ++ recs). split; [|by rewrite group_table_app].
      rewrite length_app, chunk_records_length. lia.
    + simpl. rewrite list_lookup_insert_eq by (by eapply lookup_lt_Some).
      unfold set_file, read_stream. simpl. rewrite Hgot.
      by replace (i * disk_size + n * disk_size) with ((i + n) * disk_size) by lia.
  - simpl. unfold io_ret. intros [= <- <-]. assert (i = num) as -> by lia.
    split; [done|]. exists []. split; [|done]. simpl. lia.
Qed.

(** X5: a [read_bucket] that returns has found every counted record on
    the file: the file of the bucket holds at least
    [num_entries * disk_size] bytes, and the sub-blocks returned hold
    [num_entries] records in all.  A bucket whose file is shorter, as it
    is while records are still in the buffer, is never read to the
    end. *)
Theorem read_bucket_complete (index M : N) (w w' : world) (b : bucket_t)
    (blocks : list (list T)) :
  buckets (this w) !! N.to_nat index = Some b →
  read_bucket index M w = Returns blocks w' →
  (∃ content, disk (fs w') !! file_name b = Some content
     ∧ num_entries b * disk_size ≤ N.of_nat (length content))
  ∧ N.of_nat (length (concat blocks)) = num_entries b.
Proof.
  intros Hb Hread.
  pose proof (read_bucket_frame index M w) as (Hfs & _). rewrite Hread in Hfs.
  simpl in Hfs. rewrite <-Hfs. clear Hfs. revert Hread. unfold read_bucket.
  cbv beta iota zeta delta [io_bind io_ret throw get_state put_state on_fs set_bucket
    set_buckets bucket_at fclose fopen_rb].
  rewrite Hb.
  assert (∀ w0 : world, match file b with
                        | Some _ => match file b with
                                    | Some _ => λ s : world, Returns () s
                                    | None => λ s, Throws (undefined_behaviour "fclose(nullptr)") s
                                    end
                        | None => λ s, Returns () s
                        end w0 = Returns () w0) as -> by (by destruct (file b)).
  destruct (disk (fs w) !! file_name b) as [content|] eqn:Hdisk; simpl; [|done].
  destruct (read_chunks _ _ _ _ _ _) as [table w1|] eqn:Hchunks; [|done].
  intros [= <- <-].
  apply (read_chunks_complete M index (num_entries b) b content _ _ _ _ _ _ eq_refl)
    in Hchunks as (Hlen & recs & Hrecs & ->); [|lia|lia| |done].
  - split; [by exists content|].
    fold (ordered (group_table M ∅ recs)). fold (grouped M recs).
    rewrite (Permutation_length (grouped_perm M recs)). lia.
  - simpl. rewrite list_lookup_insert_eq by (by eapply lookup_lt_Some). done.
Qed.

End Bucket_read_facts.

Section Bucket_blocks_facts.

Context {T : Type} `{Entry T} `{KeyFn T} `{Vector T} `{!EntryLaws T}.

(** X11: with a target size [M] of zero, reading a finalized bucket that
    holds at least one record divides by zero, which is undefined; the
    first chunk has been read by then. *)
Theorem read_bucket_zero_target (index : N) (recs : list T) (b : bucket_t) (w : world) :
  recs ≠ [] →
  buckets (this w) !! N.to_nat index = Some b →
  bucket_holds (fs w) b recs →
  ∃ w', read_bucket index 0 w = Throws (undefined_behaviour "division by zero") w'.
Proof.
  intros Hne Hb [Hnum Hdisk]. unfold read_bucket.
  cbv beta iota zeta delta [io_bind io_ret throw get_state put_state on_fs set_bucket
    set_buckets bucket_at fclose fopen_rb].
  rewrite Hb.
  assert (∀ w0 : world, match file b with
                        | Some _ => match file b with
                                    | Some _ => λ s : world, Returns () s
                                    | None => λ s, Throws (undefined_behaviour "fclose(nullptr)") s
                                    end
                        | None => λ s, Returns () s
                        end w0 = Returns () w0) as -> by (by destruct (file b)).
  rewrite Hdisk. simpl. rewrite Hnum.
  assert (0 < N.of_nat (length recs)) as Hpos by (destruct recs; [done|simpl; lia]).
  rewrite read_chunks_equation_1.
  destruct (decide (0 < N.of_nat (length recs))) as [Hlt|]; [|done].
  simpl. io_unfold. simpl.
  rewrite list_lookup_insert_eq by (by eapply lookup_lt_Some). simpl.
  set (n := chunk_N `min` (N.of_nat (length recs) - 0)).
  assert (0 < n ∧ 0 + n ≤ N.of_nat (length recs)) as [Hn Hin] by (unfold chunk_N in *; lia).
  change 0 with (0 * disk_size) at 1.
  rewrite (fread_chunk recs) by done. simpl.
  rewrite bool_decide_false by (intros ?; done). by eexists.
Qed.

(** X15: a target size [M] above what a vector admits cannot be used:
    reading a finalized bucket that holds at least one record reads the
    first chunk and then throws [std::length_error] from the [reserve]
    of the first sub-block. *)
Theorem read_bucket_reserve_too_large (index M : N) (recs : list T) (b : bucket_t)
    (w : world) :
  recs ≠ [] →
  vector_max_size < M →
  buckets (this w) !! N.to_nat index = Some b →
  bucket_holds (fs w) b recs →
  ∃ w', read_bucket index M w = Throws (length_error "vector::reserve") w'.
Proof.
  intros Hne HM Hb [Hnum Hdisk]. unfold read_bucket.
  cbv beta iota zeta delta [io_bind io_ret throw get_state put_state on_fs set_bucket
    set_buckets bucket_at fclose fopen_rb].
  rewrite Hb.
  assert (∀ w0 : world, match file b with
                        | Some _ => match file b with
                                    | Some _ => λ s : world, Returns () s
                                    | None => λ s, Throws (undefined_behaviour "fclose(nullptr)") s
                                    end
                        | None => λ s, Returns () s
                        end w0 = Returns () w0) as -> by (by destruct (file b)).
  rewrite Hdisk. simpl. rewrite Hnum.
  assert (0 < N.of_nat (length recs)) as Hpos by (destruct recs; [done|simpl; lia]).
  rewrite read_chunks_equation_1.
  destruct (decide (0 < N.of_nat (length recs))) as [Hlt|]; [|done].
  simpl. io_unfold. simpl.
  rewrite list_lookup_insert_eq by (by eapply lookup_lt_Some). simpl.
  set (n := chunk_N `min` (N.of_nat (length recs) - 0)).
  assert (0 < n ∧ 0 + n ≤ N.of_nat (length recs)) as [Hn Hin] by (unfold chunk_N in *; lia).
  change 0 with (0 * disk_size) at 1.
  rewrite (fread_chunk recs) by done. simpl.
  rewrite bool_decide_false by (intros ?; done).
  rewrite bool_decide_false by lia.
  destruct (N.to_nat n) as [|count] eqn:Hcount; [lia|]. simpl.
  rewrite lookup_total_empty. simpl. unfold io_bind, vector_reserve.
  rewrite bool_decide_true by done. by eexists.
Qed.

(** The block a table files under [p] after the records [recs]. *)
Lemma group_table_lookup (M : N) (recs : list T) (table : gmap N (list T)) (p : N) :
  group_table M table recs !!! p
  = table !!! p ++ filter (λ e, partition_of M e = p) recs.
Proof.
  revert table. induction recs as [|e recs IH]; intros table.
  - by rewrite filter_nil, app_nil_r.
  - change (group_table M table (e :: recs))
      with (group_table M (table_push (partition_of M e) e table) recs).
    rewrite IH, filter_cons. unfold table_push. destruct (decide (partition_of M e = p)) as [->|Hne].
    + by rewrite lookup_total_insert_eq, <-(assoc_L (++)).
    + by rewrite lookup_total_insert_ne.
Qed.

Lemma group_table_block (M : N) (recs blk : list T) (p : N) :
  group_table M ∅ recs !! p = Some blk ↔
  blk = filter (λ e, partition_of M e = p) recs ∧ ∃ e, e ∈ recs ∧ partition_of M e = p.
Proof.
  pose proof (group_table_lookup M recs ∅ p) as Hlook.
  rewrite lookup_total_empty in Hlook. simpl in Hlook.
  pose proof (table_inv_group_table M recs ∅ (table_inv_empty M)) as Hinv.
  rewrite lookup_total_alt in Hlook.
  destruct (group_table M ∅ recs !! p) as [blk'|] eqn:Hp; simpl in Hlook.
  - destruct (Hinv _ _ Hp) as [Hne _]. split.
    + intros [= <-]. split; [done|]. destruct blk' as [|e blk']; [done|].
      assert (e ∈ filter (λ e, partition_of M e = p) recs) as Hin
        by (rewrite <-Hlook; left).
      apply list_elem_of_filter in Hin as [? ?]. by exists e.
    + intros [-> _]. by rewrite Hlook.
  - split; [done|]. intros [_ (e & He & Hpe)].
    assert (e ∈ filter (λ e, partition_of M e = p) recs) as Hin
      by (by apply list_elem_of_filter).
    rewrite <-Hlook in Hin. by apply elem_of_nil in Hin.
Qed.

Lemma fmap_snd_by_fst {A B} (f : A → B) (l : list (A * B)) :
  Forall (λ x, x.2 = f x.1) l → l.*2 = f <$> l.*1.
Proof.
  induction 1 as [|[a b] l Hx _ IH]; [done|].
  rewrite !fmap_cons. f_equal; [exact Hx|exact IH].
Qed.

(** The sub-blocks of [recs]: one for each value of the partition that
    occurs, in ascending order, holding the records of that partition in
    the order of [recs]. *)
Lemma grouped_exact (M : N) (recs : list T) :
  ∃ ps : list N,
    StronglySorted N.lt ps
    ∧ (∀ p, p ∈ ps ↔ ∃ e, e ∈ recs ∧ partition_of M e = p)
    ∧ grouped M recs = (λ p, filter (λ e, partition_of M e = p) recs) <$> ps.
Proof.
  destruct (ordered_spec (group_table M ∅ recs)) as [Hsorted Hperm].
  exists ((ordered (group_table M ∅ recs)).*1). split; [|split].
  - clear Hperm. induction Hsorted as [|x l Hl IH Hx]; simpl; constructor; [done|].
    by apply Forall_fmap.
  - intros p. rewrite list_elem_of_fmap. split.
    + intros ([p' blk] & -> & Hin). rewrite Hperm in Hin.
      apply elem_of_map_to_list in Hin. by apply group_table_block in Hin as [_ ?].
    + intros Hex. exists (p, filter (λ e, partition_of M e = p) recs). split; [done|].
      rewrite Hperm. apply elem_of_map_to_list. by apply group_table_block.
  - unfold grouped. apply fmap_snd_by_fst, Forall_forall. intros [p blk] Hin. simpl.
    rewrite Hperm in Hin. apply elem_of_map_to_list in Hin.
    by apply group_table_block in Hin as [? _].
Qed.

(** X10: when [read_bucket] returns on a finalized bucket with records
    [recs], it returns one sub-block for each value of [key / M] that
    occurs among the records, in strictly ascending order of that value;
    the sub-block of a value holds all records of [recs] with that value,
    in the order they have in the file. *)
Theorem read_bucket_groups `{!KeyLaws T} (index M : N) (recs : list T) (b : bucket_t)
    (w w' : world) (blocks : list (list T)) :
  buckets (this w) !! N.to_nat index = Some b →
  bucket_holds (fs w) b recs →
  read_bucket index M w = Returns blocks w' →
  ∃ ps : list N,
    blocks = (λ p, filter (λ e, key e `div` M = p) recs) <$> ps
    ∧ StronglySorted N.lt ps
    ∧ ∀ p, p ∈ ps ↔ ∃ e, e ∈ recs ∧ key e `div` M = p.
Proof.
  intros Hb Hholds Hread. destruct (grouped_exact M recs) as (ps & Hsorted & Hps & Hgrouped).
  exists ps. split; [|split; [done|]].
  - apply (read_bucket_spec M index recs b) in Hread as [-> _]; [|done..].
    rewrite Hgrouped. apply list_fmap_ext. intros _ p _.
    apply list_filter_iff. intros e. by rewrite partition_of_div.
  - intros p. rewrite Hps. by setoid_rewrite partition_of_div.
Qed.

End Bucket_blocks_facts.

(** ** The sort stage *)

Section Sort_stage_facts.

Context {T : Type} `{Entry T} `{KeyFn T} `{StdSort T} `{!StdSortLaws T}.

(** X9: [sort_bucket] keeps what the consumer has received and forwards
    one unit for each block it is given, in the order of the blocks; the
    unit of a block carries the records of that block, rearranged so that
    the keys do not descend. *)
Theorem sort_bucket_sorts_blocks (input : list (list T)) (forwarded : list (output_t T)) :
  ∃ units : list (output_t T),
    sort_bucket input forwarded = forwarded ++ units
    ∧ Forall2 (λ blk u, block u ≡ₚ blk
                        ∧ StronglySorted (λ a b, key a ≤ key b) (block u)) input units.
Proof.
  exists (sort_bucket input []). split; [apply sort_bucket_app|].
  apply (Forall2_fmap_r block
           (λ blk x, x ≡ₚ blk ∧ StronglySorted (λ a b : T, key a ≤ key b) x)).
  pose proof (sort_bucket_loop_blocks (N.of_nat (length input)) 0 input) as Hblocks.
  fold (sort_bucket input []) in Hblocks. rewrite Hblocks.
  apply Forall2_fmap_r, Forall_Forall2_diag, Forall_forall. intros blk _. split.
  - apply std_sort_perm.
  - eapply StronglySorted_mono; [|apply std_sort_sorted, key_lt_strict_weak_order].
    simpl. intros a b Hab. apply bool_decide_eq_false in Hab. lia.
Qed.

End Sort_stage_facts.

(** ** The files the engine touches *)

Section Disk_frame_facts.

Context {T : Type} `{Entry T} `{KeyFn T} `{StdSort T} `{Vector T} `{!EntryLaws T}.

Lemma add_disk_frame (entries : list T) (entry : T) (w w' : world) (name : string) :
  ingest_inv entries w →
  add entry w = Returns () w' →
  name ∉ file_name <$> buckets (this w) →
  disk (fs w') !! name = disk (fs w) !! name.
Proof.
  intros Hinv Hadd Hname.
  destruct (add_exact _ _ _ _ Hinv Hadd) as (index & b & content & _ & Hb & _ & Hcase).
  assert (name ≠ file_name b) as Hne.
  { intros ->. apply Hname, list_elem_of_fmap. exists b. split; [done|].
    by eapply list_elem_of_lookup_2. }
  destruct (decide _); [by subst w'|]. destruct Hcase as (_ & _ & ->). simpl.
  by rewrite lookup_insert_ne.
Qed.

Lemma add_all_disk_frame (entries pre : list T) (w w' : world) (name : string) :
  ingest_inv pre w →
  add_all entries w = Returns () w' →
  name ∉ file_name <$> buckets (this w) →
  disk (fs w') !! name = disk (fs w) !! name.
Proof.
  revert pre w. induction entries as [|entry entries IH]; intros pre w Hinv; simpl.
  - by intros [= <-].
  - unfold io_bind. destruct (add entry w) as [[] w1|] eqn:Hadd; [|done]. intros Hall Hname.
    destruct (add_inv _ _ _ _ Hinv Hadd) as (Hinv1 & (_ & _ & _ & _ & Hnames) & _).
    rewrite (IH _ _ Hinv1 Hall) by (by rewrite Hnames).
    by eapply add_disk_frame.
Qed.

Lemma finish_disk_frame (entries : list T) (w w' : world) (name : string) :
  ingest_inv entries w →
  finish w = Returns () w' →
  name ∉ file_name <$> buckets (this w) →
  disk (fs w') !! name = disk (fs w) !! name.
Proof.
  intros Hinv Hfinish Hname. revert Hfinish. unfold finish, for_buckets.
  cbv beta iota zeta delta [io_bind get_state set_finished].
  destruct (for_range _ _ _ w) as [[] w1|] eqn:Hloop; [|done]. intros [= <-]. simpl.
  apply (for_range_returns (λ (_ : N) s,
    ingest_inv entries s ∧ same_config w s
    ∧ disk (fs s) !! name = disk (fs w) !! name)) in Hloop.
  - by destruct Hloop as (_ & _ & ?).
  - split; [done|]. split; [apply same_config_refl|done].
  - intros i t t' Hi (Hinvt & Hcfgt & Hdisk) Hflush.
    destruct (flush_inv _ _ _ _ Hinvt Hflush) as (Hinv' & Hcfg' & _).
    split; [done|]. split; [by eapply same_config_trans|].
    destruct (flush_exact _ _ _ _ Hinvt Hflush) as (b & content & Hb & _ & _ & ->).
    simpl. rewrite lookup_insert_ne; [done|].
    intros <-. apply Hname. destruct Hcfgt as (_ & _ & _ & _ & <-).
    apply list_elem_of_fmap. exists b. split; [done|]. by eapply list_elem_of_lookup_2.
Qed.

Lemma same_data_names (w w' : world) :
  same_data w w' → file_name <$> buckets (this w) = file_name <$> buckets (this w').
Proof.
  intros (_ & _ & _ & _ & _ & Hall).
  induction Hall as [|b b' l l' (Hname & _) _ IH]; [done|].
  rewrite !fmap_cons. by f_equal.
Qed.

(** [clear] keeps the names of the buckets and removes no other file. *)
Lemma clear_disk_frame (w w' : world) :
  clear w = Returns () w' →
  file_name <$> buckets (this w') = file_name <$> buckets (this w)
  ∧ ∀ name, name ∉ file_name <$> buckets (this w) →
      disk (fs w') !! name = disk (fs w) !! name.
Proof.
  unfold clear, for_buckets. cbv beta iota zeta delta [io_bind get_state]. intros Hloop.
  apply (for_range_returns (λ (_ : N) s,
    file_name <$> buckets (this s) = file_name <$> buckets (this w)
    ∧ ∀ name, name ∉ file_name <$> buckets (this w) →
        disk (fs s) !! name = disk (fs w) !! name)) in Hloop; [done|done|].
  intros i t t' Hi [Hnames Hframe]. io_unfold.
  destruct (buckets (this t) !! N.to_nat i) as [b|] eqn:Hb; [|done].
  destruct (file b) as [f|]; [|done]. unfold remove. simpl.
  assert (file_name b ∈ file_name <$> buckets (this w)) as Hin.
  { rewrite <-Hnames. apply list_elem_of_fmap. exists b. split; [done|].
    by eapply list_elem_of_lookup_2. }
  assert (file_name <$> <[N.to_nat i:={| file := None; file_name := file_name b;
                                         offset := offset b; num_entries := num_entries b;
                                         buffer := buffer b |}]> (buckets (this t))
          = file_name <$> buckets (this t)) as Hsame.
  { rewrite list_fmap_insert. simpl. apply list_insert_id.
    by rewrite list_lookup_fmap, Hb. }
  destruct (disk (fs t) !! file_name b) eqn:Hdisk; intros [= <-]; simpl;
    (split; [by rewrite Hsame|]); intros name Hname; [|by apply Hframe].
  rewrite lookup_delete_ne by (by intros <-). by apply Hframe.
Qed.

(** X13: over a whole run (constructor, [add] calls, [finish], [read],
    [clear]) the engine works on its own bucket files only: at the end
    none of the files [<prefix>.sort_bucket_<i>.tmp] with
    [i < 2^log_num_buckets] exists, and every file with another name has
    the content it had before the constructor. *)
Theorem run_leaves_other_files (cap : N) (ks lg nt : Z) (file_prefix : string)
    (fs0 fs1 : filesystem) (d : DiskSort) (entries : list T) (M : N)
    (outs : list (output_t T)) (w1 w2 w3 w4 : world) :
  cap ≤ PTRDIFF_MAX →
  DiskSort_new cap ks lg nt file_prefix fs0 = Returns d fs1 →
  add_all entries {| this := d; fs := fs1 |} = Returns () w1 →
  finish w1 = Returns () w2 →
  read M w2 = Returns outs w3 →
  clear w3 = Returns () w4 →
  (∀ i, i < 2 ^ Z.to_N lg → disk (fs w4) !! bucket_file_name file_prefix i = None)
  ∧ (∀ name, (∀ i, i < 2 ^ Z.to_N lg → name ≠ bucket_file_name file_prefix i) →
       disk (fs w4) !! name = disk fs0 !! name).
Proof.
  intros Hcap Hnew Hall Hfinish Hread Hclear.
  destruct (DiskSort_new_names _ _ _ _ _ _ _ _ Hnew) as (Hsize & Hfresh & Hframe0).
  destruct (DiskSort_new_inv _ _ _ _ _ _ _ _ Hcap Hnew) as (Hinv0 & _).
  destruct (add_all_inv _ _ _ _ Hinv0 Hall) as (Hinv1 & (_ & _ & _ & _ & Hnames1) & _).
  destruct (finish_inv _ _ _ Hinv1 Hfinish) as (_ & (_ & _ & _ & _ & Hnames2) & _).
  pose proof (read_frame M w2) as Hsame. rewrite Hread in Hsame. simpl in Hsame.
  pose proof (same_data_names _ _ Hsame) as Hnames3.
  destruct (clear_disk_frame _ _ Hclear) as [Hnames4 Hframe4].
  destruct (clear_returns _ _ Hclear) as (_ & _ & Hgone).
  simpl in Hnames1.
  assert (Hnames : file_name <$> buckets (this w4) = file_name <$> buckets d)
    by (by rewrite Hnames4, <-Hnames3, Hnames2, Hnames1).
  assert (Hmine : ∀ name, name ∈ file_name <$> buckets d →
            ∃ i, i < 2 ^ Z.to_N lg ∧ name = bucket_file_name file_prefix i).
  { intros name Hin. apply list_elem_of_fmap in Hin as (b & -> & Hb).
    apply list_elem_of_lookup in Hb as [j Hb]. exists (N.of_nat j).
    split; [|by apply Hfresh]. apply lookup_lt_Some in Hb. lia. }
  split.
  - intros i Hi.
    destruct (lookup_lt_is_Some_2 (buckets d) (N.to_nat i)) as [b Hb]; [lia|].
    pose proof (Hfresh _ _ Hb) as Hname. rewrite N2Nat.id in Hname.
    assert (file_name <$> buckets (this w4) !! N.to_nat i = Some (file_name b)) as Hb4
      by (by rewrite <-list_lookup_fmap, Hnames, list_lookup_fmap, Hb).
    destruct (buckets (this w4) !! N.to_nat i) as [b4|] eqn:Hb4'; [|done].
    injection Hb4 as Hb4. rewrite <-Hname, <-Hb4.
    by apply (proj1 (Forall_lookup _ _) Hgone (N.to_nat i) b4).
  - intros name Hname.
    assert (name ∉ file_name <$> buckets d) as Hout.
    { intros Hin. destruct (Hmine _ Hin) as (i & Hi & ->). by apply (Hname i). }
    rewrite Hframe4 by (by rewrite <-Hnames3, Hnames2, Hnames1).
    destruct Hsame as (<- & _).
    rewrite (finish_disk_frame entries w1 w2) by (done || by rewrite Hnames1).
    rewrite (add_all_disk_frame entries [] _ w1) by done.
    by apply Hframe0.
Qed.

End Disk_frame_facts.

(** ** Ingestion on a device with room *)

Section Room_facts.

Context {T : Type} `{Entry T} `{KeyFn T} `{!EntryLaws T} `{!KeyLaws T}.

Lemma buffered_lookup (d : DiskSort) (i : nat) (b : bucket_t) :
  buckets d !! i = Some b → offset b ≤ buffered d.
Proof.
  unfold buffered. generalize (buckets d). intros bs. revert i.
  induction bs as [|b0 bs IH]; intros [|i] Hb; simplify_eq/=; [lia|].
  specialize (IH _ Hb). lia.
Qed.

Lemma buffered_insert (d : DiskSort) (i : nat) (b b' : bucket_t) :
  buckets d !! i = Some b →
  buffered (with_buckets d (<[i:=b']> (buckets d))) + offset b = buffered d + offset b'.
Proof.
  unfold buffered. simpl. generalize (buckets d). intros bs. revert i.
  induction bs as [|b0 bs IH]; intros [|i] Hb; simplify_eq/=; [lia|].
  specialize (IH _ Hb). lia.
Qed.

(** A flush whose bytes fit on the device and within the largest file
    size returns. *)
Lemma flush_fits (entries : list T) (index : N) (w : world) (b : bucket_t) :
  ingest_inv entries w →
  buckets (this w) !! N.to_nat index = Some b →
  offset b ≤ free_space (fs w) →
  N.of_nat (length entries) * disk_size ≤ OFF_MAX →
  ∃ w', flush index w = Returns () w'.
Proof.
  intros [Hnodup Hinv] Hb Hfree Hmax. unfold flush. io_unfold. rewrite Hb.
  destruct (Hinv _ _ Hb) as [Hstream (content & Hdisk & Henc & Hlen) Hcount Hoff Hcap].
  rewrite Hstream. unfold fwrite. simpl. rewrite Hdisk.
  assert (N.of_nat (length content) + offset b ≤ OFF_MAX) as Hfile.
  { apply (f_equal (λ l, N.of_nat (length l))) in Henc. simpl in Henc.
    rewrite length_app, length_take, encoding_length in Henc.
    pose proof (length_filter
      (λ e, bucket_index (key_size (this w)) (log_num_buckets (this w)) e
            = N.of_nat (N.to_nat index)) entries) as Hfilter.
    unfold bucket_entries in Henc. nia. }
  rewrite bool_decide_false; [by eexists|].
  rewrite length_take. lia.
Qed.

(** The index of a record whose key fits in [key_size] bits. *)
Lemma bucket_index_range (ks lg : Z) (entry : T) :
  (0 ≤ lg ≤ ks)%Z → key entry < 2 ^ Z.to_N ks →
  bucket_index ks lg entry < 2 ^ Z.to_N lg.
Proof.
  intros Hlg Hkey. rewrite bucket_index_div.
  apply N.Div0.div_lt_upper_bound. rewrite <-N.pow_add_r.
  by replace (Z.to_N (ks - lg) + Z.to_N lg) with (Z.to_N ks) by lia.
Qed.

(** [add] returns when the engine is not finished, the key fits, a
    record fits in a buffer and the device has room for what the buffers
    hold and for the record. *)
Lemma add_fits (pre : list T) (entry : T) (w : world) (cap R : N) :
  ingest_inv pre w →
  is_finished (this w) = false →
  (0 ≤ log_num_buckets (this w) ≤ key_size (this w))%Z →
  (key_size (this w) - log_num_buckets (this w) < 64)%Z →
  N.of_nat (length (buckets (this w))) = 2 ^ Z.to_N (log_num_buckets (this w)) →
  Forall (λ b, N.of_nat (length (buffer b)) = cap) (buckets (this w)) →
  disk_size ≤ cap →
  key entry < 2 ^ Z.to_N (key_size (this w)) →
  buffered (this w) + disk_size + R ≤ free_space (fs w) →
  N.of_nat (length pre) * disk_size ≤ OFF_MAX →
  ∃ w', add entry w = Returns () w' ∧ buffered (this w') + R ≤ free_space (fs w').
Proof.
  intros Hinv Hfin Hlg Hshift Hsize Hcaps Hds Hkey Hroom Hmax.
  pose proof (bucket_index_range _ _ entry Hlg Hkey) as Hindex. rewrite <-Hsize in Hindex.
  destruct (lookup_lt_is_Some_2 (buckets (this w))
              (N.to_nat (bucket_index (key_size (this w)) (log_num_buckets (this w)) entry)))
    as [b Hb]; [lia|].
  destruct (proj2 Hinv _ _ Hb) as [_ _ _ Hoff Hcap].
  pose proof (proj1 (Forall_lookup _ _) Hcaps _ _ Hb) as Hlen. simpl in Hlen.
  pose proof (buffered_lookup _ _ _ Hb) as Hmine.
  assert (∃ w', add entry w = Returns () w') as [w' Hadd].
  { unfold add. cbv beta iota zeta delta [io_bind get_state throw shift_right io_ret].
    rewrite Hfin. rewrite bool_decide_true by lia.
    fold (bucket_index (key_size (this w)) (log_num_buckets (this w)) entry).
    rewrite bool_decide_false by lia.
    assert (bucket_at (bucket_index (key_size (this w)) (log_num_buckets (this w)) entry) w
            = Returns b w) as -> by (io_unfold; by rewrite Hb).
    rewrite size_t_small by (unfold PTRDIFF_MAX, SIZE_MAX in *; lia).
    case_bool_decide as Hflush.
    - destruct (flush_fits pre _ w b Hinv Hb) as [w1 Hfl]; [lia|done|]. rewrite Hfl.
      destruct (flush_exact _ _ _ _ Hinv Hfl) as (b0 & content & Hb0 & _ & _ & ->).
      assert (b0 = b) as -> by congruence.
      io_unfold. simpl. rewrite list_lookup_insert_eq by (by eapply lookup_lt_Some). simpl.
      rewrite write_length. rewrite bool_decide_false by lia. by eexists.
    - io_unfold. rewrite Hb. rewrite write_length.
      rewrite bool_decide_false by lia. by eexists. }
  exists w'. split; [done|].
  destruct (add_exact _ _ _ _ Hinv Hadd) as (index & b0 & content & Hidx & Hb0 & _ & Hcase).
  assert (index = N.to_nat (bucket_index (key_size (this w)) (log_num_buckets (this w)) entry))
    as -> by lia.
  assert (b0 = b) as -> by congruence.
  destruct (decide _) as [Hfit|Hfull].
  - subst w'. simpl.
    pose proof (buffered_insert (this w) _ b (stored b entry) Hb) as Hsum.
    simpl in Hsum. lia.
  - destruct Hcase as (_ & _ & ->). simpl.
    pose proof (buffered_insert (this w) _ b (stored (flushed b) entry) Hb) as Hsum.
    simpl in Hsum. lia.
Qed.

Lemma add_all_fits (entries pre : list T) (w : world) (cap R : N) :
  ingest_inv pre w →
  is_finished (this w) = false →
  (0 ≤ log_num_buckets (this w) ≤ key_size (this w))%Z →
  (key_size (this w) - log_num_buckets (this w) < 64)%Z →
  N.of_nat (length (buckets (this w))) = 2 ^ Z.to_N (log_num_buckets (this w)) →
  Forall (λ b, N.of_nat (length (buffer b)) = cap) (buckets (this w)) →
  disk_size ≤ cap →
  Forall (λ e, key e < 2 ^ Z.to_N (key_size (this w))) entries →
  buffered (this w) + N.of_nat (length entries) * disk_size + R ≤ free_space (fs w) →
  N.of_nat (length (pre ++ entries)) * disk_size ≤ OFF_MAX →
  ∃ w', add_all entries w = Returns () w' ∧ buffered (this w') + R ≤ free_space (fs w').
Proof.
  revert pre w. induction entries as [|e entries IH];
    intros pre w Hinv Hfin Hlg Hshift Hsize Hcaps Hds Hkeys Hroom Hmax; simpl.
  - exists w. split; [done|]. simpl in Hroom. lia.
  - apply Forall_cons in Hkeys as [Hkey Hkeys].
    rewrite length_app in Hmax. cbn [length] in *.
    destruct (add_fits pre e w cap (N.of_nat (length entries) * disk_size + R))
      as (w1 & Hadd & Hroom1); try done; [lia|lia|].
    destruct (add_inv _ _ _ _ Hinv Hadd) as (Hinv1 & (Hks1 & Hlg1 & _ & Hlen1 & _) & Hfin1).
    pose proof (add_capacity cap _ _ _ _ Hinv Hadd Hcaps) as Hcaps1.
    destruct (IH (pre ++ [e]) w1) as (w' & Hall & Hroom'); try done.
    + congruence.
    + by rewrite Hks1, Hlg1.
    + by rewrite Hks1, Hlg1.
    + by rewrite Hlen1, Hlg1.
    + by rewrite Hks1.
    + lia.
    + rewrite !length_app. cbn [length]. lia.
    + exists w'. unfold io_bind. by rewrite Hadd.
Qed.

(** [finish] returns when the device has room for what the buffers
    hold. *)
Lemma finish_fits (entries : list T) (w : world) :
  ingest_inv entries w →
  buffered (this w) ≤ free_space (fs w) →
  N.of_nat (length entries) * disk_size ≤ OFF_MAX →
  ∃ w', finish w = Returns () w'.
Proof.
  intros Hinv Hroom Hmax. unfold finish, for_buckets.
  cbv beta iota zeta delta [io_bind get_state set_finished].
  destruct (for_range_total (λ (_ : N) t,
    ingest_inv entries t ∧ same_config w t ∧ buffered (this t) ≤ free_space (fs t))
    (length (buckets (this w))) 0 (λ i, flush i) w) as (w1 & -> & _); [| |by eexists].
  - split; [done|]. split; [apply same_config_refl|done].
  - intros i t Hi (Hinvt & Hcfgt & Hroomt).
    destruct (lookup_lt_is_Some_2 (buckets (this t)) (N.to_nat i)) as [b Hb].
    { destruct Hcfgt as (_ & _ & _ & Hlen & _). lia. }
    pose proof (buffered_lookup _ _ _ Hb) as Hmine.
    destruct (flush_fits entries i t b Hinvt Hb) as [t' Hfl]; [lia|done|].
    exists t'. split; [done|].
    destruct (flush_inv _ _ _ _ Hinvt Hfl) as (Hinv' & Hcfg' & _).
    split; [done|]. split; [by eapply same_config_trans|].
    destruct (flush_exact _ _ _ _ Hinvt Hfl) as (b0 & content & Hb0 & _ & _ & ->).
    assert (b0 = b) as -> by congruence. simpl.
    pose proof (buffered_insert (this t) _ b (flushed b) Hb) as Hsum.
    simpl in Hsum. lia.
Qed.

(** X14: on a device with room for the records, ingestion succeeds and
    the bucket files are complete.  When the keys fit in [key_size] bits,
    a record fits in a buffer, and the device has as many bytes free as
    the records take (within the largest file size), every [add] and
    [finish] return; afterwards the file of every bucket holds the
    encodings of exactly the records ingested for that bucket, each once,
    one after the other in the order of ingestion, its length is
    [num_entries * disk_size], and nothing is left in the buffer. *)
Theorem ingestion_with_room (cap : N) (ks lg nt : Z) (file_prefix : string)
    (fs0 fs1 : filesystem) (d : DiskSort) (entries : list T) :
  cap ≤ PTRDIFF_MAX →
  disk_size ≤ cap →
  DiskSort_new cap ks lg nt file_prefix fs0 = Returns d fs1 →
  (lg ≤ ks)%Z →
  (ks - lg < 64)%Z →
  Forall (λ e, key e < 2 ^ Z.to_N ks) entries →
  N.of_nat (length entries) * disk_size ≤ free_space fs1 →
  N.of_nat (length entries) * disk_size ≤ OFF_MAX →
  ∃ w1 w2,
    add_all entries {| this := d; fs := fs1 |} = Returns () w1
    ∧ finish w1 = Returns () w2
    ∧ ∀ (i : nat) b, buckets (this w2) !! i = Some b →
        let mine := filter (λ e, bucket_index ks lg e = N.of_nat i) entries in
        num_entries b = N.of_nat (length mine)
        ∧ offset b = 0
        ∧ disk (fs w2) !! file_name b = Some (concat (entry_write <$> mine))
        ∧ file_length (fs w2) (file_name b) = num_entries b * disk_size.
Proof.
  intros Hcap Hds Hnew Hlgks Hshift Hkeys Hroom Hmax.
  destruct (DiskSort_new_inv _ _ _ _ _ _ _ _ Hcap Hnew) as (Hinv0 & Hks0 & Hlg0 & Hfin0 & _).
  destruct (DiskSort_new_open _ _ _ _ _ _ _ _ Hnew) as (Hlg & Hsize & Hopen & _).
  destruct (open_buckets_fresh _ _ _ _ _ _ _ Hopen) as (_ & Hfresh & _).
  assert (buffered d = 0) as Hzero.
  { assert (∀ bs, Forall (λ b, offset b = 0) bs →
              foldr (λ b acc, offset b + acc) 0 bs = 0) as Hsum
      by (induction 1 as [|b bs Hb _ IH]; simpl in *; lia).
    apply Hsum, Forall_lookup. intros i b Hb. by destruct (Hfresh _ _ Hb) as (-> & _). }
  destruct (add_all_fits entries [] {| this := d; fs := fs1 |} cap 0)
    as (w1 & Hall & Hroom1); simpl; try done.
  { subst ks lg. lia. } { subst ks lg. lia. } { by subst lg. }
  { by eapply open_buckets_capacity. } { by subst ks. } { lia. }
  destruct (add_all_inv _ _ _ _ Hinv0 Hall) as (Hinv1 & _). simpl in Hinv1.
  destruct (finish_fits entries w1 Hinv1) as [w2 Hfinish]; [lia|done|].
  exists w1, w2. split; [done|]. split; [done|].
  intros i b Hb.
  destruct (finished_holds _ _ _ _ _ _ _ _ _ _ _ Hcap Hnew Hall Hfinish i b Hb)
    as (Hoff & Hnum & Hdisk).
  split; [done|]. split; [done|]. split; [done|].
  unfold file_length. rewrite Hdisk, Hnum. apply encoding_length.
Qed.

End Room_facts.

(** ** The further properties at a concrete run *)

Lemma DiskSort_new_fresh_witness :
  (0 ≤ 2 ≤ 30)%Z
  ∧ N.of_nat (length (buckets (this ByteEntry.demo_new))) = 2 ^ Z.to_N 2
  ∧ key_size (this ByteEntry.demo_new) = 8%Z
  ∧ log_num_buckets (this ByteEntry.demo_new) = 2%Z
  ∧ num_threads (this ByteEntry.demo_new) = 1%Z
  ∧ is_finished (this ByteEntry.demo_new) = false
  ∧ NoDup (file_name <$> buckets (this ByteEntry.demo_new))
  ∧ (∀ (i : nat) b, buckets (this ByteEntry.demo_new) !! i = Some b →
       file_name b = bucket_file_name "plot" (N.of_nat i)
       ∧ file b = Some {| stream_path := file_name b; stream_mode := ModeWrite;
                          stream_pos := 0 |}
       ∧ disk (fs ByteEntry.demo_new) !! file_name b = Some [])
  ∧ (∀ name, (∀ i, i < 2 ^ Z.to_N 2 → name ≠ bucket_file_name "plot" i) →
       disk (fs ByteEntry.demo_new) !! name = disk (ByteEntry.empty_fs 1000) !! name).
Proof.
  apply (DiskSort_new_fresh 4 8 2 1 "plot" (ByteEntry.empty_fs 1000)
           (fs ByteEntry.demo_new) (this ByteEntry.demo_new)).
  vm_compute. reflexivity.
Defined.

Lemma add_range_error_iff_witness :
  (∃ w', add "255"%byte (ByteEntry.start 4 7 1 (ByteEntry.empty_fs 1000))
         = Throws (logic_error "index out of range") w')
  ↔ 2 ^ Z.to_N (key_size (this (ByteEntry.start 4 7 1 (ByteEntry.empty_fs 1000))))
    ≤ key "255"%byte.
Proof.
  apply (add_range_error_iff (KeyLaws0 := ByteEntryFacts.byte_key_laws) "255"%byte
           (ByteEntry.start 4 7 1 (ByteEntry.empty_fs 1000))).
  - vm_compute. reflexivity.
  - vm_compute. split; discriminate.
  - vm_compute. reflexivity.
  - vm_compute. reflexivity.
Defined.

Lemma add_exception_keeps_object_witness :
  let w := ByteEntry.start 4 7 1 (ByteEntry.empty_fs 1000) in
  this (ByteEntry.after (add "255"%byte) w) = this w
  ∧ (logic_error "index out of range" = logic_error "read only"
       ∧ ByteEntry.after (add "255"%byte) w = w
     ∨ logic_error "index out of range" = logic_error "index out of range"
       ∧ ByteEntry.after (add "255"%byte) w = w
     ∨ logic_error "index out of range" = runtime_error "fwrite() failed").
Proof.
  apply (add_exception_keeps_object "255"%byte
           (ByteEntry.start 4 7 1 (ByteEntry.empty_fs 1000))).
  - vm_compute. reflexivity.
  - intros s. discriminate.
Defined.

Lemma ingested_total_witness :
  total_entries (this ByteEntry.demo_ingested) = N.of_nat (length ByteEntry.demo_entries).
Proof.
  apply (ingested_total (EntryLaws0 := ByteEntryFacts.byte_entry_laws)
           4 8 2 1 "plot" (ByteEntry.empty_fs 1000) (fs ByteEntry.demo_new)
           (this ByteEntry.demo_new) ByteEntry.demo_entries ByteEntry.demo_ingested).
  - vm_compute. discriminate.
  - vm_compute. reflexivity.
  - vm_compute. reflexivity.
Defined.

Lemma read_bucket_complete_witness :
  ∃ b, buckets (this ByteEntry.demo_finished) !! 0%nat = Some b
    ∧ (∃ content,
         disk (fs (ByteEntry.after (read_bucket 0 4) ByteEntry.demo_finished)) !! file_name b
         = Some content
         ∧ num_entries b * disk_size ≤ N.of_nat (length content))
    ∧ N.of_nat (length (concat (ByteEntry.value [] (read_bucket 0 4) ByteEntry.demo_finished)))
      = num_entries b.
Proof.
  eexists. split; [vm_compute; reflexivity|].
  apply (read_bucket_complete 0 4 ByteEntry.demo_finished
           (ByteEntry.after (read_bucket 0 4) ByteEntry.demo_finished)).
  - vm_compute. reflexivity.
  - vm_compute. reflexivity.
Defined.

Lemma read_after_clear_witness :
  ∃ w'', read 64 ByteEntry.demo_cleared = Throws (runtime_error "fopen() failed") w''.
Proof.
  apply (read_after_clear 64 ByteEntry.demo_finished ByteEntry.demo_cleared).
  - vm_compute. discriminate.
  - vm_compute. reflexivity.
Defined.

Lemma finish_twice_witness :
  finish ByteEntry.demo_finished = Returns () ByteEntry.demo_finished.
Proof.
  apply (finish_twice ByteEntry.demo_ingested ByteEntry.demo_finished).
  vm_compute. reflexivity.
Defined.

Lemma clear_after_read_witness :
  Forall (λ b, file b ≠ None) (buckets (this ByteEntry.demo_read))
  ∧ ∃ w'', clear ByteEntry.demo_read = Returns () w''
      ∧ Forall (λ b, file b = None ∧ disk (fs w'') !! file_name b = None)
          (buckets (this w'')).
Proof.
  apply (clear_after_read 64 ByteEntry.demo_finished ByteEntry.demo_read
           (ByteEntry.value [] (read 64) ByteEntry.demo_finished)).
  vm_compute. reflexivity.
Defined.

Lemma sort_bucket_sorts_blocks_witness :
  ∃ units : list (output_t byte),
    sort_bucket [["002"; "001"]; ["007"]; ["009"; "008"]]%byte [] = [] ++ units
    ∧ Forall2 (λ blk u, block u ≡ₚ blk
                        ∧ StronglySorted (λ a b, key a ≤ key b) (block u))
        [["002"; "001"]; ["007"]; ["009"; "008"]]%byte units.
Proof.
  apply (sort_bucket_sorts_blocks (StdSortLaws0 := ByteEntryFacts.byte_sort_laws)
           [["002"; "001"]; ["007"]; ["009"; "008"]]%byte []).
Defined.

Lemma read_bucket_groups_witness :
  ∃ ps : list N,
    ByteEntry.value [] (read_bucket 0 4) ByteEntry.demo_finished
    = (λ p, filter (λ e, key e `div` 4 = p) (ByteEntry.of_keys [5; 6; 1; 2; 3; 4])) <$> ps
    ∧ StronglySorted N.lt ps
    ∧ ∀ p, p ∈ ps ↔ ∃ e, e ∈ ByteEntry.of_keys [5; 6; 1; 2; 3; 4] ∧ key e `div` 4 = p.
Proof.
  eapply (read_bucket_groups (EntryLaws0 := ByteEntryFacts.byte_entry_laws)
            (KeyLaws0 := ByteEntryFacts.byte_key_laws) 0 4
            (ByteEntry.of_keys [5; 6; 1; 2; 3; 4]) _ ByteEntry.demo_finished
            (ByteEntry.after (read_bucket 0 4) ByteEntry.demo_finished)).
  - vm_compute. reflexivity.
  - split; vm_compute; reflexivity.
  - vm_compute. reflexivity.
Defined.

Lemma read_bucket_zero_target_witness :
  ∃ w', read_bucket 0 0 ByteEntry.demo_finished
        = Throws (undefined_behaviour "division by zero") w'.
Proof.
  eapply (read_bucket_zero_target (EntryLaws0 := ByteEntryFacts.byte_entry_laws) 0
            (ByteEntry.of_keys [5; 6; 1; 2; 3; 4]) _ ByteEntry.demo_finished).
  - discriminate.
  - vm_compute. reflexivity.
  - split; vm_compute; reflexivity.
Defined.

Lemma add_changes_one_bucket_witness :
  let w := ByteEntry.demo_full in
  let w' := ByteEntry.after (add "003"%byte) ByteEntry.demo_full in
  ∃ b b',
    buckets (this w)
      !! N.to_nat (bucket_index (key_size (this w)) (log_num_buckets (this w)) "003"%byte)
    = Some b
    ∧ buckets (this w')
        !! N.to_nat (bucket_index (key_size (this w)) (log_num_buckets (this w)) "003"%byte)
      = Some b'
    ∧ file_name b' = file_name b ∧ file b' = file b
    ∧ num_entries b' = size_t (num_entries b + 1)
    ∧ (∀ j, j ≠ N.to_nat (bucket_index (key_size (this w)) (log_num_buckets (this w))
                            "003"%byte) →
         buckets (this w') !! j = buckets (this w) !! j)
    ∧ length (buckets (this w')) = length (buckets (this w))
    ∧ key_size (this w') = key_size (this w)
    ∧ log_num_buckets (this w') = log_num_buckets (this w)
    ∧ is_finished (this w') = false.
Proof.
  apply (add_changes_one_bucket "003"%byte ByteEntry.demo_full
           (ByteEntry.after (add "003"%byte) ByteEntry.demo_full)).
  vm_compute. reflexivity.
Defined.

Lemma run_leaves_other_files_witness :
  let w4 := ByteEntry.after clear ByteEntry.demo_read in
  (∀ i, i < 2 ^ Z.to_N 2 → disk (fs w4) !! bucket_file_name "plot" i = None)
  ∧ (∀ name, (∀ i, i < 2 ^ Z.to_N 2 → name ≠ bucket_file_name "plot" i) →
       disk (fs w4) !! name = disk (ByteEntry.empty_fs 1000) !! name).
Proof.
  apply (run_leaves_other_files (EntryLaws0 := ByteEntryFacts.byte_entry_laws)
           4 8 2 1 "plot" (ByteEntry.empty_fs 1000) (fs ByteEntry.demo_new)
           (this ByteEntry.demo_new) ByteEntry.demo_entries 64
           (ByteEntry.value [] (read 64) ByteEntry.demo_finished)
           ByteEntry.demo_ingested ByteEntry.demo_finished ByteEntry.demo_read
           (ByteEntry.after clear ByteEntry.demo_read)).
  - vm_compute. discriminate.
  - vm_compute. reflexivity.
  - vm_compute. reflexivity.
  - vm_compute. reflexivity.
  - vm_compute. reflexivity.
  - vm_compute. reflexivity.
Defined.

Lemma ingestion_with_room_witness :
  ∃ w1 w2,
    add_all ByteEntry.demo_entries ByteEntry.demo_new = Returns () w1
    ∧ finish w1 = Returns () w2
    ∧ ∀ (i : nat) b, buckets (this w2) !! i = Some b →
        let mine := filter (λ e, bucket_index 8 2 e = N.of_nat i) ByteEntry.demo_entries in
        num_entries b = N.of_nat (length mine)
        ∧ offset b = 0
        ∧ disk (fs w2) !! file_name b = Some (concat (entry_write <$> mine))
        ∧ file_length (fs w2) (file_name b) = num_entries b * disk_size.
Proof.
  apply (ingestion_with_room (EntryLaws0 := ByteEntryFacts.byte_entry_laws)
           (KeyLaws0 := ByteEntryFacts.byte_key_laws)
           4 8 2 1 "plot" (ByteEntry.empty_fs 1000) (fs ByteEntry.demo_new)
           (this ByteEntry.demo_new) ByteEntry.demo_entries).
  - vm_compute. discriminate.
  - vm_compute. discriminate.
  - vm_compute. reflexivity.
  - lia.
  - lia.
  - vm_compute. repeat constructor.
  - vm_compute. discriminate.
  - vm_compute. discriminate.
Defined.

Lemma read_bucket_reserve_too_large_witness :
  ∃ w', read_bucket 0 (2 ^ 63) ByteEntry.demo_finished
        = Throws (length_error "vector::reserve") w'.
Proof.
  eapply (read_bucket_reserve_too_large (EntryLaws0 := ByteEntryFacts.byte_entry_laws)
            0 (2 ^ 63) (ByteEntry.of_keys [5; 6; 1; 2; 3; 4]) _ ByteEntry.demo_finished).
  - discriminate.
  - vm_compute. reflexivity.
  - vm_compute. reflexivity.
  - split; vm_compute; reflexivity.
Defined.
